(** * The pmemobj control tree ([src/libpmemobj/ctl.c])

    A shallow embedding of the ctl query engine: the node tree, the dotted
    path walk of [ctl_query] with its index list, the read/write dispatch,
    module registration, the string query provider and the config loader.

    C strings are [string] values standing for the bytes before the
    terminating NUL; a pointer that may be NULL is an [option]. Integers of
    the C code ([int], [long]) are [Z]. *)

From Stdlib Require Import ZArith Ascii String List Bool Lia.
From stdpp Require Import base list.
Import ListNotations.

Local Open Scope string_scope.
Local Open Scope Z_scope.

(** ** The C library functions ctl.c relies on *)

Module Libc.

(** [errno] values of <errno.h> (Linux). *)
Definition ENOMEM : Z := 12.
Definition EINVAL : Z := 22.
Definition ERANGE : Z := 34.

(** [long] is 64 bits wide (LP64). *)
Definition LONG_MAX : Z := 9223372036854775807.
Definition LONG_MIN : Z := -9223372036854775808.

Definition code (c : ascii) : Z := Z.of_N (N_of_ascii c).

(** [isspace] in the C locale: space, \t, \n, \v, \f, \r. *)
Definition isspace (c : ascii) : bool :=
  (code c =? 32) || ((9 <=? code c) && (code c <=? 13)).

(** The value of [c] as a digit in bases up to 36, as [strtol] reads it. *)
Definition digit_value (c : ascii) : option Z :=
  let n := code c in
  if (48 <=? n) && (n <=? 57) then Some (n - 48)
  else if (97 <=? n) && (n <=? 122) then Some (n - 87)
  else if (65 <=? n) && (n <=? 90) then Some (n - 55)
  else None.

Definition is_digit_in (base : Z) (c : ascii) : bool :=
  match digit_value c with
  | Some d => d <? base
  | None => false
  end.

(** Leading white space of a string: how many characters, and what follows. *)
Fixpoint skip_space (s : string) : nat * string :=
  match s with
  | String c r =>
      if isspace c then let '(k, t) := skip_space r in (S k, t) else (O, s)
  | EmptyString => (O, s)
  end.

(** An optional sign: whether it is a minus, how many characters it took,
    and what follows. *)
Definition skip_sign (s : string) : bool * nat * string :=
  match s with
  | String c r =>
      if Ascii.eqb c "-" then (true, 1%nat, r)
      else if Ascii.eqb c "+" then (false, 1%nat, r)
      else (false, O, s)
  | EmptyString => (false, O, s)
  end.

(** Does [s] start with 0x or 0X followed by a hexadecimal digit? *)
Definition hex_prefix (s : string) : bool :=
  match s with
  | String z (String x (String d _)) =>
      Ascii.eqb z "0" && (Ascii.eqb x "x" || Ascii.eqb x "X")
      && is_digit_in 16 d
  | _ => false
  end.

Definition leading_zero (s : string) : bool :=
  match s with
  | String z _ => Ascii.eqb z "0"
  | EmptyString => false
  end.

(** [s + 2]. *)
Definition after_prefix (s : string) : string :=
  match s with
  | String _ (String _ t) => t
  | _ => s
  end.

(** The longest run of digits of [base] at the head of [s]: its value
    (accumulated on [acc]) and its length. *)
Fixpoint digits (base : Z) (s : string) (acc : Z) : Z * nat :=
  match s with
  | String c r =>
      match digit_value c with
      | Some d =>
          if d <? base
          then let '(v, k) := digits base r (acc * base + d) in (v, S k)
          else (acc, O)
      | None => (acc, O)
      end
  | EmptyString => (acc, O)
  end.

Record strtol_result := {
  sl_value : Z;       (* the returned long *)
  sl_endptr : nat;    (* endptr - nptr *)
  sl_erange : bool    (* errno was set to ERANGE *)
}.

(** The result for the value [r] read up to [e]: a value out of the range
    of long is clamped to LONG_MAX or LONG_MIN and flagged. *)
Definition strtol_clamp (r : Z) (e : nat) : strtol_result :=
  if r >? LONG_MAX
  then {| sl_value := LONG_MAX; sl_endptr := e; sl_erange := true |}
  else if r <? LONG_MIN
       then {| sl_value := LONG_MIN; sl_endptr := e; sl_erange := true |}
       else {| sl_value := r; sl_endptr := e; sl_erange := false |}.

(** The base that is used and the length of the prefix that is skipped:
    with base 0 or 16 an optional 0x, with base 0 a leading 0 selecting
    octal. *)
Definition strtol_base (base : Z) (s : string) : Z * nat :=
  if ((base =? 0) || (base =? 16)) && hex_prefix s then (16, 2%nat)
  else if base =? 0 then (if leading_zero s then 8 else 10, O)
  else (base, O).

(** [strtol(nptr, &endptr, base)] for base 0 or 2..36 (C11 7.22.1.4):
    white space, an optional sign, the prefix of the base, then the digits.
    Without any digit no conversion is made: the result is 0 and endptr is
    nptr. *)
Definition strtol (nptr : string) (base : Z) : strtol_result :=
  let '(ws, s1) := skip_space nptr in
  let '(neg, sg, s2) := skip_sign s1 in
  let '(b, pre) := strtol_base base s2 in
  let s3 := if Nat.eqb pre 0 then s2 else after_prefix s2 in
  let '(v, k) := digits b s3 0 in
  match k with
  | O => {| sl_value := 0; sl_endptr := O; sl_erange := false |}
  | S _ => strtol_clamp (if neg then - v else v) (ws + sg + pre + k)
  end.

(** [strcmp]: the sign of the first difference, bytes compared as
    unsigned char. *)
Definition strcmp (a b : string) : Z :=
  match String.compare a b with
  | Eq => 0
  | Lt => -1
  | Gt => 1
  end.

(** Is [c] one of the characters of [delim]? *)
Fixpoint is_delim (delim : string) (c : ascii) : bool :=
  match delim with
  | String d r => Ascii.eqb c d || is_delim r c
  | EmptyString => false
  end.

(** [s + strspn(s, delim)]. *)
Fixpoint skip_delim (delim : string) (s : string) : string :=
  match s with
  | String c r => if is_delim delim c then skip_delim delim r else s
  | EmptyString => s
  end.

(** The token at the head of [s] (up to the first delimiter) and where the
    scan resumes: after the delimiter that was overwritten with NUL, or at
    the end of the string. *)
Fixpoint split_token (delim : string) (s : string) : string * string :=
  match s with
  | String c r =>
      if is_delim delim c then (EmptyString, r)
      else let '(tok, rest) := split_token delim r in (String c tok, rest)
  | EmptyString => (EmptyString, EmptyString)
  end.

(** The delimiters at the head of [s], over which strtok_r steps. *)
Fixpoint leading_delim (delim : string) (s : string) : string :=
  match s with
  | String c r =>
      if is_delim delim c then String c (leading_delim delim r)
      else EmptyString
  | EmptyString => EmptyString
  end.

(** strtok_r cuts the string in place: it puts a NUL over the delimiter
    that ends the token. This is the string that then starts where [s]
    started: the delimiters stepped over and the token ([s] itself when it
    holds delimiters only). *)
Definition strtok_r_written (delim : string) (s : string) : string :=
  (leading_delim delim s
   ++ fst (split_token delim (skip_delim delim s)))%string.

(** [strtok_r(str, delim, &saveptr)]: the scan starts at [str], or at
    [saveptr] when [str] is NULL. The result is the token (NULL when only
    delimiters are left) and the new [saveptr]. *)
Definition strtok_r (str : option string) (delim : string) (saveptr : string)
  : option string * string :=
  let s := skip_delim delim (match str with Some s => s | None => saveptr end) in
  match s with
  | EmptyString => (None, EmptyString)
  | String _ _ =>
      let '(tok, rest) := split_token delim s in (Some tok, rest)
  end.

(** The allocator and [errno]: the blocks that are live, the next fresh
    block, and for each coming allocation whether it fails ([true]; once the
    list is used up every allocation succeeds). Malloc, Zalloc, Strdup and
    Free are the wrappers of util.h (not among the sources) around malloc,
    strdup and free. *)
Record cstate := {
  live : list nat;
  brk : nat;
  oom : list bool;
  errno : Z
}.

Definition set_errno (e : Z) (m : cstate) : cstate :=
  {| live := live m; brk := brk m; oom := oom m; errno := e |}.

(** [Malloc(size)]: NULL with errno ENOMEM, or a fresh live block. *)
Definition Malloc (m : cstate) : option nat * cstate :=
  match oom m with
  | true :: later =>
      (None, {| live := live m; brk := brk m; oom := later; errno := ENOMEM |})
  | _ =>
      (Some (brk m),
       {| live := brk m :: live m; brk := S (brk m); oom := tail (oom m);
          errno := errno m |})
  end.

(** [Strdup(s)] allocates the copy; the copy's text is [s] itself. *)
Definition Strdup (s : string) (m : cstate) : option nat * cstate := Malloc m.

Fixpoint remove_block (b : nat) (l : list nat) : list nat :=
  match l with
  | [] => []
  | x :: r => if Nat.eqb x b then r else x :: remove_block b r
  end.

(** [Free(ptr)] for a non-NULL [ptr]. *)
Definition Free (b : nat) (m : cstate) : cstate :=
  {| live := remove_block b (live m); brk := brk m; oom := oom m;
     errno := errno m |}.

End Libc.

Import Libc.

(** ** The node tree *)

(** Modelled from the spec: ctl.h is not among the sources. The node kinds
    are the three kinds of the spec's data model (Named, Indexed, Leaf) and
    the kind of a zeroed entry; a query comes from a direct call or from a
    configuration load. *)
Inductive ctl_node_type :=
  | CTL_NODE_UNKNOWN
  | CTL_NODE_NAMED
  | CTL_NODE_LEAF
  | CTL_NODE_INDEXED.

Inductive ctl_query_type :=
  | CTL_QUERY_PROGRAMMATIC
  | CTL_QUERY_CONFIG_INPUT.

Definition ctl_node_type_eqb (a b : ctl_node_type) : bool :=
  match a, b with
  | CTL_NODE_UNKNOWN, CTL_NODE_UNKNOWN
  | CTL_NODE_NAMED, CTL_NODE_NAMED
  | CTL_NODE_LEAF, CTL_NODE_LEAF
  | CTL_NODE_INDEXED, CTL_NODE_INDEXED => true
  | _, _ => false
  end.

(** Modelled from the spec: struct ctl_index of ctl.h, one entry of the
    index list: the numeric value of a path segment and the name of the node
    the segment matched ([None] until line 154 stores it). *)
Record ctl_index := {
  idx_name : option string;
  idx_value : Z
}.

(** What stops a call short of returning. *)
Inductive fault :=
  | NullDereference    (* a load through a NULL pointer *)
  | OutOfBounds        (* an access past the end of an array *)
  | AssertionFailure.  (* ASSERTeq aborted the process *)

Inductive outcome (R : Type) :=
  | Returned (r : R)
  | Fault (f : fault)
  | OutOfFuel.
Arguments Returned {R} r.
Arguments Fault {R} f.
Arguments OutOfFuel {R}.

Definition CTL_MAX_ENTRIES : Z := 100.

Definition CTL_STRING_QUERY_SEPARATOR : string := ";".
Definition CTL_NAME_VALUE_SEPARATOR : string := "=".
Definition CTL_QUERY_NODE_SEPARATOR : string := ".".

Inductive rw := ReadCb | WriteCb.

(** [p != NULL]. *)
Definition non_null {T : Type} (p : option T) : bool :=
  match p with
  | Some _ => true
  | None => false
  end.

Section Ctl.

(** [P] is the state of the pool that the leaf callbacks read and change,
    [A] is what a read or write argument (a void pointer) points to. *)
Context {P A : Type}.

(** Whether the ASSERT macros of out.h (not among the sources) are
    compiled in, as they are in a debug build. *)
Variable debug : bool.

(** Modelled from the spec: the callback type of ctl.h. A leaf callback gets
    the pool, the origin of the query, the argument and the index list, and
    returns a status; what it reads and changes is the pool state [P]. *)
Definition node_callback : Type :=
  P -> ctl_query_type -> A -> list ctl_index -> Z * P.

(** Modelled from the spec: struct ctl_node of ctl.h, with the fields ctl.c
    reads and writes. An array of nodes is a list that holds its terminating
    entry, the one whose name is NULL. *)
#[warnings="-register-all"]
Inductive ctl_node := mk_ctl_node {
  name : option string;
  type : ctl_node_type;
  read_cb : option node_callback;
  write_cb : option node_callback;
  children : option (list ctl_node)
}.

(** The entry that ends an array, which is also what Zalloc leaves. *)
Definition CTL_NODE_END : ctl_node :=
  {| name := None; type := CTL_NODE_UNKNOWN; read_cb := None;
     write_cb := None; children := None |}.

Record ctl := {
  root : list ctl_node;   (* CTL_MAX_ENTRIES entries *)
  first_free : Z
}.

(** One invocation of a leaf callback, with the status it returned. *)
Record call := {
  cb_kind : rw;
  cb_node : option string;
  cb_type : ctl_query_type;
  cb_arg : A;
  cb_indexes : list ctl_index;
  cb_ret : Z
}.

(** The index list of a query: each entry with the block that holds it,
    the head of the SLIST first. *)
Definition indexes : Type := list (nat * ctl_index).

(** [index_entry->name = nm] on the entry that was just put at the head. *)
Definition set_head_name (nm : option string) (ix : indexes) : indexes :=
  match ix with
  | (b, e) :: r => (b, {| idx_name := nm; idx_value := idx_value e |}) :: r
  | [] => []
  end.

(** Lines 143-148: the pointer [n] when the for loop ends, [None] when it
    ran past the array without meeting a NULL name. *)
Fixpoint ctl_scan (index_entry : bool) (node_name : string)
    (nodes : list ctl_node) : option ctl_node :=
  match nodes with
  | [] => None
  | n :: rest =>
      match name n with
      | None => Some n
      | Some nm =>
          if index_entry && ctl_node_type_eqb (type n) CTL_NODE_INDEXED
          then Some n
          else if strcmp nm node_name =? 0 then Some n
          else ctl_scan index_entry node_name rest
      end
  end.

Inductive step_result :=
  | StepNext (nodes : option (list ctl_node)) (n : ctl_node) (ix : indexes)
             (m : cstate)
  | StepError (ix : indexes) (m : cstate)   (* goto error_invalid_arguments *)
  | StepFault (f : fault).

(** Lines 132-141: strtol and, when it moved endptr, the new index entry.
    [inl] is the failed Malloc. *)
Definition ctl_query_index (node_name : string) (ix : indexes) (m : cstate)
  : cstate + (bool * indexes * cstate) :=
  let r := strtol node_name 0 in
  let m := if sl_erange r then set_errno ERANGE m else m in
  let index_value := sl_value r in
  if negb (Nat.eqb (sl_endptr r) 0)
  then match Malloc m with
       | (None, m) => inl m
       | (Some b, m) =>
           inr (true,
                (b, {| idx_name := None; idx_value := index_value |}) :: ix, m)
       end
  else inr (false, ix, m).

(** Lines 132-156: the body of the while loop for the token [node_name]. *)
Definition ctl_query_step (nodes : option (list ctl_node))
    (node_name : string) (ix : indexes) (m : cstate) : step_result :=
  match ctl_query_index node_name ix m with
  | inl m => StepError ix m
  | inr (index_entry, ix, m) =>
      match nodes with
      | None => StepFault NullDereference
      | Some arr =>
          match ctl_scan index_entry node_name arr with
          | None => StepFault OutOfBounds
          | Some n =>
              match name n with
              | None => StepError ix (set_errno EINVAL m)
              | Some _ =>
                  let ix :=
                    if index_entry then set_head_name (name n) ix else ix in
                  StepNext (children n) n ix m
              end
          end
      end
  end.

Inductive loop_result :=
  | LoopDone (nodes : option (list ctl_node)) (n : option ctl_node)
             (ix : indexes) (m : cstate)
  | LoopError (ix : indexes) (m : cstate)
  | LoopFault (f : fault)
  | LoopFuel.

(** Lines 131-158: the while loop, entered with the first token. It ends
    with the values of [nodes], [n] and the index list, or at one of the
    gotos. *)
Fixpoint ctl_query_loop (fuel : nat) (node_name : option string)
    (sptr : string) (nodes : option (list ctl_node)) (n : option ctl_node)
    (ix : indexes) (m : cstate) : loop_result :=
  match node_name with
  | None => LoopDone nodes n ix m
  | Some tok =>
      match fuel with
      | O => LoopFuel
      | S fuel =>
          match ctl_query_step nodes tok ix m with
          | StepNext nodes n ix m =>
              let '(node_name, sptr) :=
                strtok_r None CTL_QUERY_NODE_SEPARATOR sptr in
              ctl_query_loop fuel node_name sptr nodes (Some n) ix m
          | StepError ix m => LoopError ix m
          | StepFault f => LoopFault f
          end
      end
  end.

(** Lines 120-158: the tokenizing of the copy of [name] and the walk from
    the root. *)
Definition ctl_query_parse (c : ctl) (name : string) (m : cstate)
  : loop_result :=
  let '(node_name, sptr) :=
    strtok_r (Some name) CTL_QUERY_NODE_SEPARATOR EmptyString in
  ctl_query_loop (S (String.length name)) node_name sptr (Some (root c))
    None [] m.

(** Lines 182-188: the index entries are freed from the head, then
    the copy of the name. *)
Fixpoint free_indexes (ix : indexes) (m : cstate) : cstate :=
  match ix with
  | [] => m
  | (b, _) :: r => free_indexes r (Free b m)
  end.

Definition ctl_query_cleanup (ix : indexes) (parse_str : nat) (m : cstate)
  : cstate :=
  Free parse_str (free_indexes ix m).

(** Lines 164-166: the test that discards a call. *)
Definition ctl_query_invalid (n : ctl_node) (read_arg write_arg : option A)
  : bool :=
  (non_null read_arg && negb (non_null (read_cb n)))
  || (non_null write_arg && negb (non_null (write_cb n)))
  || (negb (non_null write_arg) && negb (non_null read_arg)).

Record query_result := {
  ret : Z;
  pool : P;
  mem : cstate;
  calls : list call
}.

(** Lines 173-179: the read callback, then the write callback when the
    status is still 0. *)
Definition ctl_query_dispatch (n : ctl_node) (pop : P)
    (qtype : ctl_query_type) (read_arg write_arg : option A)
    (ix : indexes) : outcome (Z * P * list call) :=
  let ixs := map snd ix in
  let ret := 0 in
  let after_read :=
    match read_arg with
    | Some ra =>
        match read_cb n with
        | Some cb =>
            let '(r, pop) := cb pop qtype ra ixs in
            Returned (r, pop, [ {| cb_kind := ReadCb; cb_node := name n;
                                   cb_type := qtype; cb_arg := ra;
                                   cb_indexes := ixs; cb_ret := r |} ])
        | None => Fault NullDereference
        end
    | None => Returned (ret, pop, [])
    end in
  match after_read with
  | Returned (ret, pop, cs) =>
      match write_arg with
      | Some wa =>
          if ret =? 0
          then match write_cb n with
               | Some cb =>
                   let '(r, pop) := cb pop qtype wa ixs in
                   Returned (r, pop,
                             (cs ++ [ {| cb_kind := WriteCb; cb_node := name n;
                                         cb_type := qtype; cb_arg := wa;
                                         cb_indexes := ixs; cb_ret := r |} ])%list)
               | None => Fault NullDereference
               end
          else Returned (ret, pop, cs)
      | None => Returned (ret, pop, cs)
      end
  | other => other
  end.

(** [ctl_query]: parses the name and calls the methods of the leaf it
    names. [c] is pop->ctl, [pop] the rest of the pool. *)
Definition ctl_query (c : ctl) (pop : P) (qtype : ctl_query_type)
    (name : string) (read_arg write_arg : option A) (m : cstate)
  : outcome query_result :=
  match Strdup name m with
  | (None, m) =>
      Returned {| ret := -1; pool := pop; mem := m; calls := [] |}
  | (Some parse_str, m) =>
      match ctl_query_parse c name m with
      | LoopFuel => OutOfFuel
      | LoopFault f => Fault f
      | LoopError ix m =>
          Returned {| ret := -1; pool := pop;
                      mem := ctl_query_cleanup ix parse_str m; calls := [] |}
      | LoopDone _ n ix m =>
          let invalid :=
            Returned {| ret := -1; pool := pop;
                        mem := ctl_query_cleanup ix parse_str
                                 (set_errno EINVAL m);
                        calls := [] |} in
          match n with
          | None => invalid
          | Some n =>
              if ctl_query_invalid n read_arg write_arg then invalid
              else if debug
                      && negb (ctl_node_type_eqb (type n) CTL_NODE_LEAF)
              then Fault AssertionFailure
              else
                match ctl_query_dispatch n pop qtype read_arg write_arg ix with
                | Returned (r, pop, cs) =>
                    Returned {| ret := r; pool := pop;
                                mem := ctl_query_cleanup ix parse_str m;
                                calls := cs |}
                | Fault f => Fault f
                | OutOfFuel => OutOfFuel
                end
          end
      end
  end.

(** [pmemobj_ctl]: a query made by the program. *)
Definition pmemobj_ctl (c : ctl) (pop : P) (name : string)
    (read_arg write_arg : option A) (m : cstate) : outcome query_result :=
  ctl_query c pop CTL_QUERY_PROGRAMMATIC name read_arg write_arg m.

(** [ctl_register_module_node]: adds a new node to the root of the tree.
    The entry at [first_free] gets the children, the Named kind and a copy
    of the name; its callbacks stay as they were. The store is outside the
    array when [first_free] is not an index of it. *)
Definition ctl_register_module_node (c : ctl) (nm : string)
    (n : option (list ctl_node)) (m : cstate) : outcome (ctl * cstate) :=
  let i := first_free c in
  let c := {| root := root c; first_free := i + 1 |} in
  if (i <? 0) || (CTL_MAX_ENTRIES <=? i) then Fault OutOfBounds
  else
    match root c !! Z.to_nat i with
    | None => Fault OutOfBounds
    | Some nnode =>
        let '(copy, m) := Strdup nm m in
        let nnode :=
          {| name := match copy with Some _ => Some nm | None => None end;
             type := CTL_NODE_NAMED;
             read_cb := read_cb nnode;
             write_cb := write_cb nnode;
             children := n |} in
        Returned ({| root := <[Z.to_nat i := nnode]> (root c);
                     first_free := first_free c |}, m)
    end.

(** [ctl_new]: the zeroed structure. The result of Zalloc is used
    unchecked. *)
Definition ctl_new (m : cstate) : outcome (ctl * cstate) :=
  match Malloc m with
  | (None, _) => Fault NullDereference
  | (Some _, m) =>
      Returned ({| root := replicate (Z.to_nat CTL_MAX_ENTRIES) CTL_NODE_END;
                   first_free := 0 |}, m)
  end.

(** ** Query providers and the config loader *)

(** Modelled from the spec: struct ctl_query_config of ctl.h, the name and
    the value of one query, both NULL at first. *)
Record ctl_query_config := {
  q_name : option string;
  q_value : option string
}.

(** Modelled from the spec: struct ctl_query_provider of ctl.h, the two
    methods of a provider whose own state is [S]. A method fills the query
    and returns 0, returns 1 at the end of the collection, or a negative
    value on an error. *)
Record ctl_query_provider (S : Type) := {
  first : S -> ctl_query_config -> Z * ctl_query_config * S;
  next : S -> ctl_query_config -> Z * ctl_query_config * S
}.
Arguments first {S} _ _ _.
Arguments next {S} _ _ _.

(** The string provider. [buf] is the string that starts at sp->buf, up to
    the first NUL that strtok_r has put into it; [sptr] is what is left of
    the text behind the entry that was cut out last. *)
Record ctl_string_provider := {
  buf : string;       (* the entire string that needs to be parsed *)
  sptr : string;      (* for internal use of strtok *)
  buf_block : nat;
  self_block : nat
}.

(** [ctl_string_provider_parse_query]: splits an entire query string into
    name and value. *)
Definition ctl_string_provider_parse_query (qbuf : option string)
    (q : ctl_query_config) : Z * ctl_query_config :=
  match qbuf with
  | None => (1, q)
  | Some qbuf =>
      let '(nm, sp) :=
        strtok_r (Some qbuf) CTL_NAME_VALUE_SEPARATOR EmptyString in
      let q := {| q_name := nm; q_value := q_value q |} in
      match nm with
      | None => (-1, q)
      | Some _ =>
          let '(v, sp) := strtok_r None CTL_NAME_VALUE_SEPARATOR sp in
          let q := {| q_name := q_name q; q_value := v |} in
          match v with
          | None => (-1, q)
          | Some _ =>
              (* the value itself mustn't include CTL_NAME_VALUE_SEPARATOR *)
              let '(extra, sp) := strtok_r None CTL_NAME_VALUE_SEPARATOR sp in
              match extra with
              | Some _ => (-1, q)
              | None => (0, q)
              end
          end
      end
  end.

Definition set_sptr (sp : ctl_string_provider) (s : string)
  : ctl_string_provider :=
  {| buf := buf sp; sptr := s; buf_block := buf_block sp;
     self_block := self_block sp |}.

Definition set_buf (sp : ctl_string_provider) (b : string)
  : ctl_string_provider :=
  {| buf := b; sptr := sptr sp; buf_block := buf_block sp;
     self_block := self_block sp |}.

(** [ctl_string_provider_first]: the first query of the collection. The
    strtok_r of line 280 puts a NUL at the end of the first entry of
    sp->buf, and that of line 254 one at the end of the name of that entry:
    of the text at sp->buf there are left the separators in front of the
    entry and its name. *)
Definition ctl_string_provider_first (sp : ctl_string_provider)
    (q : ctl_query_config) : Z * ctl_query_config * ctl_string_provider :=
  let '(qbuf, s) :=
    strtok_r (Some (buf sp)) CTL_STRING_QUERY_SEPARATOR (sptr sp) in
  let written :=
    match qbuf with
    | Some e =>
        (leading_delim CTL_STRING_QUERY_SEPARATOR (buf sp)
         ++ strtok_r_written CTL_NAME_VALUE_SEPARATOR e)%string
    | None => buf sp
    end in
  (ctl_string_provider_parse_query qbuf q, set_sptr (set_buf sp written) s).

(** [ctl_string_provider_next]: the next query of the collection. What
    strtok_r writes here lies behind the first NUL of sp->buf. *)
Definition ctl_string_provider_next (sp : ctl_string_provider)
    (q : ctl_query_config) : Z * ctl_query_config * ctl_string_provider :=
  let '(qbuf, s) := strtok_r None CTL_STRING_QUERY_SEPARATOR (sptr sp) in
  (ctl_string_provider_parse_query qbuf q, set_sptr sp s).

Definition string_provider : ctl_query_provider ctl_string_provider :=
  {| first := ctl_string_provider_first; next := ctl_string_provider_next |}.

(** [ctl_string_provider_new]: NULL when an allocation fails, the provider
    block being freed again when it is the copy of [buf] that failed. *)
Definition ctl_string_provider_new (b : string) (m : cstate)
  : option ctl_string_provider * cstate :=
  match Malloc m with
  | (None, m) => (None, m)
  | (Some sp, m) =>
      match Strdup b m with
      | (None, m) => (None, Free sp m)
      | (Some copy, m) =>
          (Some {| buf := b; sptr := EmptyString; buf_block := copy;
                   self_block := sp |}, m)
      end
  end.

(** [ctl_string_provider_delete]. *)
Definition ctl_string_provider_delete (sp : ctl_string_provider) (m : cstate)
  : cstate :=
  Free (self_block sp) (Free (buf_block sp) m).

(** The cast of the value of a config query to the write argument. *)
Variable arg_of_string : string -> A.

(** [ctl_exec_query_config]: executes a ctl query from a provider. With a
    NULL name, Strdup reads through NULL. *)
Definition ctl_exec_query_config (c : ctl) (pop : P) (q : ctl_query_config)
    (m : cstate) : outcome query_result :=
  match q_name q with
  | None => Fault NullDereference
  | Some nm =>
      ctl_query c pop CTL_QUERY_CONFIG_INPUT nm None
        (option_map arg_of_string (q_value q)) m
  end.

(** The for loop of [ctl_load_config], at its test [r == 0]; [cs] are the
    callback invocations so far. *)
Fixpoint ctl_load_config_loop {S : Type} (fuel : nat) (c : ctl)
    (p : ctl_query_provider S) (s : S) (r : Z) (q : ctl_query_config)
    (pop : P) (m : cstate) (cs : list call)
  : outcome (S * query_result) :=
  if r =? 0
  then match fuel with
       | O => OutOfFuel
       | Datatypes.S fuel =>
           match ctl_exec_query_config c pop q m with
           | Returned res =>
               let cs := (cs ++ calls res)%list in
               if negb (ret res =? 0)
               then Returned (s, {| ret := ret res; pool := pool res;
                                    mem := mem res; calls := cs |})
               else
                 let '(r, q, s) := next p s q in
                 ctl_load_config_loop fuel c p s r q (pool res) (mem res) cs
           | Fault f => Fault f
           | OutOfFuel => OutOfFuel
           end
       end
  else Returned (s, {| ret := r; pool := pop; mem := m; calls := cs |}).

(** [ctl_load_config]: executes the entire query collection of a
    provider. *)
Definition ctl_load_config {S : Type} (fuel : nat) (c : ctl) (pop : P)
    (p : ctl_query_provider S) (s : S) (m : cstate)
  : outcome (S * query_result) :=
  let q := {| q_name := None; q_value := None |} in
  let '(r, q, s) := first p s q in
  match ctl_load_config_loop fuel c p s r q pop m [] with
  | Returned (s, res) =>
      (* the method 'next' from data provider returns 1 to indicate end *)
      Returned (s, {| ret := if ret res >=? 0 then 0 else -1;
                      pool := pool res; mem := mem res;
                      calls := calls res |})
  | other => other
  end.

End Ctl.

Arguments node_callback : clear implicits.
Arguments ctl_node : clear implicits.
Arguments ctl : clear implicits.
Arguments call : clear implicits.
Arguments query_result : clear implicits.
Arguments step_result : clear implicits.
Arguments loop_result : clear implicits.

(** ** Notions used to state the properties *)

(** All the tokens that successive strtok_r calls cut out of [s]. *)
Fixpoint tokens_from (fuel : nat) (delim : string) (s : string)
  : list string :=
  match fuel with
  | O => []
  | S fuel =>
      match strtok_r None delim s with
      | (Some t, r) => t :: tokens_from fuel delim r
      | (None, _) => []
      end
  end.

Definition tokens (delim : string) (s : string) : list string :=
  tokens_from (S (String.length s)) delim s.

(** The segments of a path. *)
Definition segments (path : string) : list string :=
  tokens CTL_QUERY_NODE_SEPARATOR path.

Definition is_decimal_digit (c : ascii) : bool :=
  (48 <=? code c) && (code c <=? 57).

(** A segment starts with a number: after white space and an optional sign
    comes a decimal digit. *)
Definition starts_numeric (seg : string) : bool :=
  match snd (skip_sign (snd (skip_space seg))) with
  | String c _ => is_decimal_digit c
  | EmptyString => false
  end.

(** The test of line 135, [endptr != node_name]. *)
Definition valid_index (seg : string) : bool :=
  negb (Nat.eqb (sl_endptr (strtol seg 0)) 0).

(** The whole segment is consumed by the numeric parse. *)
Definition fully_numeric (seg : string) : bool :=
  Nat.eqb (sl_endptr (strtol seg 0)) (String.length seg)
  && negb (Nat.eqb (String.length seg) 0).

(** The first [k] allocations from [m] on succeed. *)
Definition alloc_ok (k : nat) (m : cstate) : bool :=
  forallb negb (firstn k (oom m)).

(** The first nonzero status of a list of statuses, 0 when there is none. *)
Fixpoint first_failure (l : list Z) : Z :=
  match l with
  | [] => 0
  | r :: rest => if r =? 0 then first_failure rest else r
  end.

Section Notions.

Context {P A : Type}.

(** The while loop of [ctl_query] over the list of the tokens of the path. *)
Fixpoint ctl_query_walk (segs : list string)
    (nodes : option (list (ctl_node P A))) (n : option (ctl_node P A))
    (ix : indexes) (m : cstate) : loop_result P A :=
  match segs with
  | [] => LoopDone nodes n ix m
  | tok :: segs =>
      match ctl_query_step nodes tok ix m with
      | StepNext nodes n ix m => ctl_query_walk segs nodes (Some n) ix m
      | StepError ix m => LoopError ix m
      | StepFault f => LoopFault f
      end
  end.

(** A segment matches a node: the node is Indexed and the segment carries
    an index, or the name of the node is the text of the segment. *)
Definition node_matches (index_entry : bool) (seg : string)
    (n : ctl_node P A) : bool :=
  (index_entry && ctl_node_type_eqb (type n) CTL_NODE_INDEXED)
  || match name n with
     | Some nm => String.eqb nm seg
     | None => false
     end.

(** A named node that the scan passes over. *)
Definition passed_over (index_entry : bool) (seg : string)
    (n : ctl_node P A) : Prop :=
  name n <> None /\ node_matches index_entry seg n = false.

(** [x] is the first node of the array [arr] that the segment matches: the
    nodes in front of it are named and the segment matches none of them. *)
Definition first_match (index_entry : bool) (seg : string)
    (arr : list (ctl_node P A)) (x : ctl_node P A) : Prop :=
  exists pre post,
    arr = (pre ++ x :: post)%list
    /\ Forall (passed_over index_entry seg) pre
    /\ name x <> None
    /\ node_matches index_entry seg x = true.

(** The segment matches no node of the array [arr]: the nodes in front of
    the entry that ends the array are named and the segment matches none of
    them. *)
Definition no_match (index_entry : bool) (seg : string)
    (arr : list (ctl_node P A)) : Prop :=
  exists pre e post,
    arr = (pre ++ e :: post)%list
    /\ Forall (passed_over index_entry seg) pre
    /\ name e = None.

(** The segments [segs] lead through the nodes [ms], from the array [nodes]
    down: each segment, with a pending index when it starts with a number,
    has a first node that it matches in the array that the walk has
    reached, and the next segment is looked up in the children of that
    node. *)
Inductive path_matches
  : option (list (ctl_node P A)) -> list string -> list (ctl_node P A)
    -> Prop :=
  | path_matches_nil nodes : path_matches nodes [] []
  | path_matches_cons arr seg segs x ms :
      first_match (valid_index seg) seg arr x ->
      path_matches (children x) segs ms ->
      path_matches (Some arr) (seg :: segs) (x :: ms).

(** The walk over the segments [segs] from the array [nodes] comes to an
    end: each segment that is reached is looked up in an array, and either
    has a first node that it matches there, in the children of which the
    walk goes on, or matches no node up to the entry that ends the array,
    where the walk stops. *)
Inductive walk_ends
  : option (list (ctl_node P A)) -> list string -> Prop :=
  | walk_ends_nil nodes : walk_ends nodes []
  | walk_ends_match arr seg segs x :
      first_match (valid_index seg) seg arr x ->
      walk_ends (children x) segs ->
      walk_ends (Some arr) (seg :: segs)
  | walk_ends_no_match arr seg segs :
      no_match (valid_index seg) seg arr ->
      walk_ends (Some arr) (seg :: segs).

(** The nodes that the segments of a path match one after the other, from
    the array [nodes] down: each segment matches the first node of the
    current array that it matches, and the walk goes on in the children of
    that node. *)
Fixpoint path_nodes (nodes : option (list (ctl_node P A)))
    (segs : list string) : option (list (ctl_node P A)) :=
  match segs with
  | [] => Some []
  | seg :: rest =>
      match nodes with
      | None => None
      | Some arr =>
          match ctl_scan (valid_index seg) seg arr with
          | Some n =>
              match name n with
              | Some _ => option_map (cons n) (path_nodes (children n) rest)
              | None => None
              end
          | None => None
          end
      end
  end.

(** The index entries of a path, outermost first: one for each segment
    that starts with a number, holding the number and the name of the node
    that the segment matched. *)
Fixpoint index_entries (segs : list string) (ms : list (ctl_node P A))
  : list ctl_index :=
  match segs, ms with
  | seg :: segs, n :: ms =>
      if valid_index seg
      then {| idx_name := name n; idx_value := sl_value (strtol seg 0) |}
           :: index_entries segs ms
      else index_entries segs ms
  | _, _ => []
  end.

(** The number of index segments of a path. *)
Definition index_segments (segs : list string) : nat :=
  length (List.filter valid_index segs).

(** The path resolves: the copy of the name is made and the walk ends on
    the node [n] with the index list [ix]. *)
Definition resolves (c : ctl P A) (path : string) (m : cstate)
    (n : ctl_node P A) (ix : indexes) (m' : cstate) : Prop :=
  exists parse_str m1 nodes,
    Strdup path m = (Some parse_str, m1)
    /\ ctl_query_parse c path m1 = LoopDone nodes (Some n) ix m'.

(** An entry of a config text is a name and a value: exactly two tokens
    around the separator. *)
Definition entry_pair (e : string) : option (string * string) :=
  match tokens CTL_NAME_VALUE_SEPARATOR e with
  | [nm; v] => Some (nm, v)
  | _ => None
  end.

Variable debug : bool.
Variable arg_of_string : string -> A.

(** The entries of a config text are applied from left to right, each as
    a query from a config input with a write argument only, up to the first
    entry that is malformed (status -1) or whose query returns a nonzero
    status (that status); the status is 1 when the entries are used up.
    [cs] are the callback invocations so far. *)
Fixpoint load_entries (c : ctl P A) (es : list string) (pop : P)
    (m : cstate) (cs : list (call A)) : outcome (query_result P A) :=
  match es with
  | [] => Returned {| ret := 1; pool := pop; mem := m; calls := cs |}
  | e :: rest =>
      match entry_pair e with
      | None => Returned {| ret := -1; pool := pop; mem := m; calls := cs |}
      | Some (nm, v) =>
          match ctl_query debug c pop CTL_QUERY_CONFIG_INPUT nm None
                  (Some (arg_of_string v)) m with
          | Returned res =>
              if ret res =? 0
              then load_entries c rest (pool res) (mem res)
                     (cs ++ calls res)%list
              else Returned {| ret := ret res; pool := pool res;
                               mem := mem res;
                               calls := (cs ++ calls res)%list |}
          | Fault f => Fault f
          | OutOfFuel => OutOfFuel
          end
      end
  end.

(** What the loader makes of the status at which the loop stopped. *)
Definition load_status (o : outcome (query_result P A))
  : outcome (query_result P A) :=
  match o with
  | Returned res =>
      Returned {| ret := if ret res >=? 0 then 0 else -1; pool := pool res;
                  mem := mem res; calls := calls res |}
  | other => other
  end.

End Notions.

Definition outcome_map {X Y : Type} (f : X -> Y) (o : outcome X) : outcome Y :=
  match o with
  | Returned x => Returned (f x)
  | Fault f => Fault f
  | OutOfFuel => OutOfFuel
  end.

(** ** Concrete trees

    The pool state of these examples is a counter that a callback may bump,
    arguments are strings. *)

Module Examples.

Definition node : Type := ctl_node Z string.

Definition m0 : cstate := {| live := []; brk := O; oom := []; errno := 0 |}.

Definition END : node := CTL_NODE_END.

Definition leaf (nm : string) (r w : option (node_callback Z string)) : node :=
  {| name := Some nm; type := CTL_NODE_LEAF; read_cb := r; write_cb := w;
     children := None |}.

Definition inner (nm : string) (t : ctl_node_type) (kids : list node) : node :=
  {| name := Some nm; type := t; read_cb := None; write_cb := None;
     children := Some kids |}.

(** A callback that bumps the counter and returns [r]. *)
Definition bump (r : Z) : node_callback Z string :=
  fun pop _ _ _ => (r, pop + 1).

(** The modules are registered one by one on a new tree. *)
Fixpoint register_all (mods : list (string * list node))
    (c : ctl Z string) (m : cstate) : outcome (ctl Z string * cstate) :=
  match mods with
  | [] => Returned (c, m)
  | (nm, kids) :: rest =>
      match ctl_register_module_node c nm (Some kids) m with
      | Returned (c, m) => register_all rest c m
      | other => other
      end
  end.

Definition tree_of (mods : list (string * list node)) : ctl Z string :=
  match ctl_new m0 with
  | Returned (c, m) =>
      match register_all mods c m with
      | Returned (c, _) => c
      | _ => c
      end
  | _ => {| root := []; first_free := 0 |}
  end.

(** heap.N.size, with a read callback on size. *)
Definition arena_nodes : list node :=
  [leaf "size" (Some (bump 0)) None; END].

Definition heap_nodes : list node :=
  [inner "arena" CTL_NODE_INDEXED arena_nodes; END].

Definition heap_tree : ctl Z string := tree_of [("heap", heap_nodes)].

(** prefs.val can be read and written, prefs.ro only read, and the read
    callback of prefs.bad fails with 4. *)
Definition prefs_nodes : list node :=
  [leaf "val" (Some (bump 0)) (Some (bump 0));
   leaf "ro" (Some (bump 0)) None;
   leaf "bad" (Some (bump 4)) (Some (bump 0));
   END].

Definition prefs_tree : ctl Z string := tree_of [("prefs", prefs_nodes)].

(** a.N.b, c, fail and warn can be written; the write callback of fail
    fails with -7, that of warn returns 5. The leaves c, fail and warn sit
    in the root array itself. *)
Definition config_tree : ctl Z string :=
  {| root :=
       [inner "a" CTL_NODE_NAMED
          [inner "slot" CTL_NODE_INDEXED
             [leaf "b" None (Some (bump 0)); END]; END];
        leaf "c" None (Some (bump 0));
        leaf "fail" None (Some (bump (-7)));
        leaf "warn" None (Some (bump 5))]
       ++ replicate 96 END;
     first_free := 4 |}.

(** The modules prefs and heap, in that order. *)
Definition mixed_tree : ctl Z string :=
  tree_of [("prefs", prefs_nodes); ("heap", heap_nodes)].





(** An allocator whose first allocation fails. *)
Definition m_oom : cstate :=
  {| live := []; brk := O; oom := [true]; errno := 0 |}.

(** An array in which a node named 5 comes before an Indexed node. *)
Definition shadowed_nodes : list node :=
  [inner "5" CTL_NODE_NAMED arena_nodes;
   inner "arena" CTL_NODE_INDEXED arena_nodes;
   END].

(** The tree after CTL_MAX_ENTRIES registrations. *)
Definition full_tree : ctl Z string :=
  tree_of (repeat ("mod", arena_nodes) (Z.to_nat CTL_MAX_ENTRIES)).

Definition provider_of (text : string) : ctl_string_provider :=
  {| buf := text; sptr := EmptyString; buf_block := O; self_block := O |}.

End Examples.

(** ** Notions for the further properties *)

(** The character of the decimal digit [d]. *)
Definition digit_char (d : Z) : ascii := ascii_of_N (Z.to_N (48 + d)).

(** The numeral with the decimal digits [ds], first digit first. *)
Fixpoint decimal (ds : list Z) : string :=
  match ds with
  | [] => EmptyString
  | d :: rest => String (digit_char d) (decimal rest)
  end.

(** The number that the digits [ds] write, on top of [acc]. *)
Fixpoint decimal_value (ds : list Z) (acc : Z) : Z :=
  match ds with
  | [] => acc
  | d :: rest => decimal_value rest (acc * 10 + d)
  end.

(** A string made of separators only (the empty string is one). *)
Fixpoint only_delim (delim : string) (s : string) : bool :=
  match s with
  | EmptyString => true
  | String c r => is_delim delim c && only_delim delim r
  end.

Section Registered.

Context {P A : Type}.

(** A callback invocation made for a config load. *)
Definition config_write (cl : call A) : Prop :=
  cb_kind cl = WriteCb /\ cb_type cl = CTL_QUERY_CONFIG_INPUT.

(** The modules are registered one after the other. *)
Fixpoint ctl_register_modules
    (mods : list (string * option (list (ctl_node P A))))
    (c : ctl P A) (m : cstate) : outcome (ctl P A * cstate) :=
  match mods with
  | [] => Returned (c, m)
  | (nm, kids) :: rest =>
      match ctl_register_module_node c nm kids m with
      | Returned (c, m) => ctl_register_modules rest c m
      | other => other
      end
  end.

(** The shape of a root array that registration builds: it has
    CTL_MAX_ENTRIES entries, none has a callback, those below [first_free]
    are of the Named kind and those from [first_free] on are still zero. *)
Definition registered_root (c : ctl P A) : Prop :=
  length (root c) = Z.to_nat CTL_MAX_ENTRIES
  /\ 0 <= first_free c <= CTL_MAX_ENTRIES
  /\ forall (i : nat) (n : ctl_node P A),
       root c !! i = Some n ->
       read_cb n = None /\ write_cb n = None
       /\ ((Z.of_nat i < first_free c) -> type n = CTL_NODE_NAMED)
       /\ ((first_free c <= Z.of_nat i) -> n = CTL_NODE_END).

End Registered.

(** A string without any of the characters of [delim]. *)
Fixpoint no_delim (delim : string) (s : string) : bool :=
  match s with
  | EmptyString => true
  | String c r => negb (is_delim delim c) && no_delim delim r
  end.

(** A name or a value that can stand in a config text: not empty, and
    without the separator of the queries and that of name and value. *)
Definition config_token (s : string) : bool :=
  negb (String.eqb s EmptyString)
  && no_delim CTL_STRING_QUERY_SEPARATOR s
  && no_delim CTL_NAME_VALUE_SEPARATOR s.

(** The entry of a pair, name=value. *)
Definition entry_text (p : string * string) : string :=
  fst p ++ CTL_NAME_VALUE_SEPARATOR ++ snd p.

(** The config text of a list of pairs, the entries joined by the
    separator of the queries. *)
Fixpoint encode_config (ps : list (string * string)) : string :=
  match ps with
  | [] => EmptyString
  | [p] => entry_text p
  | p :: rest => entry_text p ++ CTL_STRING_QUERY_SEPARATOR ++ encode_config rest
  end.

(** The queries that a provider gives out, from the one that status [r]
    came with on, and the status that ends them. *)
Fixpoint provider_drain {S : Type} (fuel : nat) (p : ctl_query_provider S)
    (s : S) (r : Z) (q : ctl_query_config)
  : list (option string * option string) * Z :=
  if r =? 0
  then match fuel with
       | O => ([], r)
       | Datatypes.S fuel =>
           let '(r', q', s') := next S p s q in
           let '(l, e) := provider_drain fuel p s' r' q' in
           ((q_name q, q_value q) :: l, e)
       end
  else ([], r).

(** All the queries of a provider, by [first] and then [next]. *)
Definition provider_queries {S : Type} (fuel : nat)
    (p : ctl_query_provider S) (s : S)
  : list (option string * option string) * Z :=
  let '(r, q, s) := first S p s {| q_name := None; q_value := None |} in
  provider_drain fuel p s r q.

(** ** The persist worker of the rpmem test
    ([src/test/rpmem_basic/rpmem_basic.c]) *)

Module Rpmem.

(** [size_t] is 64 bits wide: arithmetic on it wraps around, and an [int]
    that meets a [size_t] is converted to it. *)
Definition SIZE_WRAP : Z := 2 ^ 64.
Definition size_t (z : Z) : Z := z mod SIZE_WRAP.
Definition INT_MAX : Z := 2147483647.

(** How a test function ends: it returns, a UT_ASSERT macro of unittest.h
    (not among the sources) aborts the test, or it divides by zero. *)
Inductive ut_outcome (R : Type) :=
  | UtReturned (r : R)
  | UtAssertion
  | UtDivisionByZero.
Arguments UtReturned {R} r.
Arguments UtAssertion {R}.
Arguments UtDivisionByZero {R}.

(** struct thread_arg: the arguments of a persist worker thread. *)
Record thread_arg (Pool : Type) := {
  rpp : Pool;
  off : Z;      (* size_t *)
  size : Z;     (* size_t *)
  nops : Z;     (* int *)
  lane : Z      (* unsigned *)
}.
Arguments rpp {Pool} _.
Arguments off {Pool} _.
Arguments size {Pool} _.
Arguments nops {Pool} _.
Arguments lane {Pool} _.

Section Persist.

(** [Pool] is the handle of a remote pool, [St] what the calls of
    librpmem act on. *)
Context {Pool St : Type}.

(** rpmem_persist of librpmem, with the pool, the offset, the length and
    the lane: its status and what it does to the state. *)
Variable rpmem_persist : Pool -> Z -> Z -> Z -> St -> Z * St.

(** The for loop of [persist_thread], entered at [i] with [cnt] rounds to
    go; [done] are the calls of rpmem_persist so far, with their offset,
    length and lane. *)
Fixpoint persist_loop (cnt : nat) (i : Z) (args : thread_arg Pool)
    (persist_size : Z) (st : St) (done : list (Z * Z * Z))
  : ut_outcome (St * list (Z * Z * Z)) :=
  match cnt with
  | O => UtReturned (st, done)
  | S cnt =>
      let o := size_t (off args + size_t (size_t i * persist_size)) in
      let left := size_t (size args - size_t (size_t i * persist_size)) in
      let sz := if left <? persist_size then left else persist_size in
      let '(ret, st) := rpmem_persist (rpp args) o sz (lane args) st in
      if ret =? 0
      then persist_loop cnt (i + 1) args persist_size st
             (done ++ [(o, sz, lane args)])
      else UtAssertion
  end.

(** [persist_thread]: the persist worker thread function. *)
Definition persist_thread (args : thread_arg Pool) (st : St)
  : ut_outcome (St * list (Z * Z * Z)) :=
  let n := size_t (nops args) in
  if n =? 0 then UtDivisionByZero
  else
    let persist_size := size args / n in
    if negb (size args mod n =? 0) then UtAssertion
    else persist_loop (Z.to_nat (nops args)) 0 args persist_size st [].

End Persist.

End Rpmem.

(** ** Further concrete values *)

Module MoreExamples.

Import Examples.

(** The tree that [ctl_new] makes, and the allocator after it. *)
Definition new_tree : ctl Z string :=
  {| root := replicate (Z.to_nat CTL_MAX_ENTRIES) END; first_free := 0 |}.

Definition m1 : cstate := {| live := [O]; brk := 1; oom := []; errno := 0 |}.

(** An allocator whose next allocation fails. *)
Definition m_fail : cstate :=
  {| live := []; brk := 5; oom := [true]; errno := 0 |}.

(** A worker that persists 4096 bytes from the offset 8192 in 4 operations
    on lane 2, and an rpmem_persist that counts its calls. *)
Definition worker : Rpmem.thread_arg unit :=
  {| Rpmem.rpp := tt; Rpmem.off := 8192; Rpmem.size := 4096;
     Rpmem.nops := 4; Rpmem.lane := 2 |}.

Definition persist_ok (_ : unit) (_ _ _ : Z) (calls : nat) : Z * nat :=
  (0, S calls).

End MoreExamples.

(** ** The C library model *)

Example strtol_dec :
  strtol "42" 0 = {| sl_value := 42; sl_endptr := 2; sl_erange := false |}.
Proof. reflexivity. Qed.

Example strtol_hex :
  strtol " -0x1fz" 0
  = {| sl_value := -31; sl_endptr := 6; sl_erange := false |}.
Proof. reflexivity. Qed.

Example strtol_oct :
  strtol "0178" 0 = {| sl_value := 15; sl_endptr := 3; sl_erange := false |}.
Proof. reflexivity. Qed.

Example strtol_0x :
  strtol "0xg" 0 = {| sl_value := 0; sl_endptr := 1; sl_erange := false |}.
Proof. reflexivity. Qed.

Example strtol_none :
  strtol "size" 0 = {| sl_value := 0; sl_endptr := 0; sl_erange := false |}.
Proof. reflexivity. Qed.

Example strtol_big :
  strtol "99999999999999999999" 0
  = {| sl_value := LONG_MAX; sl_endptr := 20; sl_erange := true |}.
Proof. reflexivity. Qed.

Example strtok_ex :
  strtok_r (Some "..heap.3.size") "." "" = (Some "heap", "3.size").
Proof. reflexivity. Qed.

Example segments_ex : segments "heap.3..size." = ["heap"; "3"; "size"].
Proof. reflexivity. Qed.

Lemma string_compare_refl (s : string) : String.compare s s = Eq.
Proof.
  pose proof (String.compare_antisym s s) as H.
  destruct (String.compare s s); simpl in H; congruence.
Qed.

(** [strcmp] is 0 exactly on equal strings. *)
Lemma strcmp_0 (a b : string) : (strcmp a b =? 0) = String.eqb a b.
Proof.
  unfold strcmp. destruct (String.eqb_spec a b) as [->|Hne].
  - now rewrite string_compare_refl.
  - destruct (String.compare a b) eqn:E; try reflexivity.
    apply String.compare_eq_iff in E. contradiction.
Qed.

Lemma skip_delim_length (d s : string) :
  (String.length (skip_delim d s) <= String.length s)%nat.
Proof.
  induction s as [|c r IH]; simpl; [lia|].
  destruct (is_delim d c); simpl; lia.
Qed.

Lemma split_token_length (d s tok rest : string) :
  split_token d s = (tok, rest) ->
  (String.length tok + String.length rest <= String.length s)%nat.
Proof.
  revert tok rest. induction s as [|c r IH]; simpl; intros tok rest H.
  - inversion H; subst; simpl; lia.
  - destruct (is_delim d c).
    + inversion H; subst; simpl; lia.
    + destruct (split_token d r) as [t0 r0] eqn:E. inversion H; subst.
      specialize (IH _ _ eq_refl). simpl. lia.
Qed.

Lemma split_token_nonempty (d : string) (c : ascii) (r tok rest : string) :
  is_delim d c = false ->
  split_token d (String c r) = (tok, rest) ->
  exists t, tok = String c t.
Proof.
  simpl. intros -> H. destruct (split_token d r) as [t0 r0].
  inversion H; subst. eauto.
Qed.

Lemma skip_delim_head (d s : string) (c : ascii) (r : string) :
  skip_delim d s = String c r -> is_delim d c = false.
Proof.
  induction s as [|c0 r0 IH]; simpl; [discriminate|].
  destruct (is_delim d c0) eqn:E; [exact IH|].
  intros H; inversion H; subst; exact E.
Qed.

(** Every token takes at least one character off the string. *)
Lemma strtok_r_shrinks (d s tok rest : string) :
  strtok_r None d s = (Some tok, rest) ->
  (String.length rest < String.length s)%nat.
Proof.
  unfold strtok_r. pose proof (skip_delim_length d s) as Hl.
  destruct (skip_delim d s) as [|c r] eqn:E; [discriminate|].
  destruct (split_token d (String c r)) as [t0 r0] eqn:Es.
  intros H; inversion H; subst.
  pose proof (split_token_length _ _ _ _ Es) as Hs.
  destruct (split_token_nonempty _ _ _ _ _ (skip_delim_head _ _ _ _ E) Es)
    as [t ->].
  simpl in *. lia.
Qed.

Lemma strtok_r_first (d s sp : string) :
  strtok_r (Some s) d sp = strtok_r None d s.
Proof. reflexivity. Qed.

Lemma tokens_from_enough (d : string) (f1 f2 : nat) (s : string) :
  (String.length s < f1)%nat -> (String.length s < f2)%nat ->
  tokens_from f1 d s = tokens_from f2 d s.
Proof.
  revert f2 s. induction f1 as [|f1 IH]; intros f2 s H1 H2; [lia|].
  destruct f2 as [|f2]; [lia|]. simpl.
  destruct (strtok_r None d s) as [[t|] r] eqn:E; [|reflexivity].
  apply strtok_r_shrinks in E. f_equal. apply IH; lia.
Qed.

(** The tokens of a string, one strtok_r call at a time. *)
Lemma tokens_unfold (d s : string) :
  tokens d s = match strtok_r None d s with
               | (Some t, r) => t :: tokens d r
               | (None, _) => []
               end.
Proof.
  unfold tokens at 1. simpl.
  destruct (strtok_r None d s) as [[t|] r] eqn:E; [|reflexivity].
  apply strtok_r_shrinks in E. f_equal. apply tokens_from_enough; lia.
Qed.

Lemma digits_head (base : Z) (c : ascii) (r : string) (acc : Z) :
  is_digit_in base c = true -> exists v k, digits base (String c r) acc = (v, S k).
Proof.
  unfold is_digit_in. simpl. destruct (digit_value c) as [d|]; [|discriminate].
  intros ->. destruct (digits base r (acc * base + d)) as [v k]. eauto.
Qed.

Lemma digits_none (base : Z) (s : string) (acc : Z) :
  match s with
  | String c _ => is_digit_in base c = false
  | EmptyString => True
  end ->
  digits base s acc = (acc, O).
Proof.
  destruct s as [|c r]; simpl; [reflexivity|].
  unfold is_digit_in. destruct (digit_value c) as [d|]; [|reflexivity].
  now intros ->.
Qed.

Lemma decimal_digit_in_10 (c : ascii) :
  is_digit_in 10 c = is_decimal_digit c.
Proof.
  unfold is_digit_in, is_decimal_digit, digit_value.
  destruct (48 <=? code c) eqn:E1, (code c <=? 57) eqn:E2; simpl;
    repeat match goal with
           | |- context [if ?b then _ else _] => destruct b eqn:?; simpl
           end;
    lia.
Qed.

Lemma strtol_clamp_endptr (r : Z) (e : nat) :
  sl_endptr (strtol_clamp r e) = e.
Proof.
  unfold strtol_clamp. destruct (_ >? _); [reflexivity|]. now destruct (_ <? _).
Qed.

(** [strtol] with base 0 moves endptr exactly when, after white space and
    an optional sign, the text starts with a decimal digit. *)
Lemma valid_index_starts_numeric (seg : string) :
  valid_index seg = starts_numeric seg.
Proof.
  unfold valid_index, starts_numeric, strtol.
  destruct (skip_space seg) as [ws s1]. simpl snd.
  destruct (skip_sign s1) as [[neg sg] s2]. simpl snd.
  unfold strtol_base. simpl orb. simpl andb. change (0 =? 0) with true.
  cbv beta iota.
  destruct s2 as [|c r].
  - reflexivity.
  - destruct (hex_prefix (String c r)) eqn:Hx.
    + destruct r as [|x [|d t]]; simpl in Hx; try discriminate.
      apply andb_prop in Hx as [Hx Hd]. apply andb_prop in Hx as [Hz _].
      apply Ascii.eqb_eq in Hz. subst c. cbn -[digits is_decimal_digit strtol_clamp Nat.add].
      destruct (digits_head 16 d t 0 Hd) as (v & k & ->).
      rewrite strtol_clamp_endptr. rewrite Nat.add_succ_r. reflexivity.
    + unfold leading_zero. destruct (Ascii.eqb_spec c "0") as [->|Hc].
      * cbn -[digits is_decimal_digit strtol_clamp Nat.add].
        destruct (digits_head 8 "0" r 0 eq_refl) as (v & k & ->).
        rewrite strtol_clamp_endptr. rewrite Nat.add_succ_r. reflexivity.
      * cbn -[digits is_decimal_digit strtol_clamp Nat.add].
        rewrite <- decimal_digit_in_10.
        destruct (is_digit_in 10 c) eqn:Hd.
        -- destruct (digits_head 10 c r 0 Hd) as (v & k & ->).
           rewrite strtol_clamp_endptr. rewrite Nat.add_succ_r. reflexivity.
        -- rewrite (digits_none 10 (String c r) 0 Hd). reflexivity.
Qed.

(** ** The walk of [ctl_query] *)

Section Walk.

Context {P A : Type}.

Implicit Types (n : ctl_node P A) (ix : indexes) (m : cstate).

Lemma ctl_query_loop_NULL (fuel : nat) (sp : string)
    (nodes : option (list (ctl_node P A))) (n : option (ctl_node P A)) ix m :
  ctl_query_loop fuel None sp nodes n ix m = LoopDone nodes n ix m.
Proof. destruct fuel; reflexivity. Qed.

(** With fuel beyond the length of what is left of the path, the while loop
    is the walk over the tokens. *)
Lemma ctl_query_loop_walk (fuel : nat) (tok sp : string)
    (nodes : option (list (ctl_node P A))) (n : option (ctl_node P A)) ix m :
  (String.length sp < fuel)%nat ->
  ctl_query_loop fuel (Some tok) sp nodes n ix m
  = ctl_query_walk (tok :: tokens CTL_QUERY_NODE_SEPARATOR sp) nodes n ix m.
Proof.
  revert tok sp nodes n ix m.
  induction fuel as [|fuel IH]; intros tok sp nodes n ix m Hlen; [lia|].
  simpl. destruct (ctl_query_step nodes tok ix m) as [nodes' n' ix' m'| |];
    try reflexivity.
  rewrite (tokens_unfold _ sp).
  destruct (strtok_r None CTL_QUERY_NODE_SEPARATOR sp) as [[t|] r] eqn:E.
  - apply strtok_r_shrinks in E. apply IH. lia.
  - apply ctl_query_loop_NULL.
Qed.

Lemma ctl_query_parse_walk (c : ctl P A) (path : string) m :
  ctl_query_parse c path m
  = ctl_query_walk (segments path) (Some (root c)) None [] m.
Proof.
  unfold ctl_query_parse, segments. rewrite strtok_r_first, tokens_unfold.
  destruct (strtok_r None CTL_QUERY_NODE_SEPARATOR path) as [[t|] r] eqn:E.
  - apply strtok_r_shrinks in E. apply ctl_query_loop_walk. lia.
  - reflexivity.
Qed.

(** The loop of [ctl_query] ends: the fuel it is given is never used up. *)
Lemma ctl_query_walk_fuel (segs : list string)
    (nodes : option (list (ctl_node P A))) (n : option (ctl_node P A)) ix m :
  ctl_query_walk segs nodes n ix m <> LoopFuel.
Proof.
  revert nodes n ix m. induction segs as [|tok segs IH]; intros; simpl.
  - discriminate.
  - destruct (ctl_query_step nodes tok ix m); try discriminate. apply IH.
Qed.

(** *** What is allocated during the walk *)

Lemma live_set_errno (e : Z) m : live (set_errno e m) = live m.
Proof. reflexivity. Qed.

Lemma Malloc_live m b m' :
  Malloc m = (Some b, m') -> live m' = b :: live m.
Proof.
  unfold Malloc. destruct (oom m) as [|[] later]; intros H; inversion H;
    reflexivity.
Qed.

Lemma Malloc_fail_live m m' :
  Malloc m = (None, m') -> live m' = live m.
Proof.
  unfold Malloc. destruct (oom m) as [|[] later]; intros H; inversion H;
    reflexivity.
Qed.

Lemma remove_block_head (b : nat) (l : list nat) :
  remove_block b (b :: l) = l.
Proof. simpl. now rewrite Nat.eqb_refl. Qed.

Lemma map_fst_set_head_name (nm : option string) ix :
  map fst (set_head_name nm ix) = map fst ix.
Proof. destruct ix as [|[b e] r]; reflexivity. Qed.

Lemma ctl_query_index_live (tok : string) ix m (rest : list nat) :
  live m = (map fst ix ++ rest)%list ->
  match ctl_query_index tok ix m with
  | inl m' => live m' = (map fst ix ++ rest)%list
  | inr (_, ix', m') => live m' = (map fst ix' ++ rest)%list
  end.
Proof.
  intros Hl. unfold ctl_query_index.
  set (m1 := if sl_erange (strtol tok 0) then set_errno ERANGE m else m).
  assert (H1 : live m1 = live m) by (subst m1; now destruct (sl_erange _)).
  destruct (negb _); [|congruence].
  destruct (Malloc m1) as [[b|] m'] eqn:E.
  - apply Malloc_live in E. simpl. congruence.
  - apply Malloc_fail_live in E. congruence.
Qed.

Lemma ctl_query_step_live (nodes : option (list (ctl_node P A)))
    (tok : string) ix m (rest : list nat) :
  live m = (map fst ix ++ rest)%list ->
  match ctl_query_step nodes tok ix m with
  | StepNext _ _ ix' m' | StepError ix' m' =>
      live m' = (map fst ix' ++ rest)%list
  | StepFault _ => True
  end.
Proof.
  intros Hl. unfold ctl_query_step.
  pose proof (ctl_query_index_live tok ix m rest Hl) as Hi.
  destruct (ctl_query_index tok ix m) as [m'|[[idx ix'] m']]; [exact Hi|].
  destruct nodes as [arr|]; [|exact I].
  destruct (ctl_scan idx tok arr) as [n|]; [|exact I].
  destruct (name n); [|exact Hi].
  destruct idx; [rewrite map_fst_set_head_name|]; exact Hi.
Qed.

(** The live blocks are those of the index list on top of what was live
    when the walk began. *)
Lemma ctl_query_walk_live (segs : list string)
    (nodes : option (list (ctl_node P A))) (n : option (ctl_node P A)) ix m
    (rest : list nat) :
  live m = (map fst ix ++ rest)%list ->
  match ctl_query_walk segs nodes n ix m with
  | LoopDone _ _ ix' m' | LoopError ix' m' =>
      live m' = (map fst ix' ++ rest)%list
  | _ => True
  end.
Proof.
  revert nodes n ix m.
  induction segs as [|tok segs IH]; intros nodes n ix m Hl; simpl.
  - exact Hl.
  - pose proof (ctl_query_step_live nodes tok ix m rest Hl) as Hs.
    destruct (ctl_query_step nodes tok ix m) as [nodes' n' ix' m'| |];
      [apply IH, Hs | exact Hs | exact I].
Qed.

Lemma free_indexes_live ix m (rest : list nat) :
  live m = (map fst ix ++ rest)%list ->
  live (free_indexes ix m) = rest.
Proof.
  revert m. induction ix as [|[b e] r IH]; intros m Hl; simpl.
  - exact Hl.
  - apply IH. simpl. rewrite Hl. simpl. now rewrite Nat.eqb_refl.
Qed.

(** The cleanup of lines 182-188 brings the allocator back to where it was
    before the copy of the name was made. *)
Lemma ctl_query_cleanup_live ix (b : nat) m (rest : list nat) :
  live m = (map fst ix ++ b :: rest)%list ->
  live (ctl_query_cleanup ix b m) = rest.
Proof.
  intros Hl. unfold ctl_query_cleanup, Free. simpl.
  rewrite (free_indexes_live ix m (b :: rest) Hl). apply remove_block_head.
Qed.

Lemma errno_free_indexes ix m : errno (free_indexes ix m) = errno m.
Proof.
  revert m. induction ix as [|[b e] r IH]; intros m; simpl; [reflexivity|].
  now rewrite IH.
Qed.

Lemma errno_cleanup ix (b : nat) m :
  errno (ctl_query_cleanup ix b m) = errno m.
Proof. unfold ctl_query_cleanup. simpl. apply errno_free_indexes. Qed.

Lemma Malloc_ok (k : nat) m :
  alloc_ok (S k) m = true ->
  exists m',
    Malloc m = (Some (brk m), m')
    /\ alloc_ok k m' = true
    /\ live m' = brk m :: live m
    /\ errno m' = errno m.
Proof.
  unfold alloc_ok, Malloc. destruct (oom m) as [|[] later]; simpl.
  - intros _. eexists. split; [reflexivity|]. simpl.
    rewrite firstn_nil. auto.
  - discriminate.
  - intros H. eexists. split; [reflexivity|]. simpl. auto.
Qed.

Lemma alloc_ok_set_errno (k : nat) (e : Z) m :
  alloc_ok k (set_errno e m) = alloc_ok k m.
Proof. reflexivity. Qed.

(** A segment that does not start with a number leaves the index list and
    the allocator alone. *)
Lemma ctl_query_index_name (seg : string) ix m :
  valid_index seg = false -> ctl_query_index seg ix m = inr (false, ix, m).
Proof.
  unfold valid_index, ctl_query_index. intros Hv.
  assert (He : sl_erange (strtol seg 0) = false).
  { apply negb_false_iff, Nat.eqb_eq in Hv. revert Hv. unfold strtol.
    destruct (skip_space seg) as [ws s1].
    destruct (skip_sign s1) as [[neg sg] s2].
    destruct (strtol_base 0 s2) as [b pre].
    destruct (digits b _ 0) as [v [|k]]; [reflexivity|].
    rewrite strtol_clamp_endptr. lia. }
  now rewrite Hv, He.
Qed.

(** A segment that starts with a number in the range of long gets an
    entry at the head of the index list. *)
Lemma ctl_query_index_number (k : nat) (seg : string) ix m :
  valid_index seg = true -> sl_erange (strtol seg 0) = false ->
  alloc_ok (S k) m = true ->
  exists m',
    ctl_query_index seg ix m
    = inr (true,
           (brk m, {| idx_name := None;
                      idx_value := sl_value (strtol seg 0) |}) :: ix, m')
    /\ alloc_ok k m' = true
    /\ live m' = brk m :: live m
    /\ errno m' = errno m.
Proof.
  unfold valid_index, ctl_query_index. intros -> -> Ha.
  destruct (Malloc_ok k m Ha) as (m' & -> & H). now exists m'.
Qed.

End Walk.

(** ** Properties of [ctl_query] *)

Section Query.

Context {P A : Type}.
Variable debug : bool.

Implicit Types (c : ctl P A) (n : ctl_node P A) (ix : indexes) (m : cstate)
  (pop : P) (qtype : ctl_query_type) (read_arg write_arg : option A).

Lemma ctl_query_dispatch_fuel n pop qtype read_arg write_arg ix :
  ctl_query_dispatch n pop qtype read_arg write_arg ix <> OutOfFuel.
Proof.
  unfold ctl_query_dispatch.
  destruct read_arg as [ra|].
  - destruct (read_cb n) as [rcb|]; [|discriminate].
    destruct (rcb pop qtype ra (map snd ix)) as [r pop'].
    destruct write_arg as [wa|]; [|discriminate].
    destruct (r =? 0); [|discriminate].
    destruct (write_cb n) as [wcb|]; [|discriminate].
    now destruct (wcb pop' qtype wa (map snd ix)).
  - destruct write_arg as [wa|]; [|discriminate]. simpl.
    destruct (write_cb n) as [wcb|]; [|discriminate].
    now destruct (wcb pop qtype wa (map snd ix)).
Qed.

(** [ctl_query] ends on every input: it returns or it faults. *)
Lemma ctl_query_fuel c pop qtype path read_arg write_arg m :
  ctl_query debug c pop qtype path read_arg write_arg m <> OutOfFuel.
Proof.
  unfold ctl_query. destruct (Strdup path m) as [[b|] m1]; [|discriminate].
  rewrite ctl_query_parse_walk.
  pose proof (ctl_query_walk_fuel (segments path) (Some (root c)) None [] m1)
    as Hf.
  destruct (ctl_query_walk _ _ _ _ _) as [nodes [n|] ix m2|ix m2|f|];
    try discriminate; [|contradiction].
  destruct (ctl_query_invalid n read_arg write_arg); [discriminate|].
  destruct (debug && _); [discriminate|].
  pose proof (ctl_query_dispatch_fuel n pop qtype read_arg write_arg ix) as Hd.
  destruct (ctl_query_dispatch _ _ _ _ _ _) as [[[r pop'] cs]|f|];
    try discriminate. contradiction.
Qed.

(** When the copy of the name cannot be made, [ctl_query] returns at
    once. *)
Lemma ctl_query_mem_strdup c pop qtype path read_arg write_arg m m1
    (res : query_result P A) :
  Strdup path m = (None, m1) ->
  ctl_query debug c pop qtype path read_arg write_arg m = Returned res ->
  mem res = m1.
Proof.
  unfold ctl_query. intros ->. intros H; inversion H; reflexivity.
Qed.

(** When the copy is made, [ctl_query] returns through the cleanup of
    lines 182-188, which runs on an allocator whose live blocks are the
    entries of the index list, the copy, and the blocks of before the
    call. *)
Lemma ctl_query_mem_cleanup c pop qtype path read_arg write_arg m
    (parse_str : nat) m1 (res : query_result P A) :
  Strdup path m = (Some parse_str, m1) ->
  ctl_query debug c pop qtype path read_arg write_arg m = Returned res ->
  exists ix m2,
    live m2 = (map fst ix ++ parse_str :: live m)%list
    /\ mem res = ctl_query_cleanup ix parse_str m2.
Proof.
  unfold ctl_query. intros Ea. rewrite Ea, ctl_query_parse_walk.
  apply Malloc_live in Ea.
  pose proof (ctl_query_walk_live (segments path) (Some (root c)) None []
                m1 (parse_str :: live m) Ea) as Hw.
  destruct (ctl_query_walk _ _ _ _ _) as [nodes n ix m2|ix m2|f|];
    try discriminate.
  - destruct n as [n|].
    + destruct (ctl_query_invalid n read_arg write_arg).
      * intros H; inversion H; subst; simpl.
        now exists ix, (set_errno EINVAL m2).
      * destruct (debug && _); [discriminate|].
        destruct (ctl_query_dispatch _ _ _ _ _ _) as [[[r pop'] cs]|f|];
          try discriminate.
        intros H; inversion H; subst; simpl. now exists ix, m2.
    + intros H; inversion H; subst; simpl.
      now exists ix, (set_errno EINVAL m2).
  - intros H; inversion H; subst; simpl. now exists ix, m2.
Qed.

(** C10. On every path by which [ctl_query] returns (success, a failed
    Strdup or Malloc, an unmatched segment, a discarded call, a failing
    callback), the blocks it allocated, the copy of the name and the entries
    of the index list, have been freed: the live blocks are those of before
    the call. *)
Theorem ctl_query_releases_allocations c pop qtype path read_arg write_arg m
    (res : query_result P A) :
  ctl_query debug c pop qtype path read_arg write_arg m = Returned res ->
  live (mem res) = live m.
Proof.
  intros Hq. destruct (Strdup path m) as [[parse_str|] m1] eqn:Ea.
  - (* error_invalid_arguments, reached by a goto or from line 179 *)
    destruct (ctl_query_mem_cleanup _ _ _ _ _ _ _ _ _ _ Ea Hq)
      as (ix & m2 & Hlive & ->).
    exact (ctl_query_cleanup_live ix parse_str m2 (live m) Hlive).
  - (* error_strdup_name: nothing was allocated *)
    rewrite (ctl_query_mem_strdup _ _ _ _ _ _ _ _ _ Ea Hq).
    exact (Malloc_fail_live _ _ Ea).
Qed.

(** *** The scan of an array *)

Lemma node_matches_scan (idx : bool) (seg : string) n (nm : string) :
  name n = Some nm ->
  node_matches idx seg n
  = (idx && ctl_node_type_eqb (type n) CTL_NODE_INDEXED)
    || (strcmp nm seg =? 0).
Proof. intros H. unfold node_matches. now rewrite H, strcmp_0. Qed.

Lemma ctl_scan_app (idx : bool) (seg : string)
    (pre rest : list (ctl_node P A)) :
  Forall (passed_over idx seg) pre ->
  ctl_scan idx seg (pre ++ rest) = ctl_scan idx seg rest.
Proof.
  induction 1 as [|y pre [Hn Hm] _ IH]; [reflexivity|]. simpl.
  destruct (name y) as [nm|] eqn:En; [|contradiction].
  rewrite (node_matches_scan idx seg y nm En) in Hm.
  apply orb_false_elim in Hm as [-> ->]. exact IH.
Qed.

Lemma ctl_scan_found (idx : bool) (seg : string) n
    (post : list (ctl_node P A)) :
  name n <> None -> node_matches idx seg n = true ->
  ctl_scan idx seg (n :: post) = Some n.
Proof.
  intros Hn Hm. simpl. destruct (name n) as [nm|] eqn:En; [|contradiction].
  rewrite (node_matches_scan idx seg n nm En) in Hm.
  destruct (idx && _); [reflexivity|]. simpl in Hm. now rewrite Hm.
Qed.

Lemma ctl_scan_end (idx : bool) (seg : string) n
    (post : list (ctl_node P A)) :
  name n = None -> ctl_scan idx seg (n :: post) = Some n.
Proof. intros Hn. simpl. now rewrite Hn. Qed.

Lemma ctl_query_index_flag (seg : string) ix m (idx : bool) ix' m' :
  ctl_query_index seg ix m = inr (idx, ix', m') -> idx = valid_index seg.
Proof.
  unfold ctl_query_index, valid_index.
  destruct (negb _).
  - destruct (Malloc _) as [[b|] m1]; [|discriminate].
    now intros H; inversion H.
  - now intros H; inversion H.
Qed.

(** The body of the loop when the scan stops on a named node. *)
Lemma ctl_query_step_found (seg : string) ix m (idx : bool) ix1 m1
    (pre post : list (ctl_node P A)) n :
  ctl_query_index seg ix m = inr (idx, ix1, m1) ->
  Forall (passed_over idx seg) pre ->
  name n <> None -> node_matches idx seg n = true ->
  ctl_query_step (Some (pre ++ n :: post)%list) seg ix m
  = StepNext (children n) n
      (if idx then set_head_name (name n) ix1 else ix1) m1.
Proof.
  intros Hi Hpre Hn Hm. unfold ctl_query_step. rewrite Hi.
  rewrite (ctl_scan_app _ _ _ _ Hpre), (ctl_scan_found _ _ _ _ Hn Hm).
  destruct (name n); [reflexivity|contradiction].
Qed.

(** The body of the loop when the scan stops on the entry that ends the
    array. *)
Lemma ctl_query_step_unmatched (seg : string) ix m (idx : bool) ix1 m1
    (pre post : list (ctl_node P A)) n :
  ctl_query_index seg ix m = inr (idx, ix1, m1) ->
  Forall (passed_over idx seg) pre ->
  name n = None ->
  ctl_query_step (Some (pre ++ n :: post)%list) seg ix m
  = StepError ix1 (set_errno EINVAL m1).
Proof.
  intros Hi Hpre Hn. unfold ctl_query_step. rewrite Hi.
  rewrite (ctl_scan_app _ _ _ _ Hpre), (ctl_scan_end _ _ _ _ Hn).
  now rewrite Hn.
Qed.

Lemma ctl_query_walk_app (s1 s2 : list string)
    (nodes : option (list (ctl_node P A))) (n : option (ctl_node P A)) ix m :
  ctl_query_walk (s1 ++ s2) nodes n ix m
  = match ctl_query_walk s1 nodes n ix m with
    | LoopDone nodes' n' ix' m' => ctl_query_walk s2 nodes' n' ix' m'
    | other => other
    end.
Proof.
  revert nodes n ix m. induction s1 as [|tok s1 IH]; intros; simpl.
  - reflexivity.
  - destruct (ctl_query_step nodes tok ix m); try reflexivity. apply IH.
Qed.

Lemma ctl_node_type_eqb_eq (a b : ctl_node_type) :
  ctl_node_type_eqb a b = true <-> a = b.
Proof. destruct a, b; simpl; split; congruence. Qed.

Lemma node_matches_name (seg : string) n :
  node_matches false seg n = true <-> name n = Some seg.
Proof.
  unfold node_matches. simpl. destruct (name n) as [nm|].
  - rewrite String.eqb_eq. split; congruence.
  - split; discriminate.
Qed.

Lemma node_matches_index (seg : string) n :
  node_matches true seg n = true
  <-> type n = CTL_NODE_INDEXED \/ name n = Some seg.
Proof.
  unfold node_matches. rewrite orb_true_iff. simpl.
  rewrite ctl_node_type_eqb_eq. destruct (name n) as [nm|].
  - rewrite String.eqb_eq. split; intros [H|H]; auto; right; congruence.
  - split; intros [H|H]; auto; discriminate.
Qed.

(** C7, as amended. In the array [pre ++ x :: post] that the walk has
    reached, where the scan passes over the nodes of [pre] (they are named
    and the segment matches none of them): the scan stops on [x] when [x] is
    named and the segment matches it, that is, for a segment with a pending
    index, when [x] is Indexed or the name of [x] is the text of the
    segment, and for a segment without one, when the name of [x] is the text
    of the segment; and when [x] is the entry that ends the array,
    [ctl_query] returns -1 with errno EINVAL and invokes no callback. *)
Theorem ctl_query_segment_match (idx : bool) (seg : string)
    (pre post : list (ctl_node P A)) (x : ctl_node P A) :
  Forall (passed_over idx seg) pre ->
  (node_matches true seg x = true
   <-> type x = CTL_NODE_INDEXED \/ name x = Some seg)
  /\ (node_matches false seg x = true <-> name x = Some seg)
  /\ (name x <> None -> node_matches idx seg x = true ->
      ctl_scan idx seg (pre ++ x :: post) = Some x)
  /\ (forall c pop qtype path read_arg write_arg m parse_str m1 done todo
        (cur : option (ctl_node P A)) ix m2 ix3 m3,
       name x = None ->
       Strdup path m = (Some parse_str, m1) ->
       segments path = (done ++ seg :: todo)%list ->
       ctl_query_walk done (Some (root c)) None [] m1
       = LoopDone (Some (pre ++ x :: post)%list) cur ix m2 ->
       ctl_query_index seg ix m2 = inr (idx, ix3, m3) ->
       exists res,
         ctl_query debug c pop qtype path read_arg write_arg m = Returned res
         /\ ret res = -1
         /\ errno (mem res) = EINVAL
         /\ calls res = []
         /\ pool res = pop).
Proof.
  intros Hpre. split; [apply node_matches_index|].
  split; [apply node_matches_name|]. split.
  - intros Hn Hm. rewrite (ctl_scan_app _ _ _ _ Hpre).
    now apply ctl_scan_found.
  - intros c pop qtype path read_arg write_arg m b m1 done todo n ix m2 ix3
      m3 Hn Hs Hsegs Hw Hi.
    unfold ctl_query. rewrite Hs, ctl_query_parse_walk, Hsegs.
    rewrite ctl_query_walk_app, Hw. simpl.
    rewrite (ctl_query_step_unmatched _ _ _ _ _ _ _ _ _ Hi Hpre Hn).
    eexists. split; [reflexivity|]. simpl. repeat split.
    now rewrite errno_free_indexes.
Qed.

(** C6, as amended. A pending index is recorded exactly for a segment that
    starts with a number (after white space and an optional sign comes a
    decimal digit), whether or not the number takes the whole segment; the
    entry holds the value that strtol read. A segment that is a number as a
    whole is such a segment. *)
Theorem ctl_query_index_pending (seg : string) ix m :
  valid_index seg = starts_numeric seg
  /\ (fully_numeric seg = true -> starts_numeric seg = true)
  /\ match ctl_query_index seg ix m with
     | inr (idx, ix', _) =>
         idx = starts_numeric seg
         /\ ix' = ((if idx
                    then [ (brk m, {| idx_name := None;
                                      idx_value := sl_value (strtol seg 0) |}) ]
                    else []) ++ ix)%list
     | inl _ => starts_numeric seg = true /\ alloc_ok 1 m = false
     end.
Proof.
  split; [apply valid_index_starts_numeric|]. split.
  - rewrite <- valid_index_starts_numeric. unfold fully_numeric, valid_index.
    intros H. apply andb_prop in H as [He Hl].
    apply Nat.eqb_eq in He. now rewrite He.
  - rewrite <- valid_index_starts_numeric.
    unfold ctl_query_index, valid_index.
    set (m1 := if sl_erange (strtol seg 0) then set_errno ERANGE m else m).
    assert (Hb : brk m1 = brk m) by (subst m1; now destruct (sl_erange _)).
    assert (Ho : oom m1 = oom m) by (subst m1; now destruct (sl_erange _)).
    destruct (negb _); [|now split].
    unfold Malloc, alloc_ok. rewrite Ho, Hb.
    destruct (oom m) as [|[] later]; simpl; auto.
Qed.

(** C2. In a tree whose root array holds a node named heap, whose
    children hold an Indexed node arena, whose children hold a Leaf size
    with the read callback [rcb] (each being the first node of its array
    that its segment matches), and when the two allocations succeed: the
    query heap.3.size with a read argument and no write argument invokes
    [rcb], once, with the index list [{3, arena}], and returns what [rcb]
    returns. *)
Theorem ctl_query_heap_arena_size c pop qtype (ra : A) m
    (heap arena size : ctl_node P A) (rcb : node_callback P A)
    (pre0 post0 pre1 post1 pre2 post2 : list (ctl_node P A)) :
  root c = (pre0 ++ heap :: post0)%list ->
  Forall (passed_over false "heap") pre0 ->
  name heap = Some "heap" ->
  children heap = Some (pre1 ++ arena :: post1)%list ->
  Forall (passed_over true "3") pre1 ->
  name arena = Some "arena" ->
  type arena = CTL_NODE_INDEXED ->
  children arena = Some (pre2 ++ size :: post2)%list ->
  Forall (passed_over false "size") pre2 ->
  name size = Some "size" ->
  type size = CTL_NODE_LEAF ->
  read_cb size = Some rcb ->
  alloc_ok 2 m = true ->
  let ixs := [ {| idx_name := Some "arena"; idx_value := 3 |} ] in
  exists res,
    ctl_query debug c pop qtype "heap.3.size" (Some ra) None m = Returned res
    /\ calls res
       = [ {| cb_kind := ReadCb; cb_node := Some "size"; cb_type := qtype;
              cb_arg := ra; cb_indexes := ixs;
              cb_ret := fst (rcb pop qtype ra ixs) |} ]
    /\ ret res = fst (rcb pop qtype ra ixs)
    /\ pool res = snd (rcb pop qtype ra ixs)
    /\ live (mem res) = live m.
Proof.
  intros Hroot Hpre0 Hheap Hkids1 Hpre1 Harena Hidx Hkids2 Hpre2 Hsize Hleaf
    Hcb Ha ixs.
  assert (Hq : exists res,
             ctl_query debug c pop qtype "heap.3.size" (Some ra) None m
             = Returned res
             /\ calls res
                = [ {| cb_kind := ReadCb; cb_node := Some "size";
                       cb_type := qtype; cb_arg := ra; cb_indexes := ixs;
                       cb_ret := fst (rcb pop qtype ra ixs) |} ]
             /\ ret res = fst (rcb pop qtype ra ixs)
             /\ pool res = snd (rcb pop qtype ra ixs)).
  { unfold ctl_query, Strdup.
    destruct (Malloc_ok 1 m Ha) as (m1 & -> & Ha1 & _).
    rewrite ctl_query_parse_walk.
    replace (segments "heap.3.size") with ["heap"; "3"; "size"]
      by reflexivity.
    cbn [ctl_query_walk]. rewrite Hroot.
    rewrite (ctl_query_step_found "heap" [] m1 false [] m1).
    2:{ now apply ctl_query_index_name. }
    2:{ exact Hpre0. }
    2:{ congruence. }
    2:{ unfold node_matches. rewrite Hheap. reflexivity. }
    rewrite Hkids1.
    destruct (ctl_query_index_number 0 "3" [] m1 eq_refl eq_refl Ha1)
      as (m2 & Hi & _).
    rewrite (ctl_query_step_found "3" [] m1 true _ m2 _ _ _ Hi Hpre1).
    2:{ congruence. }
    2:{ unfold node_matches. rewrite Hidx. reflexivity. }
    rewrite Hkids2. cbn [set_head_name idx_value].
    erewrite (ctl_query_step_found "size");
      [|now apply ctl_query_index_name|exact Hpre2|congruence
       |unfold node_matches; rewrite Hsize; reflexivity].
    unfold ctl_query_invalid, ctl_query_dispatch.
    rewrite Hcb, Hleaf, Harena, Hsize. cbn [non_null negb andb orb map snd].
    rewrite andb_false_r.
    change (sl_value (strtol "3" 0)) with 3. fold ixs.
    destruct (rcb pop qtype ra ixs) as [r pop']. simpl.
    eexists. split; [reflexivity|]. simpl. auto. }
  destruct Hq as (res & Hq & Hc & Hr & Hp). exists res.
  repeat split; try assumption.
  destruct (Malloc_ok 1 m Ha) as (m1 & Ea & _).
  destruct (ctl_query_mem_cleanup _ _ _ _ _ _ _ _ _ _ Ea Hq)
    as (ix & m2 & Hlive & ->).
  exact (ctl_query_cleanup_live ix (brk m) m2 (live m) Hlive).
Qed.

(** C9. A segment that follows a node without children, as a Leaf is:
    when the walk over the segments [done] has ended on the node [leaf],
    whose children pointer is NULL, and the index entry of the segment
    [seg], if it needs one, is allocated, the scan for [seg] reads through
    the NULL pointer. The call does not fail with EINVAL, it does not
    return. *)
Theorem ctl_query_segment_after_leaf c pop qtype path read_arg write_arg m
    (parse_str : nat) m1 (done todo : list string) (seg : string)
    (leaf : ctl_node P A) ix m2 (idx : bool) ix3 m3 :
  Strdup path m = (Some parse_str, m1) ->
  segments path = (done ++ seg :: todo)%list ->
  ctl_query_walk done (Some (root c)) None [] m1
  = LoopDone (children leaf) (Some leaf) ix m2 ->
  children leaf = None ->
  ctl_query_index seg ix m2 = inr (idx, ix3, m3) ->
  ctl_query debug c pop qtype path read_arg write_arg m
  = Fault NullDereference.
Proof.
  intros Hs Hsegs Hw Hnull Hi. unfold ctl_query.
  rewrite Hs, ctl_query_parse_walk, Hsegs, ctl_query_walk_app, Hw, Hnull.
  simpl. unfold ctl_query_step. rewrite Hi. reflexivity.
Qed.

(** *** Registration *)

(** C5, as amended. While [first_free] is an index of the root array,
    [ctl_register_module_node] stores at that index a node of the Named
    kind with the children it is given and with the copy of the name (a
    NULL name when the copy could not be made), leaves the other entries as
    they are, and adds one to [first_free]. *)
Theorem ctl_register_module_node_stores c (nm : string)
    (kids : option (list (ctl_node P A))) m :
  0 <= first_free c < CTL_MAX_ENTRIES ->
  length (root c) = Z.to_nat CTL_MAX_ENTRIES ->
  exists c' m' nnode,
    ctl_register_module_node c nm kids m = Returned (c', m')
    /\ first_free c' = first_free c + 1
    /\ root c' !! Z.to_nat (first_free c) = Some nnode
    /\ type nnode = CTL_NODE_NAMED
    /\ children nnode = kids
    /\ name nnode = (if alloc_ok 1 m then Some nm else None)
    /\ (forall j : nat,
          j <> Z.to_nat (first_free c) -> root c' !! j = root c !! j)
    /\ length (root c') = length (root c).
Proof.
  intros Hi Hlen. unfold ctl_register_module_node.
  assert (Hb : (first_free c <? 0) || (CTL_MAX_ENTRIES <=? first_free c)
               = false).
  { apply orb_false_intro; [apply Z.ltb_ge|apply Z.leb_gt]; lia. }
  rewrite Hb. simpl root.
  assert (Hlt : (Z.to_nat (first_free c) < length (root c))%nat).
  { rewrite Hlen. apply Z2Nat.inj_lt; lia. }
  destruct (lookup_lt_is_Some_2 _ _ Hlt) as [old Hold]. rewrite Hold.
  destruct (Strdup nm m) as [copy m'] eqn:Es.
  eexists _, m', _. split; [reflexivity|]. simpl.
  split; [reflexivity|]. split; [now apply list_lookup_insert_eq|].
  split; [reflexivity|]. split; [reflexivity|]. split.
  - revert Es. unfold Strdup, Malloc, alloc_ok.
    destruct (oom m) as [|[] later]; intros H; inversion H; reflexivity.
  - split.
    + intros j Hj. now apply list_lookup_insert_ne.
    + apply length_insert.
Qed.

(** *** The index list *)

Lemma ctl_scan_matches (idx : bool) (seg : string)
    (arr : list (ctl_node P A)) n :
  ctl_scan idx seg arr = Some n -> name n <> None ->
  node_matches idx seg n = true.
Proof.
  induction arr as [|x rest IH]; simpl; [discriminate|].
  destruct (name x) as [nm|] eqn:En.
  - unfold node_matches.
    destruct (idx && ctl_node_type_eqb (type x) CTL_NODE_INDEXED) eqn:Ei.
    + intros H _; inversion H; subst. now rewrite Ei.
    + rewrite strcmp_0. destruct (String.eqb nm seg) eqn:Es.
      * intros H _; inversion H; subst. rewrite En, Es. apply orb_true_r.
      * exact IH.
  - intros H Hn; inversion H; subst. contradiction.
Qed.

Lemma ctl_query_step_next (nodes nodes' : option (list (ctl_node P A)))
    (tok : string) ix m n' ix' m' :
  ctl_query_step nodes tok ix m = StepNext nodes' n' ix' m' ->
  exists arr,
    nodes = Some arr
    /\ ctl_scan (valid_index tok) tok arr = Some n'
    /\ name n' <> None
    /\ nodes' = children n'
    /\ map snd ix'
       = ((if valid_index tok
           then [ {| idx_name := name n';
                     idx_value := sl_value (strtol tok 0) |} ]
           else []) ++ map snd ix)%list.
Proof.
  unfold ctl_query_step, ctl_query_index, valid_index.
  destruct (negb (Nat.eqb (sl_endptr (strtol tok 0)) 0)).
  - destruct (Malloc _) as [[b|] m1]; [|discriminate].
    destruct nodes as [arr|]; [|discriminate].
    destruct (ctl_scan true tok arr) as [x|] eqn:Es; [|discriminate].
    destruct (name x) as [nm|] eqn:En; [|discriminate].
    intros H; inversion H; subst. exists arr. rewrite En.
    repeat split; try assumption. congruence.
  - destruct nodes as [arr|]; [|discriminate].
    destruct (ctl_scan false tok arr) as [x|] eqn:Es; [|discriminate].
    destruct (name x) as [nm|] eqn:En; [|discriminate].
    intros H; inversion H; subst. exists arr.
    repeat split; try assumption. congruence.
Qed.

(** When the walk comes to its end, the index list holds, last parsed
    first, the entries of the segments that carry an index. *)
Lemma ctl_query_walk_done (segs : list string)
    (nodes nodes' : option (list (ctl_node P A)))
    (n n' : option (ctl_node P A)) ix m ix' m' :
  ctl_query_walk segs nodes n ix m = LoopDone nodes' n' ix' m' ->
  exists ms,
    path_nodes nodes segs = Some ms
    /\ Forall2 (fun seg x => node_matches (valid_index seg) seg x = true)
         segs ms
    /\ map snd ix' = (rev (index_entries segs ms) ++ map snd ix)%list.
Proof.
  revert nodes n ix m. induction segs as [|tok segs IH];
    intros nodes n ix m; simpl.
  - intros H; inversion H; subst. exists []. repeat split. constructor.
  - destruct (ctl_query_step nodes tok ix m) as [nodes1 n1 ix1 m1| |] eqn:Es;
      try discriminate.
    intros Hw. apply ctl_query_step_next in Es
      as (arr & -> & Hscan & Hname & -> & Hix).
    destruct (IH _ _ _ _ Hw) as (ms & Hp & Hm & Hrest).
    exists (n1 :: ms). rewrite Hscan, Hp.
    destruct (name n1) as [nm|] eqn:En; [|contradiction]. split; [reflexivity|].
    split.
    + constructor; [|exact Hm].
      apply (ctl_scan_matches _ _ _ _ Hscan). congruence.
    + rewrite Hrest, Hix. simpl. destruct (valid_index tok); simpl.
      * now rewrite <- app_assoc.
      * reflexivity.
Qed.


Lemma ctl_query_dispatch_indexes n pop qtype read_arg write_arg ix
    (r : Z) (pop' : P) (cs : list (call A)) :
  ctl_query_dispatch n pop qtype read_arg write_arg ix
  = Returned (r, pop', cs) ->
  forall cl, In cl cs -> cb_indexes cl = map snd ix.
Proof.
  unfold ctl_query_dispatch.
  destruct read_arg as [ra|].
  - destruct (read_cb n) as [rcb|]; [|discriminate].
    destruct (rcb pop qtype ra (map snd ix)) as [r1 pop1].
    destruct write_arg as [wa|].
    + destruct (r1 =? 0).
      * destruct (write_cb n) as [wcb|]; [|discriminate].
        destruct (wcb pop1 qtype wa (map snd ix)) as [r2 pop2].
        intros H; inversion H; subst. simpl.
        intros cl [<-|[<-|[]]]; reflexivity.
      * intros H; inversion H; subst. intros cl [<-|[]]; reflexivity.
    + intros H; inversion H; subst. intros cl [<-|[]]; reflexivity.
  - destruct write_arg as [wa|].
    + simpl. destruct (write_cb n) as [wcb|]; [|discriminate].
      destruct (wcb pop qtype wa (map snd ix)) as [r2 pop2].
      intros H; inversion H; subst. intros cl [<-|[]]; reflexivity.
    + intros H; inversion H; subst. intros cl [].
Qed.

(** The index list that the callbacks of a query get is the one the walk
    over the segments of the path ended with. *)
Lemma ctl_query_calls_walk c pop qtype path read_arg write_arg m
    (res : query_result P A) (cl : call A) :
  ctl_query debug c pop qtype path read_arg write_arg m = Returned res ->
  In cl (calls res) ->
  exists m1 nodes (cur : option (ctl_node P A)) ix m2,
    ctl_query_walk (segments path) (Some (root c)) None [] m1
    = LoopDone nodes cur ix m2
    /\ cb_indexes cl = map snd ix.
Proof.
  unfold ctl_query. destruct (Strdup path m) as [[b|] m1].
  2:{ intros H; inversion H; subst. intros []. }
  rewrite ctl_query_parse_walk.
  destruct (ctl_query_walk _ _ _ _ _) as [nodes [n|] ix m2|ix m2|f|] eqn:Ew;
    try discriminate; try (intros H; inversion H; subst; intros []).
  destruct (ctl_query_invalid n read_arg write_arg);
    [intros H; inversion H; subst; intros []|].
  destruct (debug && _); [discriminate|].
  destruct (ctl_query_dispatch _ _ _ _ _ _) as [[[r pop'] cs]|f|] eqn:Ed;
    try discriminate.
  intros H Hin; inversion H; subst. simpl in Hin.
  exists m1, nodes, (Some n), ix, m2. split; [exact Ew|].
  exact (ctl_query_dispatch_indexes _ _ _ _ _ _ _ _ _ Ed cl Hin).
Qed.

(** *** The walk along the nodes that the segments match *)

Lemma alloc_ok_first (k : nat) m :
  alloc_ok 1 m = false -> alloc_ok (S k) m = false.
Proof.
  unfold alloc_ok. destruct (oom m) as [|[] later]; simpl; congruence.
Qed.

Lemma index_segments_cons (seg : string) (segs : list string) :
  index_segments (seg :: segs)
  = if valid_index seg then S (index_segments segs) else index_segments segs.
Proof. unfold index_segments. simpl. now destruct (valid_index seg). Qed.

(** Lines 132-141 for a segment: the flag is the test of line 135, the new
    entry is put at the head of the list, and the only way to the goto is
    a failed Malloc. *)
Lemma ctl_query_index_cases (seg : string) ix m :
  match ctl_query_index seg ix m with
  | inl _ => valid_index seg = true /\ alloc_ok 1 m = false
  | inr (idx, ix', m') =>
      idx = valid_index seg
      /\ ix' = ((if idx
                 then [ (brk m, {| idx_name := None;
                                   idx_value := sl_value (strtol seg 0) |}) ]
                 else []) ++ ix)%list
      /\ forall k : nat, alloc_ok k m' = alloc_ok (if idx then S k else k) m
  end.
Proof.
  unfold ctl_query_index, valid_index.
  set (m1 := if sl_erange (strtol seg 0) then set_errno ERANGE m else m).
  assert (Ho : oom m1 = oom m) by (subst m1; now destruct (sl_erange _)).
  assert (Hb : brk m1 = brk m) by (subst m1; now destruct (sl_erange _)).
  destruct (negb _).
  - unfold Malloc, alloc_ok. rewrite Ho, Hb.
    destruct (oom m) as [|[] later]; simpl.
    + split; [reflexivity|]. split; [reflexivity|]. intros k.
      now rewrite firstn_nil.
    + split; reflexivity.
    + split; [reflexivity|]. split; reflexivity.
  - split; [reflexivity|]. split; [reflexivity|]. intros k.
    unfold alloc_ok. now rewrite Ho.
Qed.

(** The body of the loop for a segment that has a first match in the
    array. *)
Lemma ctl_query_step_first_match (seg : string) (arr : list (ctl_node P A))
    (x : ctl_node P A) ix m :
  first_match (valid_index seg) seg arr x ->
  match ctl_query_step (Some arr) seg ix m with
  | StepNext nodes' n' ix' m' =>
      nodes' = children x /\ n' = x
      /\ map snd ix'
         = ((if valid_index seg
             then [ {| idx_name := name x;
                       idx_value := sl_value (strtol seg 0) |} ]
             else []) ++ map snd ix)%list
      /\ forall k : nat,
           alloc_ok k m' = alloc_ok (if valid_index seg then S k else k) m
  | StepError _ _ => valid_index seg = true /\ alloc_ok 1 m = false
  | StepFault _ => False
  end.
Proof.
  intros (pre & post & -> & Hpre & Hn & Hm).
  pose proof (ctl_query_index_cases seg ix m) as Hi.
  destruct (ctl_query_index seg ix m) as [m'|[[idx ix'] m']] eqn:Ei.
  - unfold ctl_query_step. rewrite Ei. exact Hi.
  - destruct Hi as (Hidx & Hix & Ha). subst idx.
    rewrite (ctl_query_step_found seg ix m _ _ m' pre post x Ei Hpre Hn Hm).
    split; [reflexivity|]. split; [reflexivity|]. split; [|exact Ha].
    rewrite Hix. now destruct (valid_index seg).
Qed.

(** The body of the loop for a segment that matches no node of the
    array. *)
Lemma ctl_query_step_no_match (seg : string) (arr : list (ctl_node P A))
    ix m :
  no_match (valid_index seg) seg arr ->
  match ctl_query_step (Some arr) seg ix m with
  | StepError _ m' =>
      errno m' = EINVAL \/ (valid_index seg = true /\ alloc_ok 1 m = false)
  | _ => False
  end.
Proof.
  intros (pre & e & post & -> & Hpre & He).
  pose proof (ctl_query_index_cases seg ix m) as Hi.
  destruct (ctl_query_index seg ix m) as [m'|[[idx ix'] m']] eqn:Ei.
  - unfold ctl_query_step. rewrite Ei. now right.
  - destruct Hi as (Hidx & _). subst idx.
    rewrite (ctl_query_step_unmatched seg ix m _ _ m' pre post e Ei Hpre He).
    now left.
Qed.


(** Along the nodes that the segments match, the walk ends on the last of
    them, with the entries of the segments that carry an index put on the
    list last parsed first; it leaves the loop early through a failed
    Malloc only. *)
Lemma ctl_query_walk_matches (segs : list string)
    (nodes : option (list (ctl_node P A))) (ms : list (ctl_node P A))
    (n0 : option (ctl_node P A)) ix m :
  path_matches nodes segs ms ->
  match ctl_query_walk segs nodes n0 ix m with
  | LoopDone _ n' ix' _ =>
      n' = match last ms with Some x => Some x | None => n0 end
      /\ map snd ix' = (rev (index_entries segs ms) ++ map snd ix)%list
  | LoopError _ _ => alloc_ok (index_segments segs) m = false
  | LoopFault _ => False
  | LoopFuel => False
  end.
Proof.
  intros Hp. revert n0 ix m.
  induction Hp as [nodes|arr seg segs x ms Hf Hp IH]; intros n0 ix m.
  - simpl. split; reflexivity.
  - cbn [ctl_query_walk].
    pose proof (ctl_query_step_first_match seg arr x ix m Hf) as Hs.
    destruct (ctl_query_step (Some arr) seg ix m)
      as [nodes1 n1 ix1 m1|ix1 m1|f].
    + destruct Hs as (-> & -> & Hix & Ha).
      specialize (IH (Some x) ix1 m1).
      destruct (ctl_query_walk segs (children x) (Some x) ix1 m1)
        as [nodes2 n2 ix2 m2|ix2 m2|f|].
      * destruct IH as [-> ->]. split.
        -- rewrite last_cons. now destruct (last ms).
        -- rewrite Hix. cbn [index_entries].
           destruct (valid_index seg); simpl; [|reflexivity].
           now rewrite <- app_assoc.
      * rewrite index_segments_cons, <- (Ha (index_segments segs)).
        exact IH.
      * exact IH.
      * exact IH.
    + rewrite index_segments_cons. destruct Hs as [-> Hs].
      now apply alloc_ok_first.
    + exact Hs.
Qed.

(** When the walk comes to an end, the loop is left at its end or at the
    goto of an unmatched segment, with errno EINVAL, unless a Malloc
    failed. *)
Lemma ctl_query_walk_ends (segs : list string)
    (nodes : option (list (ctl_node P A))) (n0 : option (ctl_node P A))
    ix m :
  walk_ends nodes segs ->
  match ctl_query_walk segs nodes n0 ix m with
  | LoopDone _ _ _ _ => True
  | LoopError _ m' =>
      errno m' = EINVAL \/ alloc_ok (index_segments segs) m = false
  | LoopFault _ => False
  | LoopFuel => False
  end.
Proof.
  intros Hw. revert n0 ix m.
  induction Hw as [nodes|arr seg segs x Hf Hw IH|arr seg segs Hno];
    intros n0 ix m.
  - exact I.
  - cbn [ctl_query_walk].
    pose proof (ctl_query_step_first_match seg arr x ix m Hf) as Hs.
    destruct (ctl_query_step (Some arr) seg ix m)
      as [nodes1 n1 ix1 m1|ix1 m1|f].
    + destruct Hs as (-> & -> & _ & Ha).
      specialize (IH (Some x) ix1 m1).
      destruct (ctl_query_walk segs (children x) (Some x) ix1 m1)
        as [nodes2 n2 ix2 m2|ix2 m2|f|]; try exact IH.
      destruct IH as [IH|IH]; [now left|right].
      now rewrite index_segments_cons, <- (Ha (index_segments segs)).
    + right. rewrite index_segments_cons. destruct Hs as [-> Hs].
      now apply alloc_ok_first.
    + exact Hs.
  - cbn [ctl_query_walk].
    pose proof (ctl_query_step_no_match seg arr ix m Hno) as Hs.
    destruct (ctl_query_step (Some arr) seg ix m)
      as [nodes1 n1 ix1 m1|ix1 m1|f]; try contradiction.
    destruct Hs as [Hs|[Hv Hs]]; [now left|right].
    rewrite index_segments_cons, Hv. now apply alloc_ok_first.
Qed.

Lemma path_matches_walk_ends (nodes : option (list (ctl_node P A)))
    (segs : list string) (ms : list (ctl_node P A)) :
  path_matches nodes segs ms -> walk_ends nodes segs.
Proof.
  induction 1 as [nodes|arr seg segs x ms Hf _ IH];
    [apply walk_ends_nil|now apply (walk_ends_match arr seg segs x)].
Qed.



(** A query without a read argument invokes write callbacks only. *)
Lemma ctl_query_write_only c pop qtype path write_arg m
    (res : query_result P A) (cl : call A) :
  ctl_query debug c pop qtype path None write_arg m = Returned res ->
  In cl (calls res) ->
  cb_kind cl = WriteCb /\ Some (cb_arg cl) = write_arg /\ cb_type cl = qtype.
Proof.
  unfold ctl_query. destruct (Strdup path m) as [[b|] m1].
  2:{ intros H; inversion H; subst. intros []. }
  destruct (ctl_query_parse c path m1) as [nodes [n|] ix m2|ix m2|f|];
    try discriminate; try (intros H; inversion H; subst; intros []).
  destruct (ctl_query_invalid n None write_arg);
    [intros H; inversion H; subst; intros []|].
  destruct (debug && _); [discriminate|].
  unfold ctl_query_dispatch. destruct write_arg as [wa|].
  - simpl. destruct (write_cb n) as [wcb|]; [|discriminate].
    destruct (wcb pop qtype wa (map snd ix)) as [r pop'].
    intros H; inversion H; subst. simpl. intros [<-|[]]. auto.
  - intros H; inversion H; subst. intros [].
Qed.

(** *** Dispatch *)

Lemma ctl_query_resolved c pop qtype path read_arg write_arg m n ix m' :
  resolves c path m n ix m' ->
  exists parse_str,
    ctl_query debug c pop qtype path read_arg write_arg m
    = if ctl_query_invalid n read_arg write_arg
      then Returned {| ret := -1; pool := pop;
                       mem := ctl_query_cleanup ix parse_str
                                (set_errno EINVAL m');
                       calls := [] |}
      else if debug && negb (ctl_node_type_eqb (type n) CTL_NODE_LEAF)
      then Fault AssertionFailure
      else match ctl_query_dispatch n pop qtype read_arg write_arg ix with
           | Returned (r, pop, cs) =>
               Returned {| ret := r; pool := pop;
                           mem := ctl_query_cleanup ix parse_str m';
                           calls := cs |}
           | Fault f => Fault f
           | OutOfFuel => OutOfFuel
           end.
Proof.
  intros (b & m1 & nodes & Hs & Hp). exists b. unfold ctl_query.
  rewrite Hs, Hp. reflexivity.
Qed.

(** C3. For a query that resolves to the node [n] and is not discarded:
    the read callback is invoked first when there is a read argument; the
    write callback is invoked only when there is a write argument and the
    read step, if any, returned 0; the result is the first nonzero status
    among the callbacks invoked, 0 when there is none. *)
Theorem ctl_query_dispatch_order c pop qtype path read_arg write_arg m n ix m' :
  resolves c path m n ix m' ->
  ctl_query_invalid n read_arg write_arg = false ->
  (debug = true -> type n = CTL_NODE_LEAF) ->
  exists res,
    ctl_query debug c pop qtype path read_arg write_arg m = Returned res
    /\ ret res = first_failure (map cb_ret (calls res))
    /\ match read_arg, write_arg with
       | Some ra, None =>
           exists rcb, read_cb n = Some rcb
             /\ calls res
                = [ {| cb_kind := ReadCb; cb_node := name n; cb_type := qtype;
                       cb_arg := ra; cb_indexes := map snd ix;
                       cb_ret := fst (rcb pop qtype ra (map snd ix)) |} ]
             /\ pool res = snd (rcb pop qtype ra (map snd ix))
       | None, Some wa =>
           exists wcb, write_cb n = Some wcb
             /\ calls res
                = [ {| cb_kind := WriteCb; cb_node := name n;
                       cb_type := qtype; cb_arg := wa;
                       cb_indexes := map snd ix;
                       cb_ret := fst (wcb pop qtype wa (map snd ix)) |} ]
             /\ pool res = snd (wcb pop qtype wa (map snd ix))
       | Some ra, Some wa =>
           exists rcb wcb, read_cb n = Some rcb /\ write_cb n = Some wcb
             /\ let r1 := fst (rcb pop qtype ra (map snd ix)) in
                let pop1 := snd (rcb pop qtype ra (map snd ix)) in
                let rd := {| cb_kind := ReadCb; cb_node := name n;
                             cb_type := qtype; cb_arg := ra;
                             cb_indexes := map snd ix; cb_ret := r1 |} in
                if r1 =? 0
                then calls res
                     = [ rd;
                         {| cb_kind := WriteCb; cb_node := name n;
                            cb_type := qtype; cb_arg := wa;
                            cb_indexes := map snd ix;
                            cb_ret := fst (wcb pop1 qtype wa (map snd ix)) |} ]
                     /\ pool res = snd (wcb pop1 qtype wa (map snd ix))
                else calls res = [rd] /\ pool res = pop1
       | None, None => False
       end.
Proof.
  intros Hres Hinv Hleaf.
  destruct (ctl_query_resolved c pop qtype path read_arg write_arg m n ix m'
              Hres) as [b ->].
  rewrite Hinv.
  assert (Hd : debug && negb (ctl_node_type_eqb (type n) CTL_NODE_LEAF)
               = false).
  { destruct debug; [|reflexivity]. now rewrite (Hleaf eq_refl). }
  rewrite Hd. unfold ctl_query_invalid in Hinv. unfold ctl_query_dispatch.
  destruct read_arg as [ra|], write_arg as [wa|];
    destruct (read_cb n) as [rcb|], (write_cb n) as [wcb|];
    simpl in Hinv; try discriminate.
  - destruct (rcb pop qtype ra (map snd ix)) as [r1 pop1] eqn:Er. simpl.
    destruct (r1 =? 0) eqn:E0.
    + destruct (wcb pop1 qtype wa (map snd ix)) as [r2 pop2] eqn:Ew.
      eexists. split; [reflexivity|]. simpl. rewrite E0. split.
      * now destruct (r2 =? 0) eqn:E2; [apply Z.eqb_eq in E2|].
      * exists rcb, wcb. rewrite Er. simpl. rewrite E0, Ew. auto.
    + eexists. split; [reflexivity|]. simpl. rewrite E0. split; [reflexivity|].
      exists rcb, wcb. rewrite Er. simpl. rewrite E0. auto.
  - destruct (rcb pop qtype ra (map snd ix)) as [r1 pop1] eqn:Er. simpl.
    eexists. split; [reflexivity|]. simpl. split.
    + now destruct (r1 =? 0) eqn:E2; [apply Z.eqb_eq in E2|].
    + exists rcb. rewrite Er. auto.
  - destruct (rcb pop qtype ra (map snd ix)) as [r1 pop1] eqn:Er. simpl.
    eexists. split; [reflexivity|]. simpl. split.
    + now destruct (r1 =? 0) eqn:E2; [apply Z.eqb_eq in E2|].
    + exists rcb. rewrite Er. auto.
  - destruct (wcb pop qtype wa (map snd ix)) as [r2 pop2] eqn:Ew. simpl.
    eexists. split; [reflexivity|]. simpl. split.
    + now destruct (r2 =? 0) eqn:E2; [apply Z.eqb_eq in E2|].
    + exists wcb. rewrite Ew. auto.
  - destruct (wcb pop qtype wa (map snd ix)) as [r2 pop2] eqn:Ew. simpl.
    eexists. split; [reflexivity|]. simpl. split.
    + now destruct (r2 =? 0) eqn:E2; [apply Z.eqb_eq in E2|].
    + exists wcb. rewrite Ew. auto.
Qed.

(** With neither argument, no path leads to a callback. *)
Lemma ctl_query_no_arguments c pop qtype path m (res : query_result P A) :
  ctl_query debug c pop qtype path None None m = Returned res ->
  ret res = -1 /\ calls res = [] /\ pool res = pop.
Proof.
  unfold ctl_query. destruct (Strdup path m) as [[b|] m1].
  - destruct (ctl_query_parse c path m1) as [nodes [n|] ix m2|ix m2|f|];
      try discriminate.
    + replace (ctl_query_invalid n None None) with true.
      * intros H; inversion H; subst; auto.
      * unfold ctl_query_invalid. simpl. now destruct (read_cb n), (write_cb n).
    + intros H; inversion H; subst; auto.
    + intros H; inversion H; subst; auto.
  - intros H; inversion H; subst; auto.
Qed.

Lemma ctl_query_invalid_missing n read_arg write_arg :
  (read_arg <> None /\ read_cb n = None)
  \/ (write_arg <> None /\ write_cb n = None) ->
  ctl_query_invalid n read_arg write_arg = true.
Proof.
  unfold ctl_query_invalid.
  intros [[Hr Hn]|[Hw Hn]]; rewrite Hn;
    destruct read_arg, write_arg, (read_cb n), (write_cb n);
    try reflexivity; try contradiction; discriminate.
Qed.

(** C4, as amended. The test that discards a call (lines 164-166) comes
    after the walk over the path. When both arguments are NULL, or when the
    path leads to the node [n] and an argument is given for which [n] has no
    callback: whenever [ctl_query] returns, it returns -1, has invoked no
    callback and has left the pool as it was; and it does return, with errno
    EINVAL, when its allocations succeed and, for a call with both arguments
    NULL, the walk over the path comes to an end (at the last segment or at
    a segment that matches no node). *)
Theorem ctl_query_invalid_arguments c pop qtype path read_arg write_arg m :
  (read_arg = None /\ write_arg = None)
  \/ (exists (ms : list (ctl_node P A)) n,
        path_matches (Some (root c)) (segments path) ms
        /\ last ms = Some n
        /\ ((read_arg <> None /\ read_cb n = None)
            \/ (write_arg <> None /\ write_cb n = None))) ->
  (forall res,
     ctl_query debug c pop qtype path read_arg write_arg m = Returned res ->
     ret res = -1 /\ calls res = [] /\ pool res = pop)
  /\ (alloc_ok (S (index_segments (segments path))) m = true ->
      (read_arg = None -> write_arg = None ->
       walk_ends (Some (root c)) (segments path)) ->
      exists res,
        ctl_query debug c pop qtype path read_arg write_arg m = Returned res
        /\ errno (mem res) = EINVAL).
Proof.
  intros Hbad.
  (* the node on which the walk ends is one that the test discards *)
  assert (Hdone : forall m1 nodes n' ix m2,
             ctl_query_walk (segments path) (Some (root c)) None [] m1
             = LoopDone nodes (Some n') ix m2 ->
             ctl_query_invalid n' read_arg write_arg = true).
  { intros m1 nodes n' ix m2 Hw. destruct Hbad as [[-> ->]|Hbad].
    - unfold ctl_query_invalid. simpl.
      now destruct (read_cb n'), (write_cb n').
    - destruct Hbad as (ms & n & Hp & Hlast & Hcb).
      pose proof (ctl_query_walk_matches _ _ _ None [] m1 Hp) as Hm.
      rewrite Hw, Hlast in Hm. destruct Hm as [Hn _].
      inversion Hn; subst n'. now apply ctl_query_invalid_missing. }
  (* the walk ends or stops with EINVAL *)
  assert (Hwalk : forall m1,
             alloc_ok (index_segments (segments path)) m1 = true ->
             (read_arg = None -> write_arg = None ->
              walk_ends (Some (root c)) (segments path)) ->
             match ctl_query_walk (segments path) (Some (root c)) None [] m1
             with
             | LoopDone _ _ _ _ => True
             | LoopError _ m' => errno m' = EINVAL
             | _ => False
             end).
  { intros m1 Ha1 Hends. destruct Hbad as [[Hr Hw]|Hbad].
    - pose proof (ctl_query_walk_ends _ _ None [] m1 (Hends Hr Hw)) as He.
      destruct (ctl_query_walk _ _ _ _ _); try exact He.
      destruct He as [He|He]; [exact He|congruence].
    - destruct Hbad as (ms & n & Hp & _).
      pose proof (ctl_query_walk_matches _ _ _ None [] m1 Hp) as Hm.
      destruct (ctl_query_walk _ _ _ _ _); try exact Hm; [exact I|congruence]. }
  split.
  - intros res. unfold ctl_query.
    destruct (Strdup path m) as [[b|] m1];
      [|intros H; inversion H; subst; auto].
    rewrite ctl_query_parse_walk.
    destruct (ctl_query_walk (segments path) (Some (root c)) None [] m1)
      as [nodes [n'|] ix m2|ix m2|f|] eqn:Ew; try discriminate;
      try (intros H; inversion H; subst; now auto).
    rewrite (Hdone _ _ _ _ _ Ew). intros H; inversion H; subst; auto.
  - intros Ha Hends. unfold ctl_query, Strdup.
    destruct (Malloc_ok _ m Ha) as (m1 & -> & Ha1 & _).
    rewrite ctl_query_parse_walk.
    specialize (Hwalk m1 Ha1 Hends).
    destruct (ctl_query_walk (segments path) (Some (root c)) None [] m1)
      as [nodes [n'|] ix m2|ix m2|f|] eqn:Ew; try contradiction.
    + rewrite (Hdone _ _ _ _ _ Ew). eexists. split; [reflexivity|].
      cbn [mem]. now rewrite errno_cleanup.
    + eexists. split; [reflexivity|]. cbn [mem]. now rewrite errno_cleanup.
    + eexists. split; [reflexivity|]. cbn [mem].
      now rewrite errno_cleanup.
Qed.

End Query.

(** ** The string provider and the config loader *)

(** What [ctl_string_provider_parse_query] makes of an entry, by the tokens
    that the separator cuts out of it. *)
Lemma ctl_string_provider_parse_query_tokens (qbuf : string)
    (q : ctl_query_config) :
  ctl_string_provider_parse_query (Some qbuf) q
  = match tokens CTL_NAME_VALUE_SEPARATOR qbuf with
    | [] => (-1, {| q_name := None; q_value := q_value q |})
    | [nm] => (-1, {| q_name := Some nm; q_value := None |})
    | [nm; v] => (0, {| q_name := Some nm; q_value := Some v |})
    | nm :: v :: _ :: _ => (-1, {| q_name := Some nm; q_value := Some v |})
    end.
Proof.
  unfold ctl_string_provider_parse_query.
  rewrite strtok_r_first, tokens_unfold.
  destruct (strtok_r None CTL_NAME_VALUE_SEPARATOR qbuf) as [[nm|] sp1];
    [|reflexivity].
  rewrite (tokens_unfold _ sp1).
  destruct (strtok_r None CTL_NAME_VALUE_SEPARATOR sp1) as [[v|] sp2];
    [|reflexivity].
  rewrite (tokens_unfold _ sp2).
  now destruct (strtok_r None CTL_NAME_VALUE_SEPARATOR sp2) as [[extra|] sp3].
Qed.

Section Loader.

Context {P A : Type}.
Variable debug : bool.
Variable arg_of_string : string -> A.

Implicit Types (c : ctl P A) (m : cstate) (pop : P)
  (sp : ctl_string_provider) (q : ctl_query_config) (cs : list (call A)).

(** The loop of the loader over the string provider, entered with what the
    provider made of the entry [qbuf], applies that entry and the entries
    still in [sptr]. *)
Lemma ctl_load_config_loop_entries (fuel : nat) c sp (qbuf : option string)
    q pop m cs :
  match qbuf with
  | Some _ => (String.length (sptr sp) < fuel)%nat
  | None => True
  end ->
  outcome_map snd
    (ctl_load_config_loop debug arg_of_string fuel c string_provider sp
       (fst (ctl_string_provider_parse_query qbuf q))
       (snd (ctl_string_provider_parse_query qbuf q)) pop m cs)
  = load_entries debug arg_of_string c
      match qbuf with
      | Some e => e :: tokens CTL_STRING_QUERY_SEPARATOR (sptr sp)
      | None => []
      end pop m cs.
Proof.
  revert sp qbuf q pop m cs.
  induction fuel as [|fuel IH]; intros sp [e|] q pop m cs Hlen;
    try lia; try (destruct fuel; reflexivity); try reflexivity.
  rewrite ctl_string_provider_parse_query_tokens.
  cbn [load_entries]. unfold entry_pair.
  destruct (tokens CTL_NAME_VALUE_SEPARATOR e) as [|nm [|v [|x l]]];
    try reflexivity.
  cbn [fst snd ctl_load_config_loop Z.eqb]. unfold ctl_exec_query_config.
  cbn [q_name q_value option_map].
  destruct (ctl_query debug c pop CTL_QUERY_CONFIG_INPUT nm None
              (Some (arg_of_string v)) m) as [res|f|]; try reflexivity.
  destruct (ret res =? 0); [|reflexivity]. cbn [negb].
  cbn [next string_provider]. unfold ctl_string_provider_next.
  rewrite (tokens_unfold _ (sptr sp)).
  destruct (strtok_r None CTL_STRING_QUERY_SEPARATOR (sptr sp))
    as [[e'|] s'] eqn:Et.
  - apply strtok_r_shrinks in Et.
    destruct (ctl_string_provider_parse_query (Some e') _) as [r' q'] eqn:Ep.
    specialize (IH (set_sptr sp s') (Some e')
                  {| q_name := Some nm; q_value := Some v |}
                  (pool res) (mem res) (cs ++ calls res)%list).
    rewrite Ep in IH. apply IH. simpl. lia.
  - destruct (ctl_string_provider_parse_query None _) as [r' q'] eqn:Ep.
    specialize (IH (set_sptr sp s') None
                  {| q_name := Some nm; q_value := Some v |}
                  (pool res) (mem res) (cs ++ calls res)%list).
    rewrite Ep in IH. apply IH. exact I.
Qed.

(** The loader over the string provider applies the entries of the text. *)
Lemma ctl_load_config_entries c pop sp m :
  outcome_map snd
    (ctl_load_config debug arg_of_string (S (String.length (buf sp))) c pop
       string_provider sp m)
  = load_status
      (load_entries debug arg_of_string c
         (tokens CTL_STRING_QUERY_SEPARATOR (buf sp)) pop m []).
Proof.
  unfold ctl_load_config. cbn [first string_provider].
  unfold ctl_string_provider_first. rewrite strtok_r_first, tokens_unfold.
  destruct (strtok_r None CTL_STRING_QUERY_SEPARATOR (buf sp))
    as [qbuf s'] eqn:Et.
  cbv zeta. set (sp1 := set_buf sp _).
  pose proof (ctl_load_config_loop_entries (S (String.length (buf sp))) c
                (set_sptr sp1 s') qbuf {| q_name := None; q_value := None |}
                pop m []) as H.
  destruct (ctl_string_provider_parse_query qbuf _) as [r q].
  simpl fst in H. simpl snd in H.
  assert (Hlen : match qbuf with
                 | Some _ =>
                     (String.length (sptr (set_sptr sp1 s'))
                      < S (String.length (buf sp)))%nat
                 | None => True
                 end).
  { destruct qbuf; [|exact I]. apply strtok_r_shrinks in Et. simpl. lia. }
  specialize (H Hlen). simpl sptr in H.
  destruct qbuf as [e|]; rewrite <- H;
    now destruct (ctl_load_config_loop _ _ _ _ _ _ _ _ _ _ _)
      as [[s res]|f|].
Qed.

Lemma load_entries_fuel c (es : list string) pop m cs :
  load_entries debug arg_of_string c es pop m cs <> OutOfFuel.
Proof.
  revert pop m cs. induction es as [|e es IH]; intros pop m cs; simpl.
  - discriminate.
  - destruct (entry_pair e) as [[nm v]|]; [|discriminate].
    pose proof (ctl_query_fuel debug c pop CTL_QUERY_CONFIG_INPUT nm None
                  (Some (arg_of_string v)) m) as Hq.
    destruct (ctl_query _ _ _ _ _ _ _ _) as [res|f|];
      [|discriminate|contradiction].
    destruct (ret res =? 0); [apply IH|discriminate].
Qed.

(** The loader over the string provider ends: with fuel beyond the length
    of the text it returns or it faults. *)
Lemma ctl_load_config_string_fuel c pop sp m :
  ctl_load_config debug arg_of_string (S (String.length (buf sp))) c pop
    string_provider sp m <> OutOfFuel.
Proof.
  intros H. pose proof (ctl_load_config_entries c pop sp m) as He.
  rewrite H in He. simpl in He.
  pose proof (load_entries_fuel c
                (tokens CTL_STRING_QUERY_SEPARATOR (buf sp)) pop m []) as Hf.
  destruct (load_entries _ _ _ _ _ _ _); simpl in He;
    [discriminate|discriminate|contradiction].
Qed.

(** C8, as amended. The string provider takes an entry for a pair when the
    separator cuts exactly two tokens out of it, and fails with -1 on any
    other entry. The loader over the string provider applies the entries of
    the text from left to right, each as a write-only query, up to the first
    malformed entry or the first query that returns a nonzero status; it
    returns -1 when the status it stopped at is negative and 0 when the
    provider reported the end. The text a.0.b=1;c=2 has the entries a.0.b=1
    and c=2, in that order, and the callback of the first gets the index
    list of the single index 0. *)
Theorem ctl_load_config_string c pop sp m :
  (forall (qbuf : string) q,
     match entry_pair qbuf with
     | Some (nm, v) =>
         ctl_string_provider_parse_query (Some qbuf) q
         = (0, {| q_name := Some nm; q_value := Some v |})
     | None => fst (ctl_string_provider_parse_query (Some qbuf) q) = -1
     end)
  /\ outcome_map snd
       (ctl_load_config debug arg_of_string (S (String.length (buf sp))) c
          pop string_provider sp m)
     = load_status
         (load_entries debug arg_of_string c
            (tokens CTL_STRING_QUERY_SEPARATOR (buf sp)) pop m [])
  /\ tokens CTL_STRING_QUERY_SEPARATOR "a.0.b=1;c=2" = ["a.0.b=1"; "c=2"]
  /\ entry_pair "a.0.b=1" = Some ("a.0.b", "1")
  /\ entry_pair "c=2" = Some ("c", "2")
  /\ (forall (res : query_result P A) (cl : call A),
        ctl_query debug c pop CTL_QUERY_CONFIG_INPUT "a.0.b" None
          (Some (arg_of_string "1")) m = Returned res ->
        In cl (calls res) ->
        cb_kind cl = WriteCb
        /\ cb_arg cl = arg_of_string "1"
        /\ exists nm,
             cb_indexes cl = [ {| idx_name := nm; idx_value := 0 |} ]).
Proof.
  split.
  { intros qbuf q. rewrite ctl_string_provider_parse_query_tokens.
    unfold entry_pair.
    now destruct (tokens CTL_NAME_VALUE_SEPARATOR qbuf) as [|nm [|v [|x l]]]. }
  split; [apply ctl_load_config_entries|].
  split; [reflexivity|]. split; [reflexivity|]. split; [reflexivity|].
  intros res cl Hq Hin.
  destruct (ctl_query_write_only _ _ _ _ _ _ _ _ _ Hq Hin) as (Hk & Ha & _).
  split; [exact Hk|]. split; [congruence|].
  destruct (ctl_query_calls_walk _ _ _ _ _ _ _ _ _ _ Hq Hin)
    as (m1 & nodes & cur & ix & m2 & Hw & ->).
  destruct (ctl_query_walk_done _ _ _ _ _ _ _ _ _ Hw) as (ms & _ & Hm & Hix).
  simpl in Hix. rewrite app_nil_r in Hix. rewrite Hix. clear Hix Hw.
  replace (segments "a.0.b") with ["a"; "0"; "b"] in * by reflexivity.
  inversion Hm as [|s1 x1 l1 ms1 _ Hm1]; subst.
  inversion Hm1 as [|s2 x2 l2 ms2 _ Hm2]; subst.
  inversion Hm2 as [|s3 x3 l3 ms3 _ Hm3]; subst.
  inversion Hm3; subst. exists (name x2). reflexivity.
Qed.

End Loader.

(** ** The properties on the concrete trees *)

Import Examples.

Example heap_tree_root :
  root heap_tree
  = inner "heap" CTL_NODE_NAMED heap_nodes :: replicate 99 END.
Proof. reflexivity. Qed.


(** The node at the head of an array is the first match of a segment. *)
Ltac first_match_head :=
  eexists [], _; split; [reflexivity|]; split; [constructor|];
  split; [discriminate|reflexivity].




Lemma ctl_query_heap_arena_size_witness :
  exists res,
    ctl_query true mixed_tree 0 CTL_QUERY_PROGRAMMATIC "heap.3.size"
      (Some "out") None m0 = Returned res
    /\ calls res
       = [ {| cb_kind := ReadCb; cb_node := Some "size";
              cb_type := CTL_QUERY_PROGRAMMATIC; cb_arg := "out";
              cb_indexes := [ {| idx_name := Some "arena"; idx_value := 3 |} ];
              cb_ret := 0 |} ]
    /\ ret res = 0
    /\ pool res = 1
    /\ live (mem res) = [].
Proof.
  apply (ctl_query_heap_arena_size true mixed_tree 0 CTL_QUERY_PROGRAMMATIC
           "out" m0
           (inner "heap" CTL_NODE_NAMED heap_nodes)
           (inner "arena" CTL_NODE_INDEXED arena_nodes)
           (leaf "size" (Some (bump 0)) None)
           (bump 0)
           [inner "prefs" CTL_NODE_NAMED prefs_nodes] (replicate 98 END)
           [] [END] [] [END]).
  - reflexivity.
  - constructor; [|constructor]. split; [discriminate|reflexivity].
  - reflexivity.
  - reflexivity.
  - constructor.
  - reflexivity.
  - reflexivity.
  - reflexivity.
  - constructor.
  - reflexivity.
  - reflexivity.
  - reflexivity.
  - reflexivity.
Defined.

Lemma prefs_val_resolves :
  resolves prefs_tree "prefs.val" m0
    (leaf "val" (Some (bump 0)) (Some (bump 0))) []
    {| live := [O]; brk := 1; oom := []; errno := 0 |}.
Proof. do 3 eexists. split; vm_compute; reflexivity. Defined.

Lemma ctl_query_dispatch_order_witness :
  exists res,
    ctl_query true prefs_tree 0 CTL_QUERY_PROGRAMMATIC "prefs.val"
      (Some "out") (Some "in") m0 = Returned res
    /\ ret res = first_failure (map cb_ret (calls res)).
Proof.
  destruct (ctl_query_dispatch_order true prefs_tree 0 CTL_QUERY_PROGRAMMATIC
              "prefs.val" (Some "out") (Some "in") m0 _ _ _
              prefs_val_resolves eq_refl (fun _ => eq_refl))
    as (res & Hq & Hr & _).
  exists res. split; assumption.
Defined.

Example prefs_val_read_write :
  ctl_query true prefs_tree 0 CTL_QUERY_PROGRAMMATIC "prefs.val"
    (Some "out") (Some "in") m0
  = Returned
      {| ret := 0; pool := 2;
         mem := {| live := []; brk := 1; oom := []; errno := 0 |};
         calls :=
           [ {| cb_kind := ReadCb; cb_node := Some "val";
                cb_type := CTL_QUERY_PROGRAMMATIC; cb_arg := "out";
                cb_indexes := []; cb_ret := 0 |};
             {| cb_kind := WriteCb; cb_node := Some "val";
                cb_type := CTL_QUERY_PROGRAMMATIC; cb_arg := "in";
                cb_indexes := []; cb_ret := 0 |} ] |}.
Proof. vm_compute. reflexivity. Qed.

(** A failing read keeps the write callback from being invoked. *)
Example prefs_bad_read_write :
  ctl_query true prefs_tree 0 CTL_QUERY_PROGRAMMATIC "prefs.bad"
    (Some "out") (Some "in") m0
  = Returned
      {| ret := 4; pool := 1;
         mem := {| live := []; brk := 1; oom := []; errno := 0 |};
         calls :=
           [ {| cb_kind := ReadCb; cb_node := Some "bad";
                cb_type := CTL_QUERY_PROGRAMMATIC; cb_arg := "out";
                cb_indexes := []; cb_ret := 4 |} ] |}.
Proof. vm_compute. reflexivity. Qed.

(** heap.3.size leads through heap, arena and size. *)
Lemma heap_arena_size :
  path_matches (Some (root heap_tree)) (segments "heap.3.size")
    [inner "heap" CTL_NODE_NAMED heap_nodes;
     inner "arena" CTL_NODE_INDEXED arena_nodes;
     leaf "size" (Some (bump 0)) None].
Proof.
  change (segments "heap.3.size") with ["heap"; "3"; "size"].
  rewrite heap_tree_root.
  apply path_matches_cons; [first_match_head|].
  apply path_matches_cons; [first_match_head|].
  apply path_matches_cons; [first_match_head|].
  apply path_matches_nil.
Defined.

(** Both arguments NULL on a path that leads to a Leaf with a read
    callback, and a write argument for that Leaf, which has no write
    callback. *)
Lemma ctl_query_invalid_arguments_witness :
  (exists res,
     ctl_query true heap_tree 0 CTL_QUERY_PROGRAMMATIC "heap.3.size"
       None None m0 = Returned res
     /\ ret res = -1
     /\ errno (mem res) = EINVAL
     /\ calls res = []
     /\ pool res = 0)
  /\ (exists res,
        ctl_query true heap_tree 0 CTL_QUERY_PROGRAMMATIC "heap.3.size"
          None (Some "in") m0 = Returned res
        /\ ret res = -1
        /\ errno (mem res) = EINVAL
        /\ calls res = []
        /\ pool res = 0).
Proof.
  split.
  - destruct (ctl_query_invalid_arguments true heap_tree 0
                CTL_QUERY_PROGRAMMATIC "heap.3.size" None None m0
                (or_introl (conj eq_refl eq_refl))) as [Hret Herr].
    destruct (Herr eq_refl
                (fun _ _ => path_matches_walk_ends _ _ _ heap_arena_size))
      as (res & Hq & He).
    destruct (Hret res Hq) as (Hr & Hc & Hp).
    exists res. repeat split; assumption.
  - destruct (ctl_query_invalid_arguments true heap_tree 0
                CTL_QUERY_PROGRAMMATIC "heap.3.size" None (Some "in") m0)
      as [Hret Herr].
    { right. eexists _, _. split; [exact heap_arena_size|].
      split; [reflexivity|]. right. split; [discriminate|reflexivity]. }
    destruct Herr as (res & Hq & He);
      [reflexivity|intros _ H; discriminate H|].
    destruct (Hret res Hq) as (Hr & Hc & Hp).
    exists res. repeat split; assumption.
Defined.

(** The claim C4 fails for calls with both arguments NULL that do not reach
    the test of line 164: on a path with a segment behind a Leaf the scan
    reads through the NULL children pointer, and when the copy of the name
    cannot be made the call returns -1 with errno ENOMEM. *)
Lemma ctl_query_invalid_arguments_counterexample :
  ctl_query true heap_tree 0 CTL_QUERY_PROGRAMMATIC "heap.3.size.x"
    None None m0 = Fault NullDereference
  /\ exists res,
       ctl_query true heap_tree 0 CTL_QUERY_PROGRAMMATIC "heap.3.size"
         None None m_oom = Returned res
       /\ ret res = -1
       /\ calls res = []
       /\ errno (mem res) = ENOMEM
       /\ errno (mem res) <> EINVAL.
Proof.
  split; [vm_compute; reflexivity|].
  eexists. split; [vm_compute; reflexivity|].
  split; [reflexivity|]. split; [reflexivity|]. split; [reflexivity|].
  discriminate.
Defined.

Lemma ctl_register_module_node_stores_witness :
  exists c' m' nnode,
    ctl_register_module_node heap_tree "prefs" (Some prefs_nodes) m0
    = Returned (c', m')
    /\ first_free c' = 2
    /\ root c' !! 1%nat = Some nnode
    /\ type nnode = CTL_NODE_NAMED
    /\ children nnode = Some prefs_nodes
    /\ name nnode = Some "prefs"
    /\ (forall j : nat, j <> 1%nat -> root c' !! j = root heap_tree !! j)
    /\ length (root c') = 100%nat.
Proof.
  apply (ctl_register_module_node_stores heap_tree "prefs" (Some prefs_nodes)
           m0).
  - vm_compute. split; [discriminate|reflexivity].
  - reflexivity.
Defined.

(** The claim C5 fails on a full tree: the call does not fail with an
    error, it stores past the end of the root array. *)
Lemma ctl_register_module_node_counterexample :
  first_free full_tree = CTL_MAX_ENTRIES
  /\ ctl_register_module_node full_tree "extra" (Some arena_nodes) m0
     = Fault OutOfBounds
  /\ forall r,
       ctl_register_module_node full_tree "extra" (Some arena_nodes) m0
       <> Returned r.
Proof.
  assert (H : ctl_register_module_node full_tree "extra" (Some arena_nodes)
                m0 = Fault OutOfBounds) by (vm_compute; reflexivity).
  split; [vm_compute; reflexivity|]. split; [exact H|].
  intros r. rewrite H. discriminate.
Defined.

(** The claim C6 fails on the segment 3x: strtol reads 3 and stops before
    x, and that is enough for an index to be recorded; in a path the
    segment is taken for the index 3 and not for a name. *)
Lemma ctl_query_index_pending_counterexample :
  fully_numeric "3x" = false
  /\ sl_endptr (strtol "3x" 0) = 1%nat
  /\ ctl_query_index "3x" [] m0
     = inr (true, [ (O, {| idx_name := None; idx_value := 3 |}) ],
            {| live := [O]; brk := 1; oom := []; errno := 0 |})
  /\ exists res,
       ctl_query true heap_tree 0 CTL_QUERY_PROGRAMMATIC "heap.3x.size"
         (Some "out") None m0 = Returned res
       /\ ret res = 0
       /\ map cb_indexes (calls res)
          = [ [ {| idx_name := Some "arena"; idx_value := 3 |} ] ].
Proof.
  split; [reflexivity|]. split; [reflexivity|]. split; [reflexivity|].
  eexists. split; [vm_compute; reflexivity|]. split; reflexivity.
Defined.

Lemma ctl_query_segment_match_witness :
  ctl_scan true "3"
    ([leaf "x" None None] ++ inner "arena" CTL_NODE_INDEXED arena_nodes
       :: [END])
  = Some (inner "arena" CTL_NODE_INDEXED arena_nodes)
  /\ exists res,
       ctl_query true heap_tree 0 CTL_QUERY_PROGRAMMATIC "heap.3.siz"
         (Some "out") None m0 = Returned res
       /\ ret res = -1
       /\ errno (mem res) = EINVAL
       /\ calls res = []
       /\ pool res = 0.
Proof.
  split.
  - apply (proj1 (proj2 (proj2 (ctl_query_segment_match true true "3"
                    [leaf "x" None None] [END]
                    (inner "arena" CTL_NODE_INDEXED arena_nodes)
                    ltac:(constructor; [split; [discriminate|reflexivity]
                                       |constructor]))))).
    + discriminate.
    + reflexivity.
  - apply (proj2 (proj2 (proj2 (ctl_query_segment_match true false "siz"
                    [leaf "size" (Some (bump 0)) None] [] END
                    ltac:(constructor; [split; [discriminate|reflexivity]
                                       |constructor]))))
             heap_tree 0 CTL_QUERY_PROGRAMMATIC "heap.3.siz" (Some "out") None
             m0 O {| live := [O]; brk := 1; oom := []; errno := 0 |}
             ["heap"; "3"] []
             (Some (inner "arena" CTL_NODE_INDEXED arena_nodes))
             [ (1%nat, {| idx_name := Some "arena"; idx_value := 3 |}) ]
             {| live := [1%nat; O]; brk := 2; oom := []; errno := 0 |}
             [ (1%nat, {| idx_name := Some "arena"; idx_value := 3 |}) ]
             {| live := [1%nat; O]; brk := 2; oom := []; errno := 0 |});
      vm_compute; reflexivity.
Defined.

(** The claim C7 fails on an array in which a node named 5 comes before an
    Indexed node: the segment 5 carries an index, and yet it matches the
    Named node, by its name, and not the first Indexed node. *)
Lemma ctl_query_segment_match_counterexample :
  valid_index "5" = true
  /\ List.find (fun x => ctl_node_type_eqb (type x) CTL_NODE_INDEXED)
       shadowed_nodes
     = Some (inner "arena" CTL_NODE_INDEXED arena_nodes)
  /\ ctl_scan true "5" shadowed_nodes
     = Some (inner "5" CTL_NODE_NAMED arena_nodes)
  /\ ctl_query_step (Some shadowed_nodes) "5" [] m0
     = StepNext (Some arena_nodes) (inner "5" CTL_NODE_NAMED arena_nodes)
         [ (O, {| idx_name := Some "5"; idx_value := 5 |}) ]
         {| live := [O]; brk := 1; oom := []; errno := 0 |}.
Proof. repeat split; vm_compute; reflexivity. Defined.

Lemma ctl_query_segment_after_leaf_witness :
  ctl_query true heap_tree 0 CTL_QUERY_PROGRAMMATIC "heap.3.size.x"
    (Some "out") None m0
  = Fault NullDereference.
Proof.
  apply (ctl_query_segment_after_leaf true heap_tree 0 CTL_QUERY_PROGRAMMATIC
           "heap.3.size.x" (Some "out") None m0 O
           {| live := [O]; brk := 1; oom := []; errno := 0 |}
           ["heap"; "3"; "size"] [] "x"
           (leaf "size" (Some (bump 0)) None)
           [ (1%nat, {| idx_name := Some "arena"; idx_value := 3 |}) ]
           {| live := [1%nat; O]; brk := 2; oom := []; errno := 0 |}
           false
           [ (1%nat, {| idx_name := Some "arena"; idx_value := 3 |}) ]
           {| live := [1%nat; O]; brk := 2; oom := []; errno := 0 |});
    vm_compute; reflexivity.
Defined.

Lemma ctl_query_releases_allocations_witness :
  exists res,
    ctl_query true heap_tree 0 CTL_QUERY_PROGRAMMATIC "heap.3.size"
      (Some "out") None
      {| live := [7%nat]; brk := 8; oom := []; errno := 0 |} = Returned res
    /\ live (mem res) = [7%nat].
Proof.
  eexists. split.
  - vm_compute. reflexivity.
  - apply (ctl_query_releases_allocations true heap_tree 0
             CTL_QUERY_PROGRAMMATIC "heap.3.size" (Some "out") None
             {| live := [7%nat]; brk := 8; oom := []; errno := 0 |}).
    vm_compute. reflexivity.
Defined.

(** The index entry is freed as well when its Malloc is the one that
    fails, and when the copy of the name cannot be made. *)
Example ctl_query_out_of_memory :
  ctl_query true heap_tree 0 CTL_QUERY_PROGRAMMATIC "heap.3.size"
    (Some "out") None
    {| live := [7%nat]; brk := 8; oom := [false; true]; errno := 0 |}
  = Returned
      {| ret := -1; pool := 0;
         mem := {| live := [7%nat]; brk := 9; oom := []; errno := ENOMEM |};
         calls := [] |}.
Proof. vm_compute. reflexivity. Qed.

Lemma ctl_load_config_string_witness :
  outcome_map snd
    (ctl_load_config true id
       (S (String.length (buf (provider_of "a.0.b=1;c=2")))) config_tree 0
       string_provider (provider_of "a.0.b=1;c=2") m0)
  = Returned
      {| ret := 0; pool := 2;
         mem := {| live := []; brk := 3; oom := []; errno := 0 |};
         calls :=
           [ {| cb_kind := WriteCb; cb_node := Some "b";
                cb_type := CTL_QUERY_CONFIG_INPUT; cb_arg := "1";
                cb_indexes := [ {| idx_name := Some "slot"; idx_value := 0 |} ];
                cb_ret := 0 |};
             {| cb_kind := WriteCb; cb_node := Some "c";
                cb_type := CTL_QUERY_CONFIG_INPUT; cb_arg := "2";
                cb_indexes := []; cb_ret := 0 |} ] |}.
Proof.
  etransitivity.
  - exact (proj1 (proj2 (ctl_load_config_string true id config_tree 0
                           (provider_of "a.0.b=1;c=2") m0))).
  - vm_compute. reflexivity.
Defined.

(** The claim C8 fails on an entry whose write callback returns -7: the
    loader stops there, the entry c=2 is not applied, and what the loader
    returns is -1, not the -7 of the pair. On an entry whose write callback
    returns 5 the loader stops as well, and what it returns is 0. *)
Lemma ctl_load_config_string_counterexample :
  (exists qres,
     ctl_query true config_tree 0 CTL_QUERY_CONFIG_INPUT "fail" None
       (Some "1") m0 = Returned qres
     /\ ret qres = -7)
  /\ (exists res,
        outcome_map snd
          (ctl_load_config true id 11 config_tree 0 string_provider
             (provider_of "fail=1;c=2") m0) = Returned res
        /\ ret res = -1
        /\ ret res <> -7
        /\ map cb_node (calls res) = [Some "fail"])
  /\ (exists qres,
        ctl_query true config_tree 0 CTL_QUERY_CONFIG_INPUT "warn" None
          (Some "1") m0 = Returned qres
        /\ ret qres = 5)
  /\ exists res,
       outcome_map snd
         (ctl_load_config true id 11 config_tree 0 string_provider
            (provider_of "warn=1;c=2") m0) = Returned res
       /\ ret res = 0
       /\ map cb_node (calls res) = [Some "warn"].
Proof.
  split; [eexists; split; [vm_compute; reflexivity|reflexivity]|].
  split.
  { eexists. split; [vm_compute; reflexivity|].
    split; [reflexivity|]. split; [discriminate|reflexivity]. }
  split; [eexists; split; [vm_compute; reflexivity|reflexivity]|].
  eexists. split; [vm_compute; reflexivity|]. split; reflexivity.
Defined.

(** A malformed entry stops the loader before the entries that follow. *)
Example ctl_load_config_malformed :
  outcome_map snd
    (ctl_load_config true id 8 config_tree 0 string_provider
       (provider_of "a.b;c=2") m0)
  = Returned {| ret := -1; pool := 0; mem := m0; calls := [] |}.
Proof. vm_compute. reflexivity. Qed.

(** ** Further properties: separators *)

Lemma strtok_r_leading (d : string) (c : ascii) (s : string) :
  is_delim d c = true ->
  strtok_r None d (String c s) = strtok_r None d s.
Proof. intros H. unfold strtok_r. simpl. now rewrite H. Qed.

Lemma tokens_leading (d : string) (c : ascii) (s : string) :
  is_delim d c = true -> tokens d (String c s) = tokens d s.
Proof.
  intros H. rewrite (tokens_unfold d (String c s)), (tokens_unfold d s).
  now rewrite strtok_r_leading.
Qed.

Lemma tokens_head (d : string) (c : ascii) (s : string) :
  is_delim d c = false ->
  tokens d (String c s)
  = String c (fst (split_token d s)) :: tokens d (snd (split_token d s)).
Proof.
  intros H. rewrite tokens_unfold. unfold strtok_r. simpl skip_delim.
  rewrite H. simpl split_token. rewrite H.
  now destruct (split_token d s) as [tok rest].
Qed.

Lemma split_token_app (d : string) (a : string) (c : ascii) (b : string) :
  is_delim d c = true ->
  fst (split_token d (a ++ String c b)) = fst (split_token d a)
  /\ tokens d (snd (split_token d (a ++ String c b)))
     = tokens d (snd (split_token d a) ++ String c b).
Proof.
  intros Hc. induction a as [|x a IH]; simpl.
  - rewrite Hc. simpl. split; [reflexivity|]. now rewrite tokens_leading.
  - destruct (is_delim d x); simpl; [now split|].
    destruct (split_token d (a ++ String c b)) as [t1 r1].
    destruct (split_token d a) as [t2 r2]. simpl in *.
    destruct IH as [-> ->]. now split.
Qed.

(** A separator between two strings separates their tokens. *)
Lemma tokens_app (d : string) (a : string) (c : ascii) (b : string) :
  is_delim d c = true ->
  tokens d (a ++ String c b) = (tokens d a ++ tokens d b)%list.
Proof.
  intros Hc. remember (String.length a) as k eqn:Hk.
  revert a Hk. induction k as [k IH] using lt_wf_ind. intros a Hk.
  destruct a as [|x a].
  - simpl. rewrite tokens_leading by exact Hc. reflexivity.
  - simpl String.append. destruct (is_delim d x) eqn:Hx.
    + rewrite !tokens_leading by exact Hx.
      apply (IH (String.length a)); [simpl in Hk; lia|reflexivity].
    + rewrite !tokens_head by exact Hx.
      destruct (split_token_app d a c b Hc) as [-> ->].
      pose proof (split_token_length d a _ _
                    (surjective_pairing (split_token d a))) as Hl.
      rewrite (IH (String.length (snd (split_token d a)))); trivial.
      simpl in Hk. lia.
Qed.

Lemma tokens_only_delim (d s : string) :
  only_delim d s = true -> tokens d s = [].
Proof.
  induction s as [|c s IH]; simpl; [reflexivity|].
  intros H. apply andb_prop in H as [Hc Hs].
  rewrite tokens_leading by exact Hc. auto.
Qed.

Lemma tokens_trailing (d : string) (a : string) (c : ascii) :
  is_delim d c = true -> tokens d (a ++ String c EmptyString) = tokens d a.
Proof.
  intros Hc. rewrite tokens_app by exact Hc.
  change (tokens d EmptyString) with (@nil string). apply app_nil_r.
Qed.

(** ** Further properties of [ctl_query] *)

Lemma strtol_value_range (s : string) (base : Z) :
  LONG_MIN <= sl_value (strtol s base) <= LONG_MAX.
Proof.
  unfold strtol. destruct (skip_space s) as [ws s1].
  destruct (skip_sign s1) as [[neg sg] s2].
  destruct (strtol_base base s2) as [b pre].
  destruct (digits b _ 0) as [v [|k]].
  - simpl. unfold LONG_MIN, LONG_MAX. lia.
  - unfold strtol_clamp.
    destruct (Z.gtb_spec (if neg then - v else v) LONG_MAX).
    + simpl. unfold LONG_MIN, LONG_MAX. lia.
    + destruct (Z.ltb_spec (if neg then - v else v) LONG_MIN); simpl.
      * unfold LONG_MIN, LONG_MAX. lia.
      * lia.
Qed.

Section QueryMore.

Context {P A : Type}.
Variable debug : bool.

Implicit Types (c : ctl P A) (n : ctl_node P A) (ix : indexes) (m : cstate)
  (pop : P) (qtype : ctl_query_type) (read_arg write_arg : option A).

(** [ctl_query] sees a path through its segments only. *)
Lemma ctl_query_segments c pop qtype (p1 p2 : string) read_arg write_arg m :
  segments p1 = segments p2 ->
  ctl_query debug c pop qtype p1 read_arg write_arg m
  = ctl_query debug c pop qtype p2 read_arg write_arg m.
Proof.
  intros H. unfold ctl_query, Strdup.
  destruct (Malloc m) as [[b|] m1]; [|reflexivity].
  now rewrite !ctl_query_parse_walk, H.
Qed.

(** X1. Separators that separate nothing are ignored: a dot in front of a
    path, a dot at its end and a dot next to another dot make no
    difference to what [ctl_query] does. *)
Theorem ctl_query_empty_segments c pop qtype read_arg write_arg m
    (p a b : string) :
  ctl_query debug c pop qtype ("." ++ p) read_arg write_arg m
  = ctl_query debug c pop qtype p read_arg write_arg m
  /\ ctl_query debug c pop qtype (p ++ ".") read_arg write_arg m
     = ctl_query debug c pop qtype p read_arg write_arg m
  /\ ctl_query debug c pop qtype (a ++ ".." ++ b) read_arg write_arg m
     = ctl_query debug c pop qtype (a ++ "." ++ b) read_arg write_arg m.
Proof.
  split; [|split]; apply ctl_query_segments; unfold segments.
  - now apply tokens_leading.
  - now apply tokens_trailing.
  - change (a ++ ".." ++ b)%string
      with (a ++ String "." (String "." b))%string.
    change (a ++ "." ++ b)%string with (a ++ String "." b)%string.
    rewrite !tokens_app by reflexivity.
    now rewrite tokens_leading.
Qed.

(** X2. A path without any segment, the empty path or dots only, is
    discarded: [ctl_query] returns -1 and invokes no callback, with errno
    EINVAL when the copy of the path could be made, and nothing stays
    allocated. *)
Theorem ctl_query_no_segment c pop qtype (path : string) read_arg write_arg m :
  only_delim CTL_QUERY_NODE_SEPARATOR path = true ->
  exists res,
    ctl_query debug c pop qtype path read_arg write_arg m = Returned res
    /\ ret res = -1
    /\ calls res = []
    /\ pool res = pop
    /\ live (mem res) = live m
    /\ (alloc_ok 1 m = true -> errno (mem res) = EINVAL).
Proof.
  intros Hd. unfold ctl_query, Strdup.
  destruct (Malloc m) as [[b|] m1] eqn:Ea.
  - rewrite ctl_query_parse_walk. unfold segments.
    rewrite (tokens_only_delim _ _ Hd). simpl.
    eexists. split; [reflexivity|]. simpl.
    split; [reflexivity|]. split; [reflexivity|]. split; [reflexivity|].
    split; [|reflexivity].
    apply Malloc_live in Ea. rewrite Ea. apply remove_block_head.
  - eexists. split; [reflexivity|]. simpl.
    split; [reflexivity|]. split; [reflexivity|]. split; [reflexivity|].
    split; [now apply Malloc_fail_live in Ea|].
    intros Ha. destruct (Malloc_ok 0 m Ha) as (m' & Hm & _). congruence.
Qed.

Lemma ctl_query_dispatch_shape n pop qtype read_arg write_arg ix
    (r : Z) (pop' : P) (cs : list (call A)) :
  ctl_query_invalid n read_arg write_arg = false ->
  ctl_query_dispatch n pop qtype read_arg write_arg ix
  = Returned (r, pop', cs) ->
  cs <> []
  /\ r = first_failure (map cb_ret cs)
  /\ (length cs <= 2)%nat
  /\ Forall (fun cl =>
               cb_type cl = qtype
               /\ cb_node cl = name n
               /\ match cb_kind cl with
                  | ReadCb => read_arg = Some (cb_arg cl)
                  | WriteCb => write_arg = Some (cb_arg cl)
                  end) cs
  /\ (forall cl1 cl2 rest, cs = cl1 :: cl2 :: rest ->
        cb_kind cl1 = ReadCb /\ cb_kind cl2 = WriteCb /\ cb_ret cl1 = 0).
Proof.
  unfold ctl_query_invalid, ctl_query_dispatch.
  destruct read_arg as [ra|], write_arg as [wa|];
    destruct (read_cb n) as [rcb|], (write_cb n) as [wcb|];
    simpl; try discriminate; intros _;
    try destruct (rcb pop qtype ra (map snd ix)) as [r1 pop1];
    try destruct (r1 =? 0) eqn:E0;
    try destruct (wcb pop1 qtype wa (map snd ix)) as [r2 pop2];
    try destruct (wcb pop qtype wa (map snd ix)) as [r2 pop2];
    intros H; inversion H; subst; simpl;
    (split; [discriminate|]);
    (split;
     [repeat match goal with
             | |- context [?x =? 0] => destruct (Z.eqb_spec x 0)
             end; congruence|]);
    (split; [lia|]);
    (split; [repeat constructor|]);
    intros cl1 cl2 rest Heq; inversion Heq; subst; simpl;
    repeat split; try reflexivity; now apply Z.eqb_eq.
Qed.

(** Either [ctl_query] returns before line 173, or it returns what the
    dispatch on the node of the last segment gives. *)
Lemma ctl_query_returned c pop qtype path read_arg write_arg m
    (res : query_result P A) :
  ctl_query debug c pop qtype path read_arg write_arg m = Returned res ->
  (ret res = -1 /\ calls res = [] /\ pool res = pop)
  \/ exists n ix,
       ctl_query_invalid n read_arg write_arg = false
       /\ ctl_query_dispatch n pop qtype read_arg write_arg ix
          = Returned (ret res, pool res, calls res).
Proof.
  unfold ctl_query. destruct (Strdup path m) as [[b|] m1].
  2:{ intros H; inversion H; subst. now left. }
  destruct (ctl_query_parse c path m1) as [nodes [n|] ix m2|ix m2|f|];
    try discriminate; try (intros H; inversion H; subst; now left).
  destruct (ctl_query_invalid n read_arg write_arg) eqn:Ei;
    [intros H; inversion H; subst; now left|].
  destruct (debug && _); [discriminate|].
  destruct (ctl_query_dispatch _ _ _ _ _ _) as [[[r pop'] cs]|f|] eqn:Ed;
    try discriminate.
  intros H; inversion H; subst. simpl. right. exists n, ix. now split.
Qed.

(** X3. What [ctl_query] returns, on any path and any tree: -1 with the
    pool untouched when no callback was invoked, and otherwise the first
    nonzero status among the callbacks invoked, 0 when all returned 0. So
    a query never succeeds without a callback having run. *)
Theorem ctl_query_status c pop qtype path read_arg write_arg m
    (res : query_result P A) :
  ctl_query debug c pop qtype path read_arg write_arg m = Returned res ->
  (calls res = [] /\ ret res = -1 /\ pool res = pop)
  \/ (calls res <> []
      /\ ret res = first_failure (map cb_ret (calls res))).
Proof.
  intros Hq. destruct (ctl_query_returned _ _ _ _ _ _ _ _ Hq)
    as [(Hr & Hc & Hp)|(n & ix & Hi & Hd)].
  - now left.
  - right. destruct (ctl_query_dispatch_shape _ _ _ _ _ _ _ _ _ Hi Hd)
      as (Hne & Hr & _). now split.
Qed.


Lemma index_entries_range (segs : list string) (ms : list (ctl_node P A)) :
  Forall (fun e => LONG_MIN <= idx_value e <= LONG_MAX)
    (index_entries segs ms).
Proof.
  revert ms. induction segs as [|seg segs IH]; intros [|x ms]; simpl;
    try constructor.
  destruct (valid_index seg); [constructor|]; auto.
  simpl. apply strtol_value_range.
Qed.

(** X5. The index list that a callback gets is a function of the tree and
    of the path alone: two queries for the same path on the same tree hand
    their callbacks the same index list, whatever the pool, the arguments,
    the origin and the allocator are; and every index of the list is in
    the range of long, an index out of that range having been replaced by
    LONG_MAX or LONG_MIN. *)
Theorem ctl_query_index_list_stable c (path : string)
    pop1 qtype1 ra1 wa1 m1 (res1 : query_result P A) (cl1 : call A)
    pop2 qtype2 ra2 wa2 m2 (res2 : query_result P A) (cl2 : call A) :
  ctl_query debug c pop1 qtype1 path ra1 wa1 m1 = Returned res1 ->
  ctl_query debug c pop2 qtype2 path ra2 wa2 m2 = Returned res2 ->
  In cl1 (calls res1) -> In cl2 (calls res2) ->
  cb_indexes cl1 = cb_indexes cl2
  /\ Forall (fun e => LONG_MIN <= idx_value e <= LONG_MAX) (cb_indexes cl1).
Proof.
  intros Hq1 Hq2 Hin1 Hin2.
  destruct (ctl_query_calls_walk _ _ _ _ _ _ _ _ _ _ Hq1 Hin1)
    as (a1 & nodes1 & cur1 & ix1 & b1 & Hw1 & ->).
  destruct (ctl_query_calls_walk _ _ _ _ _ _ _ _ _ _ Hq2 Hin2)
    as (a2 & nodes2 & cur2 & ix2 & b2 & Hw2 & ->).
  destruct (ctl_query_walk_done _ _ _ _ _ _ _ _ _ Hw1) as (ms1 & Hp1 & _ & ->).
  destruct (ctl_query_walk_done _ _ _ _ _ _ _ _ _ Hw2) as (ms2 & Hp2 & _ & ->).
  assert (ms1 = ms2) by congruence. subst ms2. split; [reflexivity|].
  simpl. rewrite app_nil_r. apply Forall_rev, index_entries_range.
Qed.

End QueryMore.

(** ** Further properties of the providers and of the loader *)

Lemma skip_delim_only_delim (d s : string) :
  only_delim d s = true -> skip_delim d s = EmptyString.
Proof.
  induction s as [|c s IH]; simpl; [reflexivity|].
  intros H. apply andb_prop in H as [-> Hs]. auto.
Qed.

(** X6. [ctl_string_provider_new] leaks nothing: when it returns NULL,
    the provider block included when it is the copy of the text that could
    not be made, the live blocks are those of before; and a provider that
    was made holds the text and is undone by
    [ctl_string_provider_delete]. *)
Theorem ctl_string_provider_new_delete (text : string) (m : cstate) :
  match ctl_string_provider_new text m with
  | (None, m') => live m' = live m
  | (Some sp, m') =>
      buf sp = text
      /\ live m' = buf_block sp :: self_block sp :: live m
      /\ live (ctl_string_provider_delete sp m') = live m
  end.
Proof.
  unfold ctl_string_provider_new, Strdup.
  destruct (Malloc m) as [[sp|] m1] eqn:E1.
  - apply Malloc_live in E1.
    destruct (Malloc m1) as [[copy|] m2] eqn:E2.
    + apply Malloc_live in E2. simpl. split; [reflexivity|].
      split; [congruence|]. rewrite E2, E1.
      now rewrite !remove_block_head.
    + apply Malloc_fail_live in E2. simpl. rewrite E2, E1.
      apply remove_block_head.
  - now apply Malloc_fail_live in E1.
Qed.

Section LoaderMore.

Context {P A : Type}.
Variable debug : bool.
Variable arg_of_string : string -> A.

Implicit Types (c : ctl P A) (m : cstate) (pop : P)
  (q : ctl_query_config) (cs : list (call A)).

Lemma ctl_query_live_blocks c pop qtype (path : string)
    (read_arg write_arg : option A) m (res : query_result P A) :
  ctl_query debug c pop qtype path read_arg write_arg m = Returned res ->
  live (mem res) = live m.
Proof.
  intros Hq. destruct (Strdup path m) as [[parse_str|] m1] eqn:Ea.
  - destruct (ctl_query_mem_cleanup _ _ _ _ _ _ _ _ _ _ _ Ea Hq)
      as (ix & m2 & Hlive & ->).
    exact (ctl_query_cleanup_live ix parse_str m2 (live m) Hlive).
  - rewrite (ctl_query_mem_strdup _ _ _ _ _ _ _ _ _ _ Ea Hq).
    exact (Malloc_fail_live _ _ Ea).
Qed.

Lemma ctl_load_config_loop_inv {S : Type} (fuel : nat) c
    (p : ctl_query_provider S) (s : S) (r : Z) q pop m cs
    (s' : S) (res : query_result P A) :
  ctl_load_config_loop debug arg_of_string fuel c p s r q pop m cs
  = Returned (s', res) ->
  live (mem res) = live m
  /\ (Forall config_write cs -> Forall config_write (calls res))
  /\ (exists more, calls res = (cs ++ more)%list)
  /\ (calls res = cs -> pool res = pop).
Proof.
  revert s r q pop m cs. induction fuel as [|fuel IH];
    intros s r q pop m cs; simpl.
  - destruct (r =? 0); [discriminate|].
    intros H; inversion H; subst; simpl.
    repeat split; auto. exists []. now rewrite app_nil_r.
  - destruct (r =? 0).
    2:{ intros H; inversion H; subst; simpl.
        repeat split; auto. exists []. now rewrite app_nil_r. }
    unfold ctl_exec_query_config. destruct (q_name q) as [nm|];
      [|discriminate].
    destruct (ctl_query debug c pop CTL_QUERY_CONFIG_INPUT nm None
                (option_map arg_of_string (q_value q)) m) as [qres|f|] eqn:Eq;
      try discriminate.
    pose proof (ctl_query_live_blocks _ _ _ _ _ _ _ _ Eq) as Hlive.
    assert (Hw : Forall config_write (calls qres)).
    { apply Forall_forall. intros cl Hin.
      apply list_elem_of_In in Hin.
      destruct (ctl_query_write_only _ _ _ _ _ _ _ _ _ Eq Hin)
        as (Hk & _ & Ht).
      now split. }
    assert (Hp : calls qres = [] -> pool qres = pop).
    { intros Hc. destruct (ctl_query_returned _ _ _ _ _ _ _ _ _ Eq)
        as [(_ & _ & Hpp)|(n & ix & Hi & Hd)]; [exact Hpp|].
      destruct (ctl_query_dispatch_shape _ _ _ _ _ _ _ _ _ Hi Hd)
        as (Hne & _). contradiction. }
    destruct (negb (ret qres =? 0)).
    + intros H; inversion H; subst; simpl. split; [exact Hlive|].
      split; [intros Hcs; apply Forall_app; now split|].
      split; [now exists (calls qres)|].
      intros Hc. apply Hp.
      apply (f_equal (@length _)) in Hc. rewrite length_app in Hc.
      destruct (calls qres); [reflexivity|simpl in Hc; lia].
    + destruct (next S p s q) as [[r' q'] s1].
      intros H. destruct (IH _ _ _ _ _ _ H) as (H1 & H2 & (more & H3) & H4).
      split; [congruence|].
      split; [intros Hcs; apply H2, Forall_app; now split|].
      split; [exists (calls qres ++ more)%list; now rewrite app_assoc|].
      intros Hc. rewrite Hc in H3.
      assert (Hnil : calls qres = []).
      { apply (f_equal (@length _)) in H3. rewrite !length_app in H3.
        destruct (calls qres); [reflexivity|simpl in H3; lia]. }
      rewrite H4; [now apply Hp|]. now rewrite Hc, Hnil, app_nil_r.
Qed.

(** X7. Whatever the provider, when [ctl_load_config] returns, nothing
    that its queries allocated is still allocated, and every callback that
    was invoked is a write callback that was given the origin
    CTL_QUERY_CONFIG_INPUT: a config load never reads; and when it invoked
    no callback at all the pool is as it was. *)
Theorem ctl_load_config_effects {S : Type} (fuel : nat) c pop
    (p : ctl_query_provider S) (s s' : S) m (res : query_result P A) :
  ctl_load_config debug arg_of_string fuel c pop p s m = Returned (s', res) ->
  live (mem res) = live m
  /\ Forall (fun cl => cb_kind cl = WriteCb
                       /\ cb_type cl = CTL_QUERY_CONFIG_INPUT) (calls res)
  /\ (calls res = [] -> pool res = pop).
Proof.
  unfold ctl_load_config.
  destruct (first S p s {| q_name := None; q_value := None |})
    as [[r q] s1].
  destruct (ctl_load_config_loop _ _ _ _ _ _ _ _ _ _ _) as [[s2 lres]|f|] eqn:El;
    try discriminate.
  intros H; inversion H; subst; simpl.
  destruct (ctl_load_config_loop_inv _ _ _ _ _ _ _ _ _ _ _ El)
    as (H1 & H2 & _ & H4).
  split; [exact H1|]. split; [apply H2; constructor|exact H4].
Qed.

(** X8. A config text without any entry, the empty text or separators
    only, loads successfully at once: the loader returns 0 without a
    query, whatever fuel it is given. *)
Theorem ctl_load_config_no_entry (fuel : nat) c pop
    (sp : ctl_string_provider) m :
  only_delim CTL_STRING_QUERY_SEPARATOR (buf sp) = true ->
  ctl_load_config debug arg_of_string fuel c pop string_provider sp m
  = Returned (set_sptr sp EmptyString,
              {| ret := 0; pool := pop; mem := m; calls := [] |}).
Proof.
  intros Hd. unfold ctl_load_config. cbn [first string_provider].
  unfold ctl_string_provider_first, strtok_r.
  rewrite (skip_delim_only_delim _ _ Hd). simpl.
  destruct fuel; reflexivity.
Qed.

End LoaderMore.

(** ** Further properties of the root array and of registration *)

Section RootMore.

Context {P A : Type}.
Variable debug : bool.

Implicit Types (c : ctl P A) (n x y e : ctl_node P A) (ix : indexes)
  (m : cstate) (l : list (ctl_node P A)).

(** Where the scan of an array stops: on the first entry that ends the
    array or that the segment matches. *)
Lemma ctl_scan_spec (idx : bool) (seg : string) l n :
  ctl_scan idx seg l = Some n
  <-> exists k : nat,
        l !! k = Some n
        /\ (name n = None \/ node_matches idx seg n = true)
        /\ forall (j : nat) y,
             (j < k)%nat -> l !! j = Some y -> passed_over idx seg y.
Proof.
  revert n. induction l as [|y l IH]; intros n; simpl.
  - split; [discriminate|]. intros (k & Hk & _). now destruct k.
  - destruct (name y) as [nm|] eqn:Ey.
    + destruct (idx && ctl_node_type_eqb (type y) CTL_NODE_INDEXED) eqn:Ei;
        [|destruct (strcmp nm seg =? 0) eqn:Es];
        pose proof (node_matches_scan idx seg y nm Ey) as Hm;
        rewrite Ei in Hm; try rewrite Es in Hm; simpl in Hm.
      * split.
        -- intros H; inversion H; subst. exists O.
           split; [reflexivity|]. split; [now right|]. intros j y0 Hj. lia.
        -- intros ([|k] & Hk & Hc & Hpre).
           ++ now simpl in Hk.
           ++ destruct (Hpre O y ltac:(lia) eq_refl) as [_ Hno]. congruence.
      * split.
        -- intros H; inversion H; subst. exists O.
           split; [reflexivity|]. split; [now right|]. intros j y0 Hj. lia.
        -- intros ([|k] & Hk & Hc & Hpre).
           ++ now simpl in Hk.
           ++ destruct (Hpre O y ltac:(lia) eq_refl) as [_ Hno]. congruence.
      * rewrite IH. split.
        -- intros (k & Hk & Hc & Hpre). exists (S k).
           split; [exact Hk|]. split; [exact Hc|].
           intros [|j] y0 Hj Hy.
           ++ simpl in Hy. inversion Hy; subst.
              split; [congruence|exact Hm].
           ++ apply (Hpre j); [lia|exact Hy].
        -- intros ([|k] & Hk & Hc & Hpre).
           ++ simpl in Hk. inversion Hk; subst.
              destruct Hc as [Hc|Hc]; congruence.
           ++ exists k. split; [exact Hk|]. split; [exact Hc|].
              intros j y0 Hj Hy. apply (Hpre (S j)); [lia|exact Hy].
    + split.
      * intros H; inversion H; subst. exists O.
        split; [reflexivity|]. split; [now left|]. intros j y0 Hj. lia.
      * intros ([|k] & Hk & Hc & Hpre).
        -- now simpl in Hk.
        -- destruct (Hpre O y ltac:(lia) eq_refl) as [Hno _]. congruence.
Qed.

(** The scan of an array that holds an entry with a NULL name stops
    inside the array. *)
Lemma ctl_scan_terminated (idx : bool) (seg : string) l (i : nat) e :
  l !! i = Some e -> name e = None ->
  exists n (k : nat),
    ctl_scan idx seg l = Some n /\ (k <= i)%nat /\ l !! k = Some n.
Proof.
  revert i. induction l as [|y l IH]; intros i Hi He; [now destruct i|].
  simpl. destruct (name y) as [nm|] eqn:Ey.
  - destruct (idx && _); [exists y, O; repeat split; lia|].
    destruct (strcmp nm seg =? 0); [exists y, O; repeat split; lia|].
    destruct i as [|i]; [simpl in Hi; congruence|].
    destruct (IH i Hi He) as (n & k & Hs & Hk & Hl).
    exists n, (S k). repeat split; [exact Hs|lia|exact Hl].
  - exists y, O. repeat split; lia.
Qed.

Lemma registered_root_lookup c (i : nat) :
  registered_root c -> (Z.of_nat i < CTL_MAX_ENTRIES) ->
  exists n, root c !! i = Some n.
Proof.
  intros (Hlen & _) Hi. apply lookup_lt_is_Some_2. rewrite Hlen.
  unfold CTL_MAX_ENTRIES in *. lia.
Qed.

Lemma registered_root_new m c m' :
  ctl_new m = Returned (c, m') -> registered_root c /\ first_free c = 0.
Proof.
  unfold ctl_new. destruct (Malloc m) as [[b|] m1]; [|discriminate].
  intros H.
  assert (Hc : c = {| root := replicate (Z.to_nat CTL_MAX_ENTRIES)
                                CTL_NODE_END;
                      first_free := 0 |}) by congruence.
  rewrite Hc. clear H Hc. split; [|reflexivity].
  unfold registered_root. cbn [root first_free].
  split; [apply length_replicate|].
  split; [unfold CTL_MAX_ENTRIES; lia|].
  intros i n Hn. apply lookup_replicate in Hn as [-> _].
  split; [reflexivity|]. split; [reflexivity|]. split; [lia|reflexivity].
Qed.

Lemma registered_root_register c (nm : string)
    (kids : option (list (ctl_node P A))) m :
  registered_root c -> first_free c < CTL_MAX_ENTRIES ->
  exists c' m',
    ctl_register_module_node c nm kids m = Returned (c', m')
    /\ registered_root c'
    /\ first_free c' = first_free c + 1
    /\ root c'
       = <[Z.to_nat (first_free c) :=
             {| name := if alloc_ok 1 m then Some nm else None;
                type := CTL_NODE_NAMED; read_cb := None; write_cb := None;
                children := kids |}]> (root c).
Proof.
  intros (Hlen & Hff & Hall) Hlt. unfold ctl_register_module_node.
  assert (Hb : (first_free c <? 0) || (CTL_MAX_ENTRIES <=? first_free c)
               = false).
  { apply orb_false_intro; [apply Z.ltb_ge|apply Z.leb_gt]; lia. }
  rewrite Hb. simpl root.
  assert (Hi : (Z.to_nat (first_free c) < length (root c))%nat).
  { rewrite Hlen. apply Z2Nat.inj_lt; lia. }
  destruct (lookup_lt_is_Some_2 _ _ Hi) as [old Hold]. rewrite Hold.
  destruct (Hall _ _ Hold) as (Hr & Hw & _).
  assert (Hcopy : forall copy m',
             Strdup nm m = (copy, m') ->
             match copy with Some _ => Some nm | None => None end
             = if alloc_ok 1 m then Some nm else None).
  { unfold Strdup, Malloc, alloc_ok.
    destruct (oom m) as [|[] later]; intros copy m' H; inversion H;
      reflexivity. }
  destruct (Strdup nm m) as [copy m'] eqn:Es.
  rewrite (Hcopy _ _ eq_refl), Hr, Hw.
  eexists _, m'. split; [reflexivity|].
  split; [|split; reflexivity].
  unfold registered_root. cbn [root first_free].
  split; [now rewrite length_insert|]. split; [lia|].
  intros i n Hn.
  destruct (Nat.eq_dec (Z.to_nat (first_free c)) i) as [<-|Hne].
  - rewrite list_lookup_insert_eq in Hn by exact Hi.
    inversion Hn; subst. cbn [read_cb write_cb type].
    split; [reflexivity|]. split; [reflexivity|]. split; [reflexivity|].
    lia.
  - rewrite list_lookup_insert_ne in Hn by exact Hne.
    destruct (Hall _ _ Hn) as (H1 & H2 & H3 & H4).
    repeat split; auto.
    + intros Hx. apply H3. lia.
    + intros Hx. apply H4. lia.
Qed.

Lemma ctl_register_modules_room
    (mods : list (string * option (list (ctl_node P A)))) c m :
  registered_root c ->
  if first_free c + Z.of_nat (length mods) <=? CTL_MAX_ENTRIES
  then exists c' m',
         ctl_register_modules mods c m = Returned (c', m')
         /\ registered_root c'
         /\ first_free c' = first_free c + Z.of_nat (length mods)
  else ctl_register_modules mods c m = Fault OutOfBounds.
Proof.
  revert c m. induction mods as [|[nm kids] mods IH]; intros c m Hc.
  - cbn [ctl_register_modules length].
    destruct (Z.leb_spec (first_free c + Z.of_nat 0) CTL_MAX_ENTRIES).
    + exists c, m. split; [reflexivity|]. split; [exact Hc|]. lia.
    + destruct Hc as (_ & Hff & _). lia.
  - cbn [ctl_register_modules length].
    destruct (Z.ltb_spec (first_free c) CTL_MAX_ENTRIES) as [Hlt|Hge].
    + destruct (registered_root_register c nm kids m Hc Hlt)
        as (c1 & m1 & -> & Hc1 & Hf1 & _).
      specialize (IH c1 m1 Hc1). rewrite Hf1 in IH.
      replace (first_free c + Z.of_nat (S (length mods)))
        with (first_free c + 1 + Z.of_nat (length mods)) by lia.
      destruct (_ <=? _); [|exact IH].
      destruct IH as (c' & m' & H1 & H2 & H3). exists c', m'. auto.
    + destruct (Z.leb_spec (first_free c + Z.of_nat (S (length mods)))
                  CTL_MAX_ENTRIES); [lia|].
      unfold ctl_register_module_node.
      replace ((first_free c <? 0) || (CTL_MAX_ENTRIES <=? first_free c))
        with true; [reflexivity|].
      symmetry. apply orb_true_iff. right. apply Z.leb_le. lia.
Qed.

(** X9. A new tree takes CTL_MAX_ENTRIES modules and no more: registering
    a list of modules on the tree that [ctl_new] made returns exactly when
    the list has at most CTL_MAX_ENTRIES modules, and then [first_free] is
    the number of modules, no entry of the root array has a callback, the
    entries below [first_free] are of the Named kind and the entries from
    [first_free] on are still zero; with a longer list the registration
    stores past the end of the root array. *)
Theorem ctl_register_modules_capacity
    (mods : list (string * option (list (ctl_node P A)))) m0 c0 m1 :
  ctl_new m0 = Returned (c0, m1) ->
  if Z.of_nat (length mods) <=? CTL_MAX_ENTRIES
  then exists c m,
         ctl_register_modules mods c0 m1 = Returned (c, m)
         /\ registered_root c
         /\ first_free c = Z.of_nat (length mods)
  else ctl_register_modules mods c0 m1 = Fault OutOfBounds.
Proof.
  intros Hn. destruct (registered_root_new _ _ _ Hn) as [Hc Hf].
  pose proof (ctl_register_modules_room mods c0 m1 Hc) as H.
  rewrite Hf in H. exact H.
Qed.

Lemma ctl_scan_insert_beyond (idx : bool) (seg : string) l (i j : nat) e x :
  l !! i = Some e -> name e = None -> (i < j)%nat ->
  ctl_scan idx seg (<[j:=x]> l) = ctl_scan idx seg l.
Proof.
  revert i j. induction l as [|y l IH]; intros i j Hi He Hij; [reflexivity|].
  destruct j as [|j]; [lia|]. simpl.
  destruct (name y) as [nm|] eqn:Ey; [|reflexivity].
  destruct (idx && _); [reflexivity|].
  destruct (strcmp nm seg =? 0); [reflexivity|].
  destruct i as [|i]; [simpl in Hi; congruence|].
  apply (IH i j Hi He). lia.
Qed.

Lemma ctl_scan_insert_after (idx : bool) (seg : string) l (i : nat) e x n :
  ctl_scan idx seg l = Some n -> name n <> None ->
  l !! i = Some e -> name e = None ->
  ctl_scan idx seg (<[i:=x]> l) = Some n.
Proof.
  revert i. induction l as [|y l IH]; intros i Hs Hn Hi He; [discriminate|].
  destruct i as [|i].
  - simpl in Hi. inversion Hi; subst. simpl in Hs. rewrite He in Hs.
    inversion Hs; subst. contradiction.
  - simpl in *. destruct (name y) as [nm|] eqn:Ey; [|exact Hs].
    destruct (idx && _); [exact Hs|].
    destruct (strcmp nm seg =? 0); [exact Hs|].
    now apply IH.
Qed.

(** Putting a NULL name where there was one changes nothing for the body
    of the loop. *)
Lemma ctl_query_step_insert_null l (i : nat) e x (tok : string) ix m :
  l !! i = Some e -> name e = None -> name x = None ->
  ctl_query_step (Some (<[i:=x]> l)) tok ix m
  = ctl_query_step (Some l) tok ix m.
Proof.
  intros Hi He Hx. unfold ctl_query_step.
  destruct (ctl_query_index tok ix m) as [m'|[[idx ix'] m']]; [reflexivity|].
  revert i Hi. induction l as [|y l IH]; intros i Hi; [reflexivity|].
  destruct i as [|i].
  - simpl in Hi. inversion Hi; subst. simpl. now rewrite He, Hx, He, Hx.
  - simpl. destruct (name y) as [nm|] eqn:Ey; [|reflexivity].
    destruct (idx && _); [reflexivity|].
    destruct (strcmp nm tok =? 0) eqn:Es; [reflexivity|].
    now apply IH.
Qed.

(** Two trees on which the body of the loop does the same for the first
    segment of a path answer the query for that path alike. *)
Lemma ctl_query_first_step c1 c2 pop qtype (path : string)
    (read_arg write_arg : option A) m :
  (forall seg rest ix m',
     segments path = seg :: rest ->
     ctl_query_step (Some (root c1)) seg ix m'
     = ctl_query_step (Some (root c2)) seg ix m') ->
  ctl_query debug c1 pop qtype path read_arg write_arg m
  = ctl_query debug c2 pop qtype path read_arg write_arg m.
Proof.
  intros H. unfold ctl_query.
  destruct (Strdup path m) as [[b|] m1]; [|reflexivity].
  rewrite !ctl_query_parse_walk.
  destruct (segments path) as [|seg rest]; [reflexivity|].
  simpl. now rewrite (H seg rest [] m1 eq_refl).
Qed.

(** X10. The name of a module alone is no query: on a tree of the shape
    that registration builds, with room left in the root array, a path of
    a single segment always comes back with -1 and without a callback
    having been invoked, whatever the segment and the arguments are. *)
Theorem ctl_query_module_name c pop qtype (path seg : string)
    (read_arg write_arg : option A) m :
  registered_root c -> first_free c < CTL_MAX_ENTRIES ->
  segments path = [seg] ->
  exists res,
    ctl_query debug c pop qtype path read_arg write_arg m = Returned res
    /\ ret res = -1
    /\ calls res = []
    /\ pool res = pop.
Proof.
  intros Hc Hlt Hseg. unfold ctl_query.
  destruct (Strdup path m) as [[b|] m1]; [|eexists; repeat split].
  rewrite ctl_query_parse_walk, Hseg. simpl. unfold ctl_query_step.
  destruct (ctl_query_index seg [] m1) as [m'|[[idx ix'] m']];
    [eexists; repeat split|].
  destruct (registered_root_lookup c (Z.to_nat (first_free c)) Hc)
    as [e He]; [destruct Hc as (_ & Hff & _); lia|].
  assert (Hend : e = CTL_NODE_END).
  { destruct Hc as (_ & Hff & Hall). apply (Hall _ _ He). lia. }
  destruct (ctl_scan_terminated idx seg (root c) _ e He)
    as (n & k & -> & _ & Hk); [now rewrite Hend|].
  destruct Hc as (_ & _ & Hall). destruct (Hall _ _ Hk) as (Hr & Hw & _).
  destruct (name n); [|eexists; repeat split].
  replace (ctl_query_invalid n read_arg write_arg) with true.
  - eexists; repeat split.
  - unfold ctl_query_invalid. rewrite Hr, Hw.
    now destruct read_arg, write_arg.
Qed.

(** X11. On a tree of the shape that registration builds, with room left
    in the root array, in which every module registered before has got the
    copy of its name and none of them bears the name [nm]: when the copy of
    the name is made, the module that is registered under [nm] is found.
    The scan of the root array for [nm] stops on the new entry, with and
    without a pending index; and the walk of a path that starts with [nm]
    goes on in the children that were registered, for a name that does not
    start with a number as it is, and for a name that starts with a number
    once the index entry is allocated, which then bears the name [nm]. *)
Theorem ctl_register_module_node_found c (nm : string)
    (kids : option (list (ctl_node P A))) m :
  registered_root c -> first_free c < CTL_MAX_ENTRIES ->
  alloc_ok 1 m = true ->
  (forall (j : nat) y, Z.of_nat j < first_free c -> root c !! j = Some y ->
     name y <> None /\ name y <> Some nm) ->
  exists c' m' nnode,
    ctl_register_module_node c nm kids m = Returned (c', m')
    /\ name nnode = Some nm
    /\ children nnode = kids
    /\ (forall idx, ctl_scan idx nm (root c') = Some nnode)
    /\ (forall rest cur ix m2,
          valid_index nm = false ->
          ctl_query_walk (nm :: rest) (Some (root c')) cur ix m2
          = ctl_query_walk rest kids (Some nnode) ix m2)
    /\ (forall rest cur ix m2,
          valid_index nm = true -> alloc_ok 1 m2 = true ->
          exists m3,
            ctl_query_walk (nm :: rest) (Some (root c')) cur ix m2
            = ctl_query_walk rest kids (Some nnode)
                ((brk m2, {| idx_name := Some nm;
                             idx_value := sl_value (strtol nm 0) |}) :: ix)
                m3).
Proof.
  intros Hc Hlt Ha Hnames.
  destruct (registered_root_register c nm kids m Hc Hlt)
    as (c' & m' & Hreg & Hc' & Hf' & Hroot).
  rewrite Ha in Hroot.
  set (nnode := {| name := Some nm; type := CTL_NODE_NAMED; read_cb := None;
                   write_cb := None; children := kids |}) in *.
  exists c', m', nnode. split; [exact Hreg|]. split; [reflexivity|].
  split; [reflexivity|].
  assert (Hi : (Z.to_nat (first_free c) < length (root c))%nat).
  { destruct Hc as (Hlen & Hff & _). rewrite Hlen.
    apply Z2Nat.inj_lt; lia. }
  assert (Hscan : forall idx, ctl_scan idx nm (root c') = Some nnode).
  { intros idx. apply ctl_scan_spec. exists (Z.to_nat (first_free c)).
    rewrite Hroot. split; [now apply list_lookup_insert_eq|].
    split.
    - right. unfold node_matches. simpl. rewrite String.eqb_refl.
      apply orb_true_r.
    - intros j y Hj Hy. rewrite list_lookup_insert_ne in Hy by lia.
      destruct Hc as (_ & Hff & Hall).
      destruct (Hall _ _ Hy) as (_ & _ & Hty & _).
      destruct (Hnames j y ltac:(lia) Hy) as [Hn1 Hn2].
      split; [exact Hn1|]. unfold node_matches.
      rewrite Hty by lia. simpl. rewrite andb_false_r. simpl.
      destruct (name y) as [ny|]; [|reflexivity].
      apply String.eqb_neq. congruence. }
  split; [exact Hscan|]. split.
  - intros rest cur ix m2 Hv. simpl. unfold ctl_query_step.
    rewrite (ctl_query_index_name nm ix m2 Hv), Hscan. reflexivity.
  - intros rest cur ix m2 Hv Ha2. simpl. unfold ctl_query_step.
    pose proof (ctl_query_index_cases nm ix m2) as Hi2.
    destruct (ctl_query_index nm ix m2) as [m3|[[idx ix'] m3]].
    + destruct Hi2 as [_ Hi2]. congruence.
    + destruct Hi2 as (-> & -> & _). rewrite Hv, Hscan.
      exists m3. reflexivity.
Qed.

(** X12. Registration leaves the modules that are there as they are: a
    path whose first segment the scan of the root array matches gets the
    same answer after another module has been registered. *)
Theorem ctl_register_module_node_keeps c (nm : string)
    (kids : option (list (ctl_node P A))) m0 c' m0'
    pop qtype (path seg : string) (rest : list string) n
    (read_arg write_arg : option A) m :
  registered_root c -> first_free c < CTL_MAX_ENTRIES ->
  ctl_register_module_node c nm kids m0 = Returned (c', m0') ->
  segments path = seg :: rest ->
  ctl_scan (valid_index seg) seg (root c) = Some n -> name n <> None ->
  ctl_query debug c' pop qtype path read_arg write_arg m
  = ctl_query debug c pop qtype path read_arg write_arg m.
Proof.
  intros Hc Hlt Hreg Hseg Hscan Hn.
  destruct (registered_root_register c nm kids m0 Hc Hlt)
    as (c1 & m1 & Hreg1 & _ & _ & Hroot).
  assert (c1 = c') by congruence. subst c1.
  destruct (registered_root_lookup c (Z.to_nat (first_free c)) Hc)
    as [e He]; [destruct Hc as (_ & Hff & _); lia|].
  assert (Hend : name e = None).
  { destruct Hc as (_ & Hff & Hall).
    destruct (Hall _ _ He) as (_ & _ & _ & H4). now rewrite H4 by lia. }
  apply ctl_query_first_step. intros seg' rest' ix m' Hseg'.
  rewrite Hseg in Hseg'. inversion Hseg'; subst seg' rest'.
  unfold ctl_query_step.
  destruct (ctl_query_index seg ix m') as [m2|[[idx ix'] m2]] eqn:Ei;
    [reflexivity|].
  apply ctl_query_index_flag in Ei. subst idx.
  rewrite Hroot, Hscan.
  now rewrite (ctl_scan_insert_after _ _ _ _ e _ n Hscan Hn He Hend).
Qed.

(** X13. A registration whose copy of the name cannot be made hides the
    module, and with it every module registered after it: the entry gets a
    NULL name, which ends the root array, so that the tree answers every
    query as it did before, also after a further module has been
    registered. *)
Theorem ctl_register_module_node_hidden c (nm nm2 : string)
    (kids kids2 : option (list (ctl_node P A))) m0 c1 m1 c2 m2
    pop qtype (path : string) (read_arg write_arg : option A) m :
  registered_root c -> first_free c + 1 < CTL_MAX_ENTRIES ->
  alloc_ok 1 m0 = false ->
  ctl_register_module_node c nm kids m0 = Returned (c1, m1) ->
  ctl_register_module_node c1 nm2 kids2 m1 = Returned (c2, m2) ->
  ctl_query debug c1 pop qtype path read_arg write_arg m
  = ctl_query debug c pop qtype path read_arg write_arg m
  /\ ctl_query debug c2 pop qtype path read_arg write_arg m
     = ctl_query debug c pop qtype path read_arg write_arg m.
Proof.
  intros Hc Hlt Ha Hreg1 Hreg2.
  destruct (registered_root_register c nm kids m0 Hc ltac:(lia))
    as (c1' & m1' & Hr1 & Hc1 & Hf1 & Hroot1).
  assert (c1' = c1) by congruence. subst c1'.
  destruct (registered_root_register c1 nm2 kids2 m1 Hc1 ltac:(lia))
    as (c2' & m2' & Hr2 & _ & _ & Hroot2).
  assert (c2' = c2) by congruence. subst c2'.
  rewrite Ha in Hroot1.
  destruct (registered_root_lookup c (Z.to_nat (first_free c)) Hc)
    as [e He]; [destruct Hc as (_ & Hff & _); lia|].
  assert (Hend : name e = None).
  { destruct Hc as (_ & Hff & Hall).
    destruct (Hall _ _ He) as (_ & _ & _ & H4). now rewrite H4 by lia. }
  assert (Hi : (Z.to_nat (first_free c) < length (root c))%nat).
  { destruct Hc as (Hlen & Hff & _). rewrite Hlen.
    apply Z2Nat.inj_lt; lia. }
  assert (H1 : ctl_query debug c1 pop qtype path read_arg write_arg m
               = ctl_query debug c pop qtype path read_arg write_arg m).
  { apply ctl_query_first_step. intros seg rest ix m' _.
    rewrite Hroot1.
    now apply (ctl_query_step_insert_null _ _ e). }
  split; [exact H1|]. rewrite <- H1.
  apply ctl_query_first_step. intros seg rest ix m' _.
  unfold ctl_query_step.
  destruct (ctl_query_index seg ix m') as [m3|[[idx ix'] m3]]; [reflexivity|].
  rewrite Hroot2.
  assert (Hx : root c1 !! Z.to_nat (first_free c)
               = Some {| name := None; type := CTL_NODE_NAMED;
                         read_cb := None; write_cb := None;
                         children := kids |})
    by (rewrite Hroot1; now apply list_lookup_insert_eq).
  rewrite (ctl_scan_insert_beyond idx seg (root c1) _
             (Z.to_nat (first_free c1)) _ _ Hx eq_refl); [reflexivity|].
  rewrite Hf1. destruct Hc as (_ & Hff & _). lia.
Qed.

End RootMore.

(** ** Further properties: decimal indexes *)

Lemma code_digit_char (d : Z) : 0 <= d <= 9 -> code (digit_char d) = 48 + d.
Proof.
  intros Hd. unfold code, digit_char. rewrite N_ascii_embedding.
  - apply Z2N.id. lia.
  - apply N2Z.inj_lt. rewrite Z2N.id by lia. simpl. lia.
Qed.

Lemma digit_char_not (d : Z) (c : ascii) :
  0 <= d <= 9 -> code c < 48 -> Ascii.eqb (digit_char d) c = false.
Proof.
  intros Hd Hc. destruct (Ascii.eqb_spec (digit_char d) c) as [He|]; trivial.
  pose proof (code_digit_char d Hd) as H. rewrite He in H. lia.
Qed.

Lemma digit_value_digit_char (d : Z) :
  0 <= d <= 9 -> digit_value (digit_char d) = Some d.
Proof.
  intros Hd. unfold digit_value. rewrite (code_digit_char d Hd).
  replace (48 <=? 48 + d) with true by (symmetry; apply Z.leb_le; lia).
  replace (48 + d <=? 57) with true by (symmetry; apply Z.leb_le; lia).
  simpl. f_equal. lia.
Qed.

Lemma decimal_length (ds : list Z) :
  String.length (decimal ds) = length ds.
Proof. induction ds as [|d ds IH]; simpl; congruence. Qed.

Lemma decimal_value_mono (ds : list Z) (acc : Z) :
  Forall (fun x => 0 <= x <= 9) ds -> 0 <= acc ->
  acc <= decimal_value ds acc.
Proof.
  intros H. revert acc. induction H as [|d ds Hd _ IH]; intros acc Ha; simpl.
  - lia.
  - specialize (IH (acc * 10 + d) ltac:(lia)). lia.
Qed.

Lemma digits_decimal (ds : list Z) (acc : Z) :
  Forall (fun x => 0 <= x <= 9) ds ->
  digits 10 (decimal ds) acc = (decimal_value ds acc, length ds).
Proof.
  intros H. revert acc. induction H as [|d ds Hd _ IH]; intros acc; simpl.
  - reflexivity.
  - rewrite (digit_value_digit_char d Hd).
    replace (d <? 10) with true by (symmetry; apply Z.ltb_lt; lia).
    now rewrite IH.
Qed.

Lemma hex_prefix_no_zero (z : ascii) (r : string) :
  Ascii.eqb z "0" = false -> hex_prefix (String z r) = false.
Proof. intros H. destruct r as [|x [|d t]]; simpl; now rewrite ?H. Qed.

(** What [strtol] reads in a decimal numeral without a leading zero. *)
Lemma strtol_decimal (d : Z) (ds : list Z) :
  1 <= d <= 9 -> Forall (fun x => 0 <= x <= 9) ds ->
  decimal_value (d :: ds) 0 <= LONG_MAX ->
  strtol (decimal (d :: ds)) 0
  = {| sl_value := decimal_value (d :: ds) 0;
       sl_endptr := length (d :: ds);
       sl_erange := false |}.
Proof.
  intros Hd Hds Hmax.
  assert (Hd9 : 0 <= d <= 9) by lia.
  assert (Hall : Forall (fun x => 0 <= x <= 9) (d :: ds)) by now constructor.
  pose proof (code_digit_char d Hd9) as Hcode.
  unfold strtol. cbn [decimal skip_space].
  replace (isspace (digit_char d)) with false.
  2:{ symmetry. unfold isspace. rewrite Hcode.
      apply orb_false_intro; [apply Z.eqb_neq; lia|].
      apply andb_false_intro2. apply Z.leb_gt. lia. }
  cbn [skip_sign].
  rewrite (digit_char_not d "-" Hd9) by (vm_compute; reflexivity).
  rewrite (digit_char_not d "+" Hd9) by (vm_compute; reflexivity).
  assert (Hz : Ascii.eqb (digit_char d) "0" = false).
  { destruct (Ascii.eqb_spec (digit_char d) "0") as [He|]; trivial.
    assert (H0 : code "0" = 48) by reflexivity.
    rewrite He in Hcode. lia. }
  unfold strtol_base. rewrite (hex_prefix_no_zero _ _ Hz).
  cbn [leading_zero]. rewrite Hz. simpl andb. change (0 =? 0) with true.
  cbv iota. cbn [Nat.eqb].
  change (String (digit_char d) (decimal ds)) with (decimal (d :: ds)).
  rewrite (digits_decimal (d :: ds) 0 Hall). cbn [length].
  unfold strtol_clamp.
  pose proof (decimal_value_mono (d :: ds) 0 Hall ltac:(lia)) as Hge.
  replace (decimal_value (d :: ds) 0 >? LONG_MAX) with false
    by (symmetry; rewrite Z.gtb_ltb; apply Z.ltb_ge; lia).
  replace (decimal_value (d :: ds) 0 <? LONG_MIN) with false
    by (symmetry; apply Z.ltb_ge; unfold LONG_MIN; lia).
  reflexivity.
Qed.

(** X14. A segment that is the decimal numeral of a number of the range
    of long, written without a leading zero, is an index segment as a
    whole, and the index that is recorded for it is that number. *)
Theorem ctl_query_index_decimal (d : Z) (ds : list Z) (ix : list (nat * ctl_index))
    (m : cstate) :
  1 <= d <= 9 -> Forall (fun x => 0 <= x <= 9) ds ->
  decimal_value (d :: ds) 0 <= LONG_MAX ->
  alloc_ok 1 m = true ->
  fully_numeric (decimal (d :: ds)) = true
  /\ exists m',
       ctl_query_index (decimal (d :: ds)) ix m
       = inr (true,
              (brk m, {| idx_name := None;
                         idx_value := decimal_value (d :: ds) 0 |}) :: ix,
              m')
       /\ errno m' = errno m.
Proof.
  intros Hd Hds Hmax Ha.
  pose proof (strtol_decimal d ds Hd Hds Hmax) as Hs.
  split.
  - unfold fully_numeric. rewrite Hs, decimal_length. simpl.
    now rewrite Nat.eqb_refl.
  - destruct (ctl_query_index_number 0 (decimal (d :: ds)) ix m)
      as (m' & Hi & _ & _ & He).
    + unfold valid_index. now rewrite Hs.
    + now rewrite Hs.
    + exact Ha.
    + exists m'. rewrite Hs in Hi. now split.
Qed.

(** ** Further properties: the round trip of a config text *)

Lemma no_delim_app (d a b : string) :
  no_delim d (a ++ b) = no_delim d a && no_delim d b.
Proof.
  induction a as [|c a IH]; simpl; [reflexivity|].
  now rewrite IH, andb_assoc.
Qed.

Lemma split_token_no_delim (d s : string) :
  no_delim d s = true -> split_token d s = (s, EmptyString).
Proof.
  induction s as [|c s IH]; simpl; [reflexivity|].
  intros H. apply andb_prop in H as [Hc Hs].
  apply negb_true_iff in Hc. rewrite Hc, (IH Hs). reflexivity.
Qed.

Lemma split_token_app_delim (d a : string) (c : ascii) (b : string) :
  no_delim d a = true -> is_delim d c = true ->
  split_token d (a ++ String c b) = (a, b).
Proof.
  intros Ha Hc. induction a as [|x a IH]; simpl.
  - now rewrite Hc.
  - simpl in Ha. apply andb_prop in Ha as [Hx Ha].
    apply negb_true_iff in Hx. rewrite Hx, (IH Ha). reflexivity.
Qed.

(** strtok_r on a token that is followed by a separator. *)
Lemma strtok_r_token (d a : string) (c : ascii) (b : string) :
  a <> EmptyString -> no_delim d a = true -> is_delim d c = true ->
  strtok_r None d (a ++ String c b) = (Some a, b).
Proof.
  intros Hne Ha Hc. unfold strtok_r. destruct a as [|x a]; [contradiction|].
  pose proof Ha as Ha'. simpl in Ha'. apply andb_prop in Ha' as [Hx _].
  apply negb_true_iff in Hx.
  change (String x a ++ String c b)%string
    with (String x (a ++ String c b)).
  simpl skip_delim. rewrite Hx.
  change (String x (a ++ String c b))
    with (String x a ++ String c b)%string.
  now rewrite (split_token_app_delim d (String x a) c b Ha Hc).
Qed.

(** strtok_r on a token that ends the string. *)
Lemma strtok_r_last (d a : string) :
  a <> EmptyString -> no_delim d a = true ->
  strtok_r None d a = (Some a, EmptyString).
Proof.
  intros Hne Ha. unfold strtok_r. destruct a as [|x a]; [contradiction|].
  pose proof Ha as Ha'. simpl in Ha'. apply andb_prop in Ha' as [Hx _].
  apply negb_true_iff in Hx. simpl skip_delim. rewrite Hx.
  now rewrite (split_token_no_delim d (String x a) Ha).
Qed.

Lemma config_token_spec (s : string) :
  config_token s = true ->
  s <> EmptyString
  /\ no_delim CTL_STRING_QUERY_SEPARATOR s = true
  /\ no_delim CTL_NAME_VALUE_SEPARATOR s = true.
Proof.
  unfold config_token. intros H. apply andb_prop in H as [H H3].
  apply andb_prop in H as [H1 H2]. apply negb_true_iff in H1.
  apply String.eqb_neq in H1. auto.
Qed.

Lemma entry_text_token (p : string * string) :
  config_token (fst p) = true -> config_token (snd p) = true ->
  entry_text p <> EmptyString
  /\ no_delim CTL_STRING_QUERY_SEPARATOR (entry_text p) = true.
Proof.
  intros Hn Hv. apply config_token_spec in Hn as (Hn0 & Hn1 & _).
  apply config_token_spec in Hv as (_ & Hv1 & _).
  unfold entry_text. split.
  - destruct (fst p); [contradiction|discriminate].
  - rewrite !no_delim_app, Hn1, Hv1. reflexivity.
Qed.

(** The provider splits the entry of a pair into the pair. *)
Lemma ctl_string_provider_parse_query_pair (p : string * string)
    (q : ctl_query_config) :
  config_token (fst p) = true -> config_token (snd p) = true ->
  ctl_string_provider_parse_query (Some (entry_text p)) q
  = (0, {| q_name := Some (fst p); q_value := Some (snd p) |}).
Proof.
  intros Hn Hv. apply config_token_spec in Hn as (Hn0 & _ & Hn2).
  apply config_token_spec in Hv as (Hv0 & _ & Hv2).
  unfold ctl_string_provider_parse_query, entry_text.
  rewrite strtok_r_first.
  change (CTL_NAME_VALUE_SEPARATOR ++ snd p)%string with (String "=" (snd p)).
  rewrite (strtok_r_token CTL_NAME_VALUE_SEPARATOR (fst p) "=" (snd p)
             Hn0 Hn2 eq_refl).
  rewrite (strtok_r_last _ _ Hv0 Hv2). reflexivity.
Qed.

Lemma encode_config_cons (p p' : string * string)
    (ps : list (string * string)) :
  encode_config (p :: p' :: ps)
  = (entry_text p ++ String ";" (encode_config (p' :: ps)))%string.
Proof. reflexivity. Qed.

(** What the provider gives out from the entry that strtok_r cuts out of
    the text of the pairs [ps] on, whatever its state apart from [sptr]. *)
Lemma provider_drain_encode (ps : list (string * string)) :
  Forall (fun p => config_token (fst p) = true
                   /\ config_token (snd p) = true) ps ->
  forall (sp : ctl_string_provider) (q0 : ctl_query_config) (fuel : nat),
    (length ps < fuel)%nat ->
    sptr sp
    = snd (strtok_r None CTL_STRING_QUERY_SEPARATOR (encode_config ps)) ->
    let qbuf :=
      fst (strtok_r None CTL_STRING_QUERY_SEPARATOR (encode_config ps)) in
    provider_drain fuel string_provider sp
      (fst (ctl_string_provider_parse_query qbuf q0))
      (snd (ctl_string_provider_parse_query qbuf q0))
    = (map (fun p => (Some (fst p), Some (snd p))) ps, 1).
Proof.
  induction 1 as [|p ps [Hn Hv] Hps IH]; intros sp q0 fuel Hfuel Hsp qbuf.
  - subst qbuf. simpl. destruct fuel; reflexivity.
  - destruct (entry_text_token p Hn Hv) as [He0 He1].
    destruct fuel as [|fuel]; [simpl in Hfuel; lia|].
    assert (Hq : qbuf = Some (entry_text p)
                 /\ sptr sp = encode_config ps).
    { subst qbuf. destruct ps as [|p' ps].
      - cbn [encode_config] in *.
        rewrite (strtok_r_last _ _ He0 He1) in *. now split.
      - rewrite encode_config_cons in *.
        rewrite (strtok_r_token CTL_STRING_QUERY_SEPARATOR (entry_text p)
                   ";" (encode_config (p' :: ps)) He0 He1 eq_refl) in *.
        now split. }
    destruct Hq as [-> Hrest].
    rewrite (ctl_string_provider_parse_query_pair p q0 Hn Hv).
    cbn [fst snd provider_drain Z.eqb next string_provider].
    unfold ctl_string_provider_next. rewrite Hrest.
    specialize (IH (set_sptr sp
                      (snd (strtok_r None CTL_STRING_QUERY_SEPARATOR
                              (encode_config ps))))
                  {| q_name := Some (fst p); q_value := Some (snd p) |}
                  fuel ltac:(simpl in *; lia) eq_refl).
    cbv zeta in IH.
    destruct (strtok_r None CTL_STRING_QUERY_SEPARATOR (encode_config ps))
      as [qbuf' s'].
    cbn [fst snd] in IH.
    destruct (ctl_string_provider_parse_query qbuf' _) as [r' q'].
    cbn [fst snd q_name q_value] in IH |- *. rewrite IH. reflexivity.
Qed.

(** X15. The round trip of a config text: for pairs whose names and
    values are not empty and hold neither separator, the string provider
    over the text that joins the entries name=value gives out, by [first]
    and then [next], exactly those pairs, in their order, and then reports
    the end with the status 1. *)
Theorem ctl_string_provider_round_trip (ps : list (string * string))
    (sp : ctl_string_provider) (fuel : nat) :
  Forall (fun p => config_token (fst p) = true
                   /\ config_token (snd p) = true) ps ->
  buf sp = encode_config ps ->
  (length ps < fuel)%nat ->
  provider_queries fuel string_provider sp
  = (map (fun p => (Some (fst p), Some (snd p))) ps, 1).
Proof.
  intros Hps Hbuf Hfuel. unfold provider_queries.
  cbn [first string_provider]. unfold ctl_string_provider_first.
  rewrite strtok_r_first, Hbuf.
  set (q0 := {| q_name := None; q_value := None |}).
  (* [first] cuts the first entry out of the text *)
  destruct (strtok_r None CTL_STRING_QUERY_SEPARATOR (encode_config ps))
    as [qbuf s] eqn:Et.
  cbv zeta. set (sp1 := set_sptr (set_buf sp _) s).
  (* [next] goes on from what is left of it *)
  pose proof (provider_drain_encode ps Hps sp1 q0 fuel Hfuel) as Hd.
  rewrite Et in Hd. specialize (Hd eq_refl). cbv zeta in Hd.
  cbn [fst snd] in Hd.
  destruct (ctl_string_provider_parse_query qbuf q0) as [r q].
  exact Hd.
Qed.

(** ** The persist worker of the rpmem test *)

Module RpmemProofs.

Import Rpmem.

Section Persist.

Context {Pool St : Type}.
Variable rpmem_persist : Pool -> Z -> Z -> Z -> St -> Z * St.

Lemma size_t_small (z : Z) : 0 <= z < SIZE_WRAP -> size_t z = z.
Proof. intros H. unfold size_t. now apply Z.mod_small. Qed.

(** The rounds of the loop from [i] on, when rpmem_persist succeeds: each
    persists the next [ps] bytes. *)
Lemma persist_loop_chunks (cnt : nat) (i : Z) (args : thread_arg Pool)
    (ps : Z) (st : St) (done : list (Z * Z * Z)) :
  (forall o s l st0, fst (rpmem_persist (rpp args) o s l st0) = 0) ->
  0 <= i -> i + Z.of_nat cnt < SIZE_WRAP -> 0 <= ps ->
  0 <= off args < SIZE_WRAP -> size args < SIZE_WRAP ->
  (i + Z.of_nat cnt) * ps = size args ->
  off args + size args <= SIZE_WRAP ->
  exists st',
    persist_loop rpmem_persist cnt i args ps st done
    = UtReturned
        (st',
         (done ++ map (fun k : nat =>
                         (off args + (i + Z.of_nat k) * ps, ps, lane args))
                    (seq 0 cnt))%list).
Proof.
  intros Hok. revert i st done.
  induction cnt as [|cnt IH]; intros i st done Hi Hcnt Hps Hoff Hsize Hsz Hfit.
  - exists st. simpl. now rewrite app_nil_r.
  - cbn [persist_loop].
    assert (Hle : i * ps + ps <= size args) by nia.
    assert (Hip : 0 <= i * ps) by nia.
    rewrite (size_t_small i) by lia.
    rewrite (size_t_small (i * ps)) by nia.
    rewrite (size_t_small (off args + i * ps)) by nia.
    rewrite (size_t_small (size args - i * ps)) by nia.
    replace (size args - i * ps <? ps) with false
      by (symmetry; apply Z.ltb_ge; lia).
    pose proof (Hok (off args + i * ps) ps (lane args) st) as Hret.
    destruct (rpmem_persist (rpp args) (off args + i * ps) ps (lane args) st)
      as [ret st1]. simpl in Hret. subst ret. cbn [Z.eqb].
    destruct (IH (i + 1) st1
                (done ++ [(off args + i * ps, ps, lane args)])%list)
      as (st' & ->); try lia.
    exists st'. f_equal. f_equal. rewrite <- app_assoc. f_equal.
    cbn [seq map app]. f_equal.
    + f_equal. f_equal. lia.
    + rewrite <- seq_shift, map_map. apply map_ext. intros k.
      f_equal. f_equal. lia.
Qed.

(** X16. The persist worker covers its range exactly: with a positive
    number of operations that divides the size, a range that does not wrap
    around and calls of rpmem_persist that succeed, [persist_thread]
    returns after [nops] calls of rpmem_persist on the lane of the thread,
    each for size / nops bytes, the call of round k at the offset
    off + k * (size / nops): the chunks follow one another from [off] and
    add up to [size]. *)
Theorem persist_thread_tiles (args : thread_arg Pool) (st : St) :
  0 < nops args <= INT_MAX ->
  0 <= size args < SIZE_WRAP ->
  0 <= off args < SIZE_WRAP ->
  off args + size args <= SIZE_WRAP ->
  size args mod nops args = 0 ->
  (forall o s l st0, fst (rpmem_persist (rpp args) o s l st0) = 0) ->
  exists st',
    persist_thread rpmem_persist args st
    = UtReturned
        (st',
         map (fun k : nat =>
                (off args + Z.of_nat k * (size args / nops args),
                 size args / nops args, lane args))
           (seq 0 (Z.to_nat (nops args))))
    /\ nops args * (size args / nops args) = size args.
Proof.
  intros Hn Hsize Hoff Hfit Hdiv Hok.
  assert (Hmax : INT_MAX < SIZE_WRAP) by (vm_compute; reflexivity).
  assert (Hmul : nops args * (size args / nops args) = size args).
  { pose proof (Z.div_mod (size args) (nops args) ltac:(lia)). lia. }
  unfold persist_thread. rewrite (size_t_small (nops args)) by lia.
  replace (nops args =? 0) with false by (symmetry; apply Z.eqb_neq; lia).
  rewrite Hdiv. cbn [Z.eqb negb].
  assert (Hps : 0 <= size args / nops args) by (apply Z.div_pos; lia).
  assert (Hall : (0 + Z.of_nat (Z.to_nat (nops args)))
                 * (size args / nops args) = size args)
    by (rewrite Z2Nat.id by lia; lia).
  assert (Hcnt : 0 + Z.of_nat (Z.to_nat (nops args)) < SIZE_WRAP)
    by (rewrite Z2Nat.id by lia; lia).
  destruct (persist_loop_chunks (Z.to_nat (nops args)) 0 args
              (size args / nops args) st [] Hok (Z.le_refl 0) Hcnt Hps Hoff
              (proj2 Hsize) Hall Hfit)
    as (st' & Hl).
  exists st'. split; [|exact Hmul]. rewrite Hl. reflexivity.
Qed.

(** A worker with no operation divides by zero; a size that the number of
    operations does not divide stops the worker at its assertion, before
    any call of rpmem_persist. *)
Lemma persist_thread_rejects (args : thread_arg Pool) (st : St) :
  (nops args = 0 -> persist_thread rpmem_persist args st = UtDivisionByZero)
  /\ (0 < nops args <= INT_MAX -> size args mod nops args <> 0 ->
      persist_thread rpmem_persist args st = UtAssertion).
Proof.
  split.
  - intros H. unfold persist_thread. now rewrite H.
  - intros Hn Hd. unfold persist_thread.
    assert (Hmax : INT_MAX < SIZE_WRAP) by (vm_compute; reflexivity).
    rewrite (size_t_small (nops args)) by lia.
    replace (nops args =? 0) with false by (symmetry; apply Z.eqb_neq; lia).
    apply Z.eqb_neq in Hd. now rewrite Hd.
Qed.

End Persist.

End RpmemProofs.

(** ** The further properties on concrete values *)

Import MoreExamples.

Lemma ctl_query_no_segment_witness :
  exists res,
    ctl_query true heap_tree 0 CTL_QUERY_PROGRAMMATIC ".." (Some "out") None
      m0 = Returned res
    /\ ret res = -1
    /\ calls res = []
    /\ pool res = 0
    /\ live (mem res) = live m0
    /\ (alloc_ok 1 m0 = true -> errno (mem res) = EINVAL).
Proof.
  apply (ctl_query_no_segment true heap_tree 0 CTL_QUERY_PROGRAMMATIC ".."
           (Some "out") None m0).
  reflexivity.
Defined.

Lemma ctl_query_status_witness :
  exists res,
    ctl_query true prefs_tree 0 CTL_QUERY_PROGRAMMATIC "prefs.bad"
      (Some "out") (Some "in") m0 = Returned res
    /\ ((calls res = [] /\ ret res = -1 /\ pool res = 0)
        \/ (calls res <> []
            /\ ret res = first_failure (map cb_ret (calls res)))).
Proof.
  eexists. split; [vm_compute; reflexivity|].
  apply (ctl_query_status true prefs_tree 0 CTL_QUERY_PROGRAMMATIC
           "prefs.bad" (Some "out") (Some "in") m0).
  vm_compute. reflexivity.
Defined.


Lemma ctl_query_index_list_stable_witness :
  exists res1 cl1 res2 cl2,
    ctl_query true heap_tree 0 CTL_QUERY_PROGRAMMATIC "heap.3.size"
      (Some "out") None m0 = Returned res1
    /\ ctl_query true heap_tree 9 CTL_QUERY_CONFIG_INPUT "heap.3.size"
         (Some "other") None m1 = Returned res2
    /\ In cl1 (calls res1) /\ In cl2 (calls res2)
    /\ cb_indexes cl1 = cb_indexes cl2
    /\ Forall (fun e => LONG_MIN <= idx_value e <= LONG_MAX)
         (cb_indexes cl1).
Proof.
  eexists _, _, _, _. split; [vm_compute; reflexivity|].
  split; [vm_compute; reflexivity|].
  split; [left; reflexivity|]. split; [left; reflexivity|].
  eapply (ctl_query_index_list_stable true heap_tree "heap.3.size"
            0 CTL_QUERY_PROGRAMMATIC (Some "out") None m0 _ _
            9 CTL_QUERY_CONFIG_INPUT (Some "other") None m1).
  - vm_compute. reflexivity.
  - vm_compute. reflexivity.
  - left. reflexivity.
  - left. reflexivity.
Defined.

Lemma ctl_load_config_effects_witness :
  exists s' res,
    ctl_load_config true id 12 config_tree 0 string_provider
      (provider_of "a.0.b=1;c=2") m0 = Returned (s', res)
    /\ live (mem res) = live m0
    /\ Forall (fun cl => cb_kind cl = WriteCb
                         /\ cb_type cl = CTL_QUERY_CONFIG_INPUT) (calls res)
    /\ (calls res = [] -> pool res = 0).
Proof.
  eexists _, _. split; [vm_compute; reflexivity|].
  eapply (ctl_load_config_effects true id 12 config_tree 0 string_provider
            (provider_of "a.0.b=1;c=2") _ m0).
  vm_compute. reflexivity.
Defined.

Lemma ctl_load_config_no_entry_witness :
  ctl_load_config true id 0 config_tree 0 string_provider
    (provider_of ";;") m0
  = Returned (set_sptr (provider_of ";;") EmptyString,
              {| ret := 0; pool := 0; mem := m0; calls := [] |}).
Proof.
  apply (ctl_load_config_no_entry true id 0 config_tree 0 (provider_of ";;")
           m0).
  reflexivity.
Defined.

Example ctl_new_m0 : ctl_new m0 = Returned (new_tree, m1).
Proof. reflexivity. Qed.

Lemma ctl_register_modules_capacity_witness :
  (exists c m,
     ctl_register_modules [("heap", Some heap_nodes)] new_tree m1
     = Returned (c, m)
     /\ registered_root c
     /\ first_free c = 1)
  /\ ctl_register_modules (repeat ("mod", Some arena_nodes) 101) new_tree m1
     = Fault OutOfBounds.
Proof.
  split.
  - exact (ctl_register_modules_capacity [("heap", Some heap_nodes)]
             m0 new_tree m1 eq_refl).
  - exact (ctl_register_modules_capacity
             (repeat ("mod", Some arena_nodes) 101) m0 new_tree m1 eq_refl).
Defined.

Lemma heap_tree_registered :
  registered_root heap_tree /\ first_free heap_tree = 1.
Proof.
  destruct (registered_root_new m0 new_tree m1 eq_refl) as [Hc Hf].
  destruct (registered_root_register new_tree "heap" (Some heap_nodes) m1 Hc)
    as (c' & m' & Hreg & Hc' & Hf' & _); [rewrite Hf; reflexivity|].
  assert (E : ctl_register_module_node new_tree "heap" (Some heap_nodes) m1
              = Returned (heap_tree, {| live := [1%nat; O]; brk := 2;
                                        oom := []; errno := 0 |}))
    by (vm_compute; reflexivity).
  rewrite E in Hreg. inversion Hreg; subst c'. split; [exact Hc'|reflexivity].
Defined.

Lemma ctl_query_module_name_witness :
  exists res,
    ctl_query true heap_tree 0 CTL_QUERY_PROGRAMMATIC "heap" (Some "out")
      (Some "in") m0 = Returned res
    /\ ret res = -1
    /\ calls res = []
    /\ pool res = 0.
Proof.
  apply (ctl_query_module_name true heap_tree 0 CTL_QUERY_PROGRAMMATIC
           "heap" "heap" (Some "out") (Some "in") m0
           (proj1 heap_tree_registered)).
  - reflexivity.
  - reflexivity.
Defined.

(** A module whose name is a number, registered behind heap. *)
Lemma ctl_register_module_node_found_witness :
  exists c' m' nnode,
    ctl_register_module_node heap_tree "7" (Some prefs_nodes) m0
    = Returned (c', m')
    /\ name nnode = Some "7"
    /\ children nnode = Some prefs_nodes
    /\ (forall idx, ctl_scan idx "7" (root c') = Some nnode)
    /\ (forall rest cur ix m2,
          alloc_ok 1 m2 = true ->
          exists m3,
            ctl_query_walk ("7" :: rest) (Some (root c')) cur ix m2
            = ctl_query_walk rest (Some prefs_nodes) (Some nnode)
                ((brk m2, {| idx_name := Some "7"; idx_value := 7 |}) :: ix)
                m3).
Proof.
  destruct (ctl_register_module_node_found heap_tree "7" (Some prefs_nodes)
              m0 (proj1 heap_tree_registered))
    as (c' & m' & nnode & Hreg & Hname & Hkids & Hscan & _ & Hwalk).
  - reflexivity.
  - reflexivity.
  - intros [|j] y Hj Hy.
    + vm_compute in Hy. inversion Hy; subst. split; discriminate.
    + rewrite (proj2 heap_tree_registered) in Hj. lia.
  - exists c', m', nnode. split; [exact Hreg|]. split; [exact Hname|].
    split; [exact Hkids|]. split; [exact Hscan|].
    intros rest cur ix m2 Ha. exact (Hwalk rest cur ix m2 eq_refl Ha).
Defined.

Lemma ctl_register_module_node_keeps_witness :
  exists c' m',
    ctl_register_module_node heap_tree "prefs" (Some prefs_nodes) m0
    = Returned (c', m')
    /\ ctl_query true c' 0 CTL_QUERY_PROGRAMMATIC "heap.3.size" (Some "out")
         None m0
       = ctl_query true heap_tree 0 CTL_QUERY_PROGRAMMATIC "heap.3.size"
           (Some "out") None m0.
Proof.
  eexists _, _. split; [vm_compute; reflexivity|].
  eapply (ctl_register_module_node_keeps true heap_tree "prefs"
            (Some prefs_nodes) m0 _ _ 0 CTL_QUERY_PROGRAMMATIC
            "heap.3.size" "heap" ["3"; "size"]
            (inner "heap" CTL_NODE_NAMED heap_nodes) (Some "out") None m0
            (proj1 heap_tree_registered)).
  - reflexivity.
  - vm_compute. reflexivity.
  - reflexivity.
  - reflexivity.
  - discriminate.
Defined.

Lemma ctl_register_module_node_hidden_witness :
  exists c1 m1' c2 m2,
    ctl_register_module_node heap_tree "lost" (Some prefs_nodes) m_fail
    = Returned (c1, m1')
    /\ ctl_register_module_node c1 "prefs" (Some prefs_nodes) m1'
       = Returned (c2, m2)
    /\ first_free c2 = 3
    /\ ctl_query true c1 0 CTL_QUERY_PROGRAMMATIC "prefs.val" (Some "out")
         None m0
       = ctl_query true heap_tree 0 CTL_QUERY_PROGRAMMATIC "prefs.val"
           (Some "out") None m0
    /\ ctl_query true c2 0 CTL_QUERY_PROGRAMMATIC "prefs.val" (Some "out")
         None m0
       = ctl_query true heap_tree 0 CTL_QUERY_PROGRAMMATIC "prefs.val"
           (Some "out") None m0.
Proof.
  eexists _, _, _, _. split; [vm_compute; reflexivity|].
  split; [vm_compute; reflexivity|]. split; [reflexivity|].
  eapply (ctl_register_module_node_hidden true heap_tree "lost" "prefs"
            (Some prefs_nodes) (Some prefs_nodes) m_fail _ _ _ _
            0 CTL_QUERY_PROGRAMMATIC "prefs.val" (Some "out") None m0
            (proj1 heap_tree_registered)).
  - reflexivity.
  - reflexivity.
  - vm_compute. reflexivity.
  - vm_compute. reflexivity.
Defined.

(** The module prefs of the tree above is there and cannot be reached. *)
Example hidden_module_unreachable :
  exists c1 m1' c2 m2,
    ctl_register_module_node heap_tree "lost" (Some prefs_nodes) m_fail
    = Returned (c1, m1')
    /\ ctl_register_module_node c1 "prefs" (Some prefs_nodes) m1'
       = Returned (c2, m2)
    /\ option_map name (root c2 !! 2%nat) = Some (Some "prefs")
    /\ ctl_query true c2 0 CTL_QUERY_PROGRAMMATIC "prefs.val" (Some "out")
         None m0
       = Returned {| ret := -1; pool := 0;
                     mem := {| live := []; brk := 1; oom := [];
                               errno := EINVAL |};
                     calls := [] |}.
Proof.
  eexists _, _, _, _. split; [vm_compute; reflexivity|].
  split; [vm_compute; reflexivity|]. split; vm_compute; reflexivity.
Qed.

Lemma ctl_query_index_decimal_witness :
  fully_numeric "42" = true
  /\ exists m',
       ctl_query_index "42" [] m0
       = inr (true, [ (O, {| idx_name := None; idx_value := 42 |}) ], m')
       /\ errno m' = 0.
Proof.
  apply (ctl_query_index_decimal 4 [2] [] m0).
  - lia.
  - repeat constructor; lia.
  - vm_compute. discriminate.
  - reflexivity.
Defined.

(** What [first] leaves of the text: a second [first] on the same provider
    finds the name of the first entry alone, which is no pair, and the
    [next] behind it finds the end. *)
Example ctl_string_provider_first_again :
  let q0 := {| q_name := None; q_value := None |} in
  let '(r1, q1, sp1) :=
    ctl_string_provider_first (provider_of ";;=a=1;b=2") q0 in
  let '(r2, q2, sp2) := ctl_string_provider_first sp1 q1 in
  let '(r3, q3, sp3) := ctl_string_provider_next sp2 q2 in
  (r1, q_name q1, q_value q1, buf sp1, sptr sp1)
  = (0, Some "a", Some "1", ";;=a", "b=2")
  /\ (r2, q_name q2, q_value q2, buf sp2, sptr sp2)
     = (-1, Some "a", None, ";;=a", "")
  /\ r3 = 1.
Proof. vm_compute. repeat split. Qed.

Lemma ctl_string_provider_round_trip_witness :
  provider_queries 3 string_provider (provider_of "a.0.b=1;c=2")
  = ([(Some "a.0.b", Some "1"); (Some "c", Some "2")], 1).
Proof.
  apply (ctl_string_provider_round_trip [("a.0.b", "1"); ("c", "2")]
           (provider_of "a.0.b=1;c=2") 3).
  - repeat constructor.
  - reflexivity.
  - simpl. lia.
Defined.

Lemma persist_thread_tiles_witness :
  exists st',
    Rpmem.persist_thread persist_ok worker O
    = Rpmem.UtReturned
        (st', [(8192, 1024, 2); (9216, 1024, 2); (10240, 1024, 2);
               (11264, 1024, 2)])
    /\ 4 * (4096 / 4) = 4096.
Proof.
  apply (RpmemProofs.persist_thread_tiles persist_ok worker O).
  - vm_compute. split; [reflexivity|discriminate].
  - vm_compute. split; [discriminate|reflexivity].
  - vm_compute. split; [discriminate|reflexivity].
  - vm_compute. discriminate.
  - reflexivity.
  - reflexivity.
Defined.
